(** * Zen Digit Dissolve (sketch.js): a shallow embedding and its properties

    The sketch renders a number as a field of particles that dissolve and
    reform on a breathing rhythm.  This development embeds the functions of
    [src/sketch.js] and proves (or refutes) the properties its specification
    states about them.

    Number model.  JavaScript numbers that take part in the animation
    (times, positions, angles, opacities) are IEEE doubles in the source; here
    they are the real numbers they approximate, so that [cos], [sin] and [PI]
    are the ones of the standard library.  Numbers read from the URL are
    parsed executably: the mathematical value of the digits is rounded to the
    nearest double (see [round_double]), kept as the rational that double is,
    and injected with [Q2R]; the values [NaN] and [Infinity], which the source
    tests for, are kept as constructors (see [number]).  Pixel indices and
    canvas sizes are natural numbers.
    Strings are [String.string], one character per code unit. *)

From Stdlib Require Import Reals Lra Lia ZArith Bool String Ascii List FinFun.
From Stdlib Require Import QArith Qabs Qround Qpower Qreals.
From Stdlib Require Import DecimalString DecimalNat.
From Stdlib Require Lqa.
Import ListNotations.

Open Scope R_scope.

(** ** Numeric primitives of JavaScript and p5.js used by the sketch *)

(** [Math.trunc]-style rounding toward zero, as used by the [%] operator. *)
Definition Rtrunc (r : R) : Z :=
  if Rle_dec 0 r then Zfloor r else Zceil r.

(** The [%] operator on numbers: the remainder has the sign of the dividend. *)
Definition fmod (a b : R) : R := a - b * IZR (Rtrunc (a / b)).

(** p5 [lerp(start, stop, amt)]. *)
Definition lerp (start stop amt : R) : R := amt * (stop - start) + start.

(** p5 [map(n, start1, stop1, start2, stop2)], without clamping. *)
Definition map_range (n start1 stop1 start2 stop2 : R) : R :=
  (n - start1) / (stop1 - start1) * (stop2 - start2) + start2.

(** p5 [floor], i.e. [Math.floor]. *)
Definition floor (r : R) : Z := Zfloor r.

(** p5 [TWO_PI]. *)
Definition TWO_PI : R := 2 * PI.

(** ** Constants of the sketch *)

Definition FG : R := 255.
Definition SAMPLE_STEP : nat := 6.

Definition EXHALE_SPREAD : R := 28.
Definition EXHALE_JITTER : R := 9 / 10.
Definition INHALE_TIGHTNESS : R := 18 / 100.
Definition DRIFT_NOISE_SCALE : R := 2 / 1000.
Definition DRIFT_NOISE_STRENGTH : R := 9 / 10.

Definition HUD_FADE : R := 140.

(** ** Breath Clock (draw, lines 73-77) *)

Module Breath.

(** [period = BREATH_SECONDS * 2]. *)
Definition period (h : R) : R := h * 2.

(** [phase = (t % period) / period]. *)
Definition phase (h t : R) : R := fmod t (period h) / period h.

(** [tri = phase < 0.5 ? phase * 2.0 : 2.0 - phase * 2.0]. *)
Definition tri_of_phase (ph : R) : R :=
  if Rlt_dec ph (1 / 2) then ph * 2 else 2 - ph * 2.

Definition tri (h t : R) : R := tri_of_phase (phase h t).

(** [exhale = 1.0 - tri]. *)
Definition exhale (h t : R) : R := 1 - tri h t.

End Breath.

(** ** Strings (String.prototype.trim, String(n), p5 nf) *)

(** The white-space code units below 256 that [trim], [parseInt] and
    [parseFloat] skip: TAB, LF, VT, FF, CR, SP and NBSP. *)
Definition isWhiteSpace (c : ascii) : bool :=
  match nat_of_ascii c with
  | 9%nat | 10%nat | 11%nat | 12%nat | 13%nat | 32%nat | 160%nat => true
  | _ => false
  end.

Definition isDigit (c : ascii) : bool :=
  (48 <=? nat_of_ascii c)%nat && (nat_of_ascii c <=? 57)%nat.

Fixpoint trimStart (s : string) : string :=
  match s with
  | String c s' => if isWhiteSpace c then trimStart s' else s
  | EmptyString => EmptyString
  end.

Fixpoint trimEnd (s : string) : string :=
  match s with
  | String c s' =>
      match trimEnd s' with
      | EmptyString => if isWhiteSpace c then EmptyString else String c EmptyString
      | r => String c r
      end
  | EmptyString => EmptyString
  end.

(** [s.trim()]. *)
Definition trim (s : string) : string := trimEnd (trimStart s).

(** [String(n)] for a non-negative integer [n]: its decimal digits. *)
Definition String_of_nat (n : nat) : string :=
  NilEmpty.string_of_uint (Nat.to_uint n).

(** [String(z)] for an integer [z]. *)
Definition String_of_Z (z : Z) : string :=
  if (z <? 0)%Z
  then ("-" ++ String_of_nat (Z.to_nat (- z)))%string
  else String_of_nat (Z.to_nat z).

(** A run of [n] zeros, the padding of [padStart(n, "0")]. *)
Fixpoint zeros (n : nat) : string :=
  match n with
  | O => EmptyString
  | S n' => String "0" (zeros n')
  end.

(** p5 [nf(num, left)] for a non-negative integer [num]: the decimal digits,
    left-padded with zeros to at least [left] characters. *)
Definition nf (num : Z) (left : nat) : string :=
  let digits := String_of_nat (Z.to_nat num) in
  (zeros (left - String.length digits) ++ digits)%string.

(** Whether every character of [s] is a decimal digit, and whether [s]
    starts with one (used to state what the parsers read). *)
Fixpoint all_digits (s : string) : bool :=
  match s with
  | String c s' => isDigit c && all_digits s'
  | EmptyString => true
  end.

Definition starts_with_digit (s : string) : bool :=
  match s with
  | String c _ => isDigit c
  | EmptyString => false
  end.

(** ** Numbers read from strings (parseInt, parseFloat, Number.isFinite) *)

(** The result of a parse: [NaN], an infinity, or a finite double, kept as
    the rational number it is. *)
Inductive number : Type :=
  | NaN
  | Infinity (negative : bool)
  | Finite (q : Q).

(** The exponent [e] with [2^e <= |q| < 2^(e+1)], for [q] other than 0. *)
Definition binade (q : Q) : Z :=
  let e := (Z.log2 (Z.abs (Qnum q)) - Z.log2 (Zpos (Qden q)))%Z in
  if Qle_bool (2 ^ e)%Q (Qabs q) then e else (e - 1)%Z.

(** The integer nearest to [x], a half going to the even neighbour. *)
Definition round_half_even (x : Q) : Z :=
  let f := Qfloor x in
  match Qcompare (x - inject_Z f)%Q (1 # 2)%Q with
  | Lt => f
  | Gt => (f + 1)%Z
  | Eq => if Z.even f then f else (f + 1)%Z
  end.

(** The spacing of the doubles around [q]: [2^(e - 52)] in the binade [e] of
    [q], and [2^-1074] below the smallest normal binade. *)
Definition ulp (q : Q) : Q := (2 ^ (Z.max (binade q) (- 1022) - 52))%Q.

(** The double nearest to the rational [q], a tie going to the even
    significand (IEEE 754 roundTiesToEven): the Number value that [parseInt]
    and [parseFloat] return for the mathematical value [q] of the digits
    they read, as long as it is finite.  (For more than 20 significant digits
    the language lets an implementation round a slightly different value;
    the engines return the nearest double.) *)
Definition round_double (q : Q) : Q :=
  if Qeq_bool q 0 then 0%Q
  else (inject_Z (round_half_even (q / ulp q)) * ulp q)%Q.

(** Values at or above [2^1024 - 2^970] in magnitude round to an infinity. *)
Definition overflow_threshold : Z := 2 ^ 1024 - 2 ^ 970.

Definition Qltb (a b : Q) : bool := negb (Qle_bool b a).

Definition to_number (q : Q) : number :=
  if Qltb (Qabs q) (inject_Z overflow_threshold)
  then Finite (Qred (round_double q))
  else Infinity (Qltb q 0).

(** [Number.isFinite(v)]. *)
Definition isFinite (v : number) : bool :=
  match v with
  | Finite _ => true
  | _ => false
  end.

(** [v > c] on numbers; any comparison with [NaN] is false. *)
Definition number_gtb (v : number) (c : Q) : bool :=
  match v with
  | NaN => false
  | Infinity negative => negb negative
  | Finite q => Qltb c q
  end.

(** The longest prefix of decimal digits and what follows it. *)
Fixpoint span_digits (s : string) : string * string :=
  match s with
  | String c s' =>
      if isDigit c
      then let (d, r) := span_digits s' in (String c d, r)
      else (EmptyString, s)
  | EmptyString => (EmptyString, EmptyString)
  end.

Definition digit_value (c : ascii) : Z := Z.of_nat (nat_of_ascii c) - 48.

Fixpoint digits_value_acc (acc : Z) (s : string) : Z :=
  match s with
  | String c s' => digits_value_acc (10 * acc + digit_value c) s'
  | EmptyString => acc
  end.

(** The mathematical integer a string of decimal digits denotes. *)
Definition digits_value (s : string) : Z := digits_value_acc 0 s.

(** An optional leading [+] or [-]: whether it was [-], and the rest. *)
Definition strip_sign (s : string) : bool * string :=
  match s with
  | String "-" r => (true, r)
  | String "+" r => (false, r)
  | _ => (false, s)
  end.

Definition apply_sign (negative : bool) (q : Q) : Q :=
  if negative then Qopp q else q.

(** [parseInt(s, 10)]: skip leading white space, read an optional sign and
    the longest run of digits, ignore whatever follows; [NaN] when there is
    no digit. *)
Definition parseInt (s : string) : number :=
  let (negative, S1) := strip_sign (trimStart s) in
  let (Zs, _) := span_digits S1 in
  match Zs with
  | EmptyString => NaN
  | _ => to_number (apply_sign negative (inject_Z (digits_value Zs)))
  end.

Definition isExponentIndicator (c : ascii) : bool :=
  match c with
  | "e"%char | "E"%char => true
  | _ => false
  end.

(** The value of an optional ExponentPart at the head of [s]: [e] or [E], an
    optional sign and at least one digit; 0 when [s] does not start with a
    complete one. *)
Definition exponent_part (s : string) : Z :=
  match s with
  | String c r =>
      if isExponentIndicator c
      then let (negative, r') := strip_sign r in
           let (ed, _) := span_digits r' in
           match ed with
           | EmptyString => 0%Z
           | _ => if negative then (- digits_value ed)%Z else digits_value ed
           end
      else 0%Z
  | EmptyString => 0%Z
  end.

(** The mathematical value of the decimal literal with integer digits [ip],
    fraction digits [fp] and exponent [e]. *)
Definition decimal_value (ip fp : string) (e : Z) : Q :=
  (inject_Z (digits_value (ip ++ fp))
   * 10 ^ (e - Z.of_nat (String.length fp)))%Q.

(** [parseFloat(s)]: skip leading white space and read the longest prefix
    that is a StrDecimalLiteral (sign, [Infinity] or digits with an optional
    fraction and exponent); [NaN] when there is none. *)
Definition parseFloat (s : string) : number :=
  let (negative, S1) := strip_sign (trimStart s) in
  if String.prefix "Infinity" S1 then Infinity negative
  else
    let (ip, r1) := span_digits S1 in
    let (fp, r2) :=
      match r1 with
      | String "." r => span_digits r
      | _ => (EmptyString, r1)
      end in
    match (ip ++ fp)%string with
    | EmptyString => NaN
    | mantissa =>
        let e := (exponent_part r2 - Z.of_nat (String.length fp))%Z in
        to_number
          (apply_sign negative (inject_Z (digits_value mantissa) * (10 ^ e))%Q)
    end.

(** ** Startup parameters (getParams, lines 11-13 and 36-50) *)

Record Config : Type := {
  DISPLAY_TEXT : string;
  RUN_SECONDS : option Q;     (* [None] is [null]: run indefinitely *)
  BREATH_SECONDS : Q
}.

(** The initial values of the three globals. *)
Definition default_config : Config :=
  {| DISPLAY_TEXT := "56"; RUN_SECONDS := None; BREATH_SECONDS := 8 |}.

(** The value of a number known to be finite. *)
Definition finite_value (v : number) : Q :=
  match v with
  | Finite q => q
  | _ => 0%Q
  end.

(** [getParams], on the three values [searchParams.get] returns for ["num"],
    ["dur"] and ["breath"] ([None] is [null]). *)
Definition getParams (n d b : option string) (c : Config) : Config :=
  let text :=
    match n with
    | Some n' => if negb (String.eqb (trim n') "") then trim n'
                 else DISPLAY_TEXT c
    | None => DISPLAY_TEXT c
    end in
  let run :=
    match d with
    | Some d' =>
        let sec := parseInt d' in
        if isFinite sec && number_gtb sec 0 then Some (finite_value sec)
        else RUN_SECONDS c
    | None => RUN_SECONDS c
    end in
  let breath :=
    match b with
    | Some b' =>
        let sec := parseFloat b' in
        if isFinite sec && number_gtb sec (1 # 2) then finite_value sec
        else BREATH_SECONDS c
    | None => BREATH_SECONDS c
    end in
  {| DISPLAY_TEXT := text; RUN_SECONDS := run; BREATH_SECONDS := breath |}.

(** ** Vectors and the object store

    A [p5.Vector] is a mutable object: [mult] and [add] change the receiver
    in place, the static [p5.Vector.add] allocates a new vector, and a particle
    holds references to its [home] and [pos] vectors.  The store keeps the
    vectors created so far (only the [x] and [y] fields, [z] stays 0); a
    reference is an index into it.  The store also carries the number of
    values drawn so far from the random source. *)

Record Vec : Type := mkVec { vx : R; vy : R }.

Definition ref : Type := nat.
Definition Heap : Type := list Vec.

Record World : Type := mkWorld { heap : Heap; seed : nat }.

Definition deref (h : Heap) (r : ref) : Vec := nth r h (mkVec 0 0).

Fixpoint store (r : ref) (v : Vec) (h : Heap) : Heap :=
  match h, r with
  | [], _ => []
  | _ :: h', O => v :: h'
  | u :: h', S r' => u :: store r' v h'
  end.

(** Computations that read and write the store. *)
Definition M (A : Type) : Type := World -> A * World.

Definition ret {A : Type} (a : A) : M A := fun w => (a, w).

Definition bind {A B : Type} (m : M A) (k : A -> M B) : M B :=
  fun w => let (a, w') := m w in k a w'.

Notation "x <- m ;; k" := (bind m (fun x => k))
  (at level 61, m at next level, right associativity).
Notation "m ;;; k" := (bind m (fun _ => k))
  (at level 61, right associativity).

(** [createVector(x, y)]. *)
Definition createVector (x y : R) : M ref :=
  fun w => (length (heap w), mkWorld (heap w ++ [mkVec x y]) (seed w)).

Definition readVec (r : ref) : M Vec := fun w => (deref (heap w) r, w).

Definition writeVec (r : ref) (v : Vec) : M unit :=
  fun w => (tt, mkWorld (store r v (heap w)) (seed w)).

(** [r.x = x] and [r.y = y]. *)
Definition setX (r : ref) (x : R) : M unit :=
  v <- readVec r ;; writeVec r (mkVec x (vy v)).

Definition setY (r : ref) (y : R) : M unit :=
  v <- readVec r ;; writeVec r (mkVec (vx v) y).

(** [r.mult(k)]: scales the receiver in place and returns it. *)
Definition mult (r : ref) (k : R) : M ref :=
  v <- readVec r ;; writeVec r (mkVec (vx v * k) (vy v * k)) ;;; ret r.

(** [r.add(r2)]: adds [r2] to the receiver in place and returns it. *)
Definition add (r r2 : ref) : M ref :=
  v <- readVec r ;; v2 <- readVec r2 ;;
  writeVec r (mkVec (vx v + vx v2) (vy v + vy v2)) ;;; ret r.

(** [p5.Vector.add(r1, r2)]: a new vector, the arguments are left alone. *)
Definition Vector_add (r1 r2 : ref) : M ref :=
  v1 <- readVec r1 ;; v2 <- readVec r2 ;;
  createVector (vx v1 + vx v2) (vy v1 + vy v2).

(** ** Particles *)

Record Particle : Type := mkParticle {
  home : ref;
  pos : ref;
  size : R;
  theta : R;
  rand : R
}.

(** A circle drawn by [fill(FG, alpha); circle(x, y, d)]. *)
Record Circle : Type := mkCircle {
  cx : R; cy : R; diameter : R; gray : R; opacity : R
}.

(** The countdown text drawn by [drawCountdown]. *)
Record Hud : Type := mkHud {
  hud_text : string; hud_x : R; hud_y : R; hud_gray : R; hud_opacity : R
}.

(** [a > 10 && (r + g + b) > 500] on the four channels at [idx]; an index
    outside the pixel array reads [undefined], which fails the test. *)
Definition lit (pixels : list Z) (idx : nat) : bool :=
  match nth_error pixels (idx + 0), nth_error pixels (idx + 1),
        nth_error pixels (idx + 2), nth_error pixels (idx + 3) with
  | Some r, Some g, Some b, Some a => ((10 <? a) && (500 <? r + g + b))%Z
  | _, _, _, _ => false
  end.

(** The build key [DISPLAY_TEXT + "|" + width + "x" + height]. *)
Definition buildKey (text : string) (width height : nat) : string :=
  (text ++ "|" ++ String_of_nat width ++ "x" ++ String_of_nat height)%string.

(** ** Value-level description of one Motion Integrator step

    What the loop body of [draw] computes for a particle whose home vector
    has value [hm] and whose position has value [ps]. *)

Section Values.

Variable noise : R -> R -> R -> R.

(** [flowForce] (lines 111-118): its two noise samples, angle and
    magnitude. *)
Definition flow_s : R := 13 / 10000.

Definition flow_nx (x y t : R) : R :=
  noise (x * flow_s) (y * flow_s) (t * (7 / 100)).

Definition flow_ny (x y t : R) : R :=
  noise ((x + 999) * flow_s) ((y - 777) * flow_s) (t * (7 / 100)).

Definition flow_angle (x y t : R) : R :=
  map_range (flow_nx x y t) 0 1 (- PI) PI.

Definition flow_magnitude (x y t : R) : R :=
  map_range (flow_ny x y t) 0 1 (2 / 10) 1.

Definition flow_vector (x y t : R) : Vec :=
  mkVec (cos (flow_angle x y t) * flow_magnitude x y t)
        (sin (flow_angle x y t) * flow_magnitude x y t).

(** Lines 82-85: the radial drift. *)
Definition drift_angle (hm : Vec) (th t : R) : R :=
  th + noise (vx hm * DRIFT_NOISE_SCALE) (vy hm * DRIFT_NOISE_SCALE)
             (t * (15 / 100)) * TWO_PI.

Definition spread (rd : R) : R :=
  EXHALE_SPREAD * (4 / 10 + EXHALE_JITTER * rd).

Definition radial_drift (hm : Vec) (th rd t exhale : R) : Vec :=
  mkVec (cos (drift_angle hm th t) * (spread rd * exhale))
        (sin (drift_angle hm th t) * (spread rd * exhale)).

(** Line 88: the flow push. *)
Definition flow_push (hm : Vec) (t exhale : R) : Vec :=
  mkVec (vx (flow_vector (vx hm) (vy hm) t) * (DRIFT_NOISE_STRENGTH * exhale))
        (vy (flow_vector (vx hm) (vy hm) t) * (DRIFT_NOISE_STRENGTH * exhale)).

Definition vadd (a b : Vec) : Vec := mkVec (vx a + vx b) (vy a + vy b).

(** Lines 89-92: [target = home + (drift + f)]. *)
Definition target (hm : Vec) (th rd t exhale : R) : Vec :=
  vadd hm (vadd (radial_drift hm th rd t exhale) (flow_push hm t exhale)).

(** Line 95. *)
Definition easing (exhale : R) : R :=
  lerp (1 - INHALE_TIGHTNESS) (8 / 100) exhale.

(** Lines 96-97: the new position. *)
Definition integrate (hm ps : Vec) (th rd t exhale : R) : Vec :=
  mkVec (lerp (vx ps) (vx (target hm th rd t exhale)) (easing exhale))
        (lerp (vy ps) (vy (target hm th rd t exhale)) (easing exhale)).

(** Line 100. *)
Definition alpha (tri : R) : R := 200 + 55 * tri.

End Values.

(** Euclidean distance between two points. *)
Definition dist (a b : Vec) : R :=
  sqrt ((vx a - vx b) * (vx a - vx b) + (vy a - vy b) * (vy a - vy b)).

(** ** The sampling grid, described directly

    The coordinates [0, SAMPLE_STEP, 2 * SAMPLE_STEP, ...] below [n], and the
    lit pixels on the grid of a [pw] by [ph] buffer, row by row.  The loops
    of [buildTextParticles] are compared with this description. *)
Definition grid (n : nat) : list nat :=
  map (fun k => (SAMPLE_STEP * k)%nat) (seq 0 ((n + 5) / SAMPLE_STEP)).

Definition row_points (pixels : list Z) (pw y : nat) : list (nat * nat) :=
  map (fun x => (x, y))
      (filter (fun x => lit pixels (4 * (y * pw + x))) (grid pw)).

Definition sample_points (pixels : list Z) (pw ph : nat) : list (nat * nat) :=
  flat_map (row_points pixels pw) (grid ph).

(** A particle set is well formed in a store when its home and position
    references are allocated and pairwise distinct. *)
Definition particle_refs (ps : list Particle) : list ref :=
  flat_map (fun p => [home p; pos p]) ps.

Definition wf_particles (ps : list Particle) (h : Heap) : Prop :=
  NoDup (particle_refs ps)
  /\ Forall (fun r => (r < length h)%nat) (particle_refs ps).

(** What [makeParticle(x, y)] leaves in the store [h] for its particle [p]:
    home at the pixel, position off it by one jitter in both axes, and the
    three random fields in their ranges. *)
Definition made_at (h : Heap) (x y : nat) (p : Particle) : Prop :=
  deref h (home p) = mkVec (INR x) (INR y)
  /\ (exists jitter, - 2 <= jitter < 2
        /\ deref h (pos p) = mkVec (INR x + jitter) (INR y + jitter))
  /\ 16 / 10 <= size p < 24 / 10
  /\ 0 <= theta p < TWO_PI
  /\ 0 <= rand p < 1.

(** The pixel array of a [pw] by [ph] buffer right after [pg.background(0)]:
    every pixel opaque black. *)
Definition background_pixels (pw ph : nat) : list Z :=
  concat (repeat [0; 0; 0; 255]%Z (pw * ph)).

(** The pixel array of a [pw] by [ph] buffer filled with opaque white. *)
Definition white_pixels (pw ph : nat) : list Z :=
  concat (repeat [255; 255; 255; 255]%Z (pw * ph)).

(** ** The sketch as a program over the store *)

(** The globals of the sketch.  [pg] is rebuilt and consumed inside
    [buildTextParticles] and is not kept.  [builds] is a ghost counter of the
    calls to [buildTextParticles]; the source has no such variable. *)
Record Sketch : Type := mkSketch {
  config : Config;
  width : nat;
  height : nat;
  particles : list Particle;
  lastBuildKey : string;
  startMillis : R;
  world : World;
  builds : nat
}.

(** The build key of the current display text and canvas size. *)
Definition currentKey (s : Sketch) : string :=
  buildKey (DISPLAY_TEXT (config s)) (width s) (height s).

(** The state every run of the sketch is in: the particle set is well formed
    in the store and the cached build key is current. *)
Definition frame_ready (s : Sketch) : Prop :=
  wf_particles (particles s) (heap (world s))
  /\ lastBuildKey s = currentKey s.

(** The two events the sketch handles between frames.  A resize carries the
    new window size and the two clock readings of the frame that p5's
    [resizeCanvas] draws before it returns. *)
Inductive Event : Type :=
  | KeyTyped (key : string)
  | WindowResized (w h : nat) (ms ms' : R).

(** What one call of [draw] puts on the canvas. *)
Record Frame : Type := mkFrame {
  circles : list Circle;
  hud : option Hud
}.

Section Program.

(** The value the sketch's k-th call of p5 [random] returns. *)
Variable rnd : nat -> R.

(** p5 [noise(x, y, z)] once its table is initialised (the first call fills
    the table from the source behind [random]; those draws are not calls of
    the sketch and are not counted in [seed]). *)
Variable noise : R -> R -> R -> R.

(** Lines 134-164: the pixel array [pg.pixels] after the text was laid out
    and drawn into an offscreen buffer of the given width and height (font
    metrics and glyph rendering belong to p5 and the browser). *)
Variable rasterize : string -> nat -> nat -> list Z.

(** [random()], [random(max)] and [random(min, max)]. *)
Definition random01 : M R :=
  fun w => (rnd (seed w), mkWorld (heap w) (S (seed w))).

Definition random_max (hi : R) : M R :=
  r <- random01 ;; ret (r * hi).

Definition random_range (lo hi : R) : M R :=
  r <- random01 ;; ret (r * (hi - lo) + lo).

(** [makeParticle(x, y)] (lines 186-195). *)
Definition makeParticle (x y : nat) : M Particle :=
  jitter <- random_range (- 2) 2 ;;
  hm <- createVector (INR x) (INR y) ;;
  ps <- createVector (INR x + jitter) (INR y + jitter) ;;
  sz <- random_range (16 / 10) (24 / 10) ;;
  th <- random_max TWO_PI ;;
  rd <- random01 ;;
  ret (mkParticle hm ps sz th rd).

(** The inner loop [for (let x = ...; x < pw; x += SAMPLE_STEP)] of
    lines 171-180, from column [x] on; [acc] is the array [particles]. *)
Fixpoint scan_row (fuel : nat) (pixels : list Z) (pw y x : nat)
    (acc : list Particle) : M (list Particle) :=
  match fuel with
  | O => ret acc
  | S fuel' =>
      if (x <? pw)%nat then
        if lit pixels (4 * (y * pw + x)) then
          p <- makeParticle x y ;;
          scan_row fuel' pixels pw y (x + SAMPLE_STEP) (acc ++ [p])
        else scan_row fuel' pixels pw y (x + SAMPLE_STEP) acc
      else ret acc
  end.

(** The outer loop [for (let y = ...; y < ph; y += SAMPLE_STEP)] of
    lines 170-181, from row [y] on. *)
Fixpoint scan_rows (fuel : nat) (pixels : list Z) (pw ph y : nat)
    (acc : list Particle) : M (list Particle) :=
  match fuel with
  | O => ret acc
  | S fuel' =>
      if (y <? ph)%nat then
        acc' <- scan_row pw pixels pw y 0 acc ;;
        scan_rows fuel' pixels pw ph (y + SAMPLE_STEP) acc'
      else ret acc
  end.

(** Lines 165-181: the Particle Sampler on a pixel array of [pw] by [ph]
    pixels.  Each loop runs at most as many times as its bound. *)
Definition sampleParticles (pixels : list Z) (pw ph : nat)
    : M (list Particle) :=
  scan_rows ph pixels pw ph 0 [].

(** The particles [makeParticle] builds for a list of points, in order. *)
Fixpoint build_from (pts : list (nat * nat)) : M (list Particle) :=
  match pts with
  | [] => ret []
  | (x, y) :: pts' =>
      p <- makeParticle x y ;;
      ps <- build_from pts' ;;
      ret (p :: ps)
  end.

(** [buildTextParticles] (lines 133-184). *)
Definition buildTextParticles (s : Sketch) : Sketch :=
  let pixels := rasterize (DISPLAY_TEXT (config s)) (width s) (height s) in
  let (ps, w') := sampleParticles pixels (width s) (height s) (world s) in
  mkSketch (config s) (width s) (height s) ps
           (buildKey (DISPLAY_TEXT (config s)) (width s) (height s))
           (startMillis s) w' (S (builds s)).

(** [flowForce(x, y, t)] (lines 111-118). *)
Definition flowForce (x y t : R) : M ref :=
  let s := 13 / 10000 in
  let nx := noise (x * s) (y * s) (t * (7 / 100)) in
  let ny := noise ((x + 999) * s) ((y - 777) * s) (t * (7 / 100)) in
  let ang := map_range nx 0 1 (- PI) PI in
  let magnitude := map_range ny 0 1 (2 / 10) 1 in
  v <- createVector (cos ang) (sin ang) ;; mult v magnitude.

(** The body of the loop over the particles in [draw] (lines 81-102). *)
Definition update_particle (t tri exhale : R) (p : Particle) : M Circle :=
  hm <- readVec (home p) ;;
  let n := noise (vx hm * DRIFT_NOISE_SCALE) (vy hm * DRIFT_NOISE_SCALE)
                 (t * (15 / 100)) in
  let ang := theta p + n * TWO_PI in
  let spread := EXHALE_SPREAD * (4 / 10 + EXHALE_JITTER * rand p) in
  v <- createVector (cos ang) (sin ang) ;;
  drift <- mult v (spread * exhale) ;;
  hm' <- readVec (home p) ;;
  fv <- flowForce (vx hm') (vy hm') t ;;
  f <- mult fv (DRIFT_NOISE_STRENGTH * exhale) ;;
  add drift f ;;;
  tg <- Vector_add (home p) drift ;;
  let easing := lerp (1 - INHALE_TIGHTNESS) (8 / 100) exhale in
  ps <- readVec (pos p) ;; tgv <- readVec tg ;;
  setX (pos p) (lerp (vx ps) (vx tgv) easing) ;;;
  ps' <- readVec (pos p) ;; tgv' <- readVec tg ;;
  setY (pos p) (lerp (vy ps') (vy tgv') easing) ;;;
  let alpha := 200 + 55 * tri in
  final <- readVec (pos p) ;;
  ret (mkCircle (vx final) (vy final) (size p) FG alpha).

(** [for (let p of particles) ...]. *)
Fixpoint update_all (t tri exhale : R) (ps : list Particle)
    : M (list Circle) :=
  match ps with
  | [] => ret []
  | p :: ps' =>
      c <- update_particle t tri exhale p ;;
      cs <- update_all t tri exhale ps' ;;
      ret (c :: cs)
  end.

(** [drawCountdown(remainingSec)] (lines 120-131) on a canvas of the given
    size. *)
Definition drawCountdown (remainingSec : R) (w h : nat) : Hud :=
  let mm := floor (remainingSec / 60) in
  let ss := floor (fmod remainingSec 60) in
  let txt := (nf mm 2 ++ ":" ++ nf ss 2)%string in
  mkHud txt (INR w - 14) (INR h - 12) FG HUD_FADE.

(** Lines 105-108: the countdown, when a run duration is configured;
    [elapsed] is [(millis() - startMillis) / 1000]. *)
Definition countdown (run : option Q) (elapsed : R) (w h : nat)
    : option Hud :=
  match run with
  | Some r => Some (drawCountdown (Rmax 0 (Q2R r - elapsed)) w h)
  | None => None
  end.

(** [draw] (lines 65-109); [ms] and [ms'] are the values of the two calls
    of [millis()]. *)
Definition draw (ms ms' : R) (s : Sketch) : Sketch * Frame :=
  let key := buildKey (DISPLAY_TEXT (config s)) (width s) (height s) in
  let s1 := if String.eqb key (lastBuildKey s) then s
            else buildTextParticles s in
  let t := ms / 1000 in
  let h := Q2R (BREATH_SECONDS (config s1)) in
  let tri := Breath.tri h t in
  let exhale := Breath.exhale h t in
  let (cs, w') := update_all t tri exhale (particles s1) (world s1) in
  let hd := countdown (RUN_SECONDS (config s1))
                      ((ms' - startMillis s1) / 1000)
                      (width s1) (height s1) in
  (mkSketch (config s1) (width s1) (height s1) (particles s1)
            (lastBuildKey s1) (startMillis s1) w' (builds s1),
   mkFrame cs hd).

(** p5 [resizeCanvas(w, h)] (line 61): sets the canvas size and redraws, that
    is, calls [draw] once before it returns; [ms] and [ms'] are the clock
    readings of that call.  It runs with the new size and the build key cached
    before the resize. *)
Definition resizeCanvas (w h : nat) (ms ms' : R) (s : Sketch)
    : Sketch * Frame :=
  draw ms ms'
       (mkSketch (config s) w h (particles s) (lastBuildKey s)
                 (startMillis s) (world s) (builds s)).

(** [windowResized] (lines 60-63) for a window of [w] by [h]. *)
Definition windowResized (w h : nat) (ms ms' : R) (s : Sketch) : Sketch :=
  buildTextParticles (fst (resizeCanvas w h ms ms' s)).

(** [keyTyped] (lines 198-203) for the typed [key]. *)
Definition keyTyped (key : string) (s : Sketch) : Sketch :=
  if String.eqb key "r" then
    let (v, w') := random_range 1 9999 (world s) in
    let text := String_of_Z (floor v) in
    buildTextParticles
      (mkSketch (Build_Config text (RUN_SECONDS (config s))
                              (BREATH_SECONDS (config s)))
                (width s) (height s) (particles s) (lastBuildKey s)
                (startMillis s) w' (builds s))
  else s.

(** [setup] (lines 52-58) with the three URL parameters, the window size
    and the value of [millis()]. *)
Definition setup (n d b : option string) (w h : nat) (ms : R) : Sketch :=
  buildTextParticles
    (mkSketch (getParams n d b default_config) w h [] "" ms
              (mkWorld [] 0) 0).

(** The handler p5 calls for an event. *)
Definition handle (e : Event) (s : Sketch) : Sketch :=
  match e with
  | KeyTyped key => keyTyped key s
  | WindowResized w h ms ms' => windowResized w h ms ms' s
  end.

(** A run of the sketch after [setup]: frames and events in any order. *)
Inductive Step : Type :=
  | Frame_at (ms ms' : R)
  | Event_of (e : Event).

Definition step (st : Step) (s : Sketch) : Sketch :=
  match st with
  | Frame_at ms ms' => fst (draw ms ms' s)
  | Event_of e => handle e s
  end.

Definition run (steps : list Step) (s : Sketch) : Sketch :=
  fold_left (fun s st => step st s) steps s.

End Program.

(** ** Further parts of the sketch *)

Definition TARGET_SCALE : R := 78 / 100.
Definition MARGIN_FRAC : R := 12 / 100.

(** Lines 135-137 and 152 of [buildTextParticles]: the width left for the
    text between the two margins. *)
Definition layout_availW (width height : nat) : R :=
  let minDim := Rmin (INR width) (INR height) in
  let margin := minDim * MARGIN_FRAC in
  INR width - margin * 2.

(** Lines 135-158 of [buildTextParticles]: the text size the display text is
    drawn with; [textWidth ts] is [pg.textWidth(DISPLAY_TEXT)] at text size
    [ts] (font metrics belong to p5 and the browser). *)
Definition layout_textSize (textWidth : R -> R) (width height : nat) : R :=
  let minDim := Rmin (INR width) (INR height) in
  let margin := minDim * MARGIN_FRAC in
  let targetH := minDim * TARGET_SCALE in
  let ts := Rmax 12 targetH in
  let availW := INR width - margin * 2 in
  let wText := textWidth ts in
  if Rlt_dec availW wText then Rmax 12 (ts * (availW / wText)) else ts.

(** How far from home a particle can get: the largest radial spread
    [EXHALE_SPREAD * (0.4 + EXHALE_JITTER)] plus the largest flow push
    [DRIFT_NOISE_STRENGTH]. *)
Definition DRIFT_REACH : R :=
  EXHALE_SPREAD * (4 / 10 + EXHALE_JITTER) + DRIFT_NOISE_STRENGTH.

(** A particle within reach of its home in the store [h]. *)
Definition within_reach (h : Heap) (p : Particle) : Prop :=
  0 <= rand p <= 1
  /\ dist (deref h (pos p)) (deref h (home p)) <= DRIFT_REACH.

(** The steps of a run whose clock reading is not negative ([millis()] never
    is): the frames of the loop and the frame a resize draws. *)
Definition clock_ok (st : Step) : Prop :=
  match st with
  | Frame_at ms _ => 0 <= ms
  | Event_of (WindowResized _ _ ms _) => 0 <= ms
  | Event_of (KeyTyped _) => True
  end.

(** What a string starts with: a dot, a dot and a digit, an exponent
    indicator; and the three forms of an optional sign. *)
Definition starts_with_dot (s : string) : bool :=
  match s with
  | String "." _ => true
  | _ => false
  end.

Definition starts_with_fraction (s : string) : bool :=
  match s with
  | String "." r => starts_with_digit r
  | _ => false
  end.

Definition starts_with_exponent (s : string) : bool :=
  match s with
  | String c _ => isExponentIndicator c
  | EmptyString => false
  end.

Definition is_sign (sg : string) : Prop :=
  sg = ""%string \/ sg = "+"%string \/ sg = "-"%string.

(** Whether a string starts, ends, or consists of white space. *)
Definition starts_with_space (s : string) : bool :=
  match s with
  | String c _ => isWhiteSpace c
  | EmptyString => false
  end.

Fixpoint ends_with_space (s : string) : bool :=
  match s with
  | String c EmptyString => isWhiteSpace c
  | String _ s' => ends_with_space s'
  | EmptyString => false
  end.

Fixpoint all_space (s : string) : bool :=
  match s with
  | String c s' => isWhiteSpace c && all_space s'
  | EmptyString => true
  end.

(** A particle sampled at [pt]: its home is [pt], it is within reach of it,
    and its size is one [makeParticle] draws. *)
Definition sampled_at (h : Heap) (pt : nat * nat) (p : Particle) : Prop :=
  deref h (home p) = mkVec (INR (fst pt)) (INR (snd pt))
  /\ within_reach h p
  /\ 16 / 10 <= size p < 24 / 10.

(** The particle set is the one sampled from the raster of the current text
    at the current canvas size. *)
Definition on_text (rasterize : string -> nat -> nat -> list Z) (s : Sketch)
    : Prop :=
  frame_ready s
  /\ (1 # 2 < BREATH_SECONDS (config s))%Q
  /\ Forall2 (sampled_at (heap (world s)))
       (sample_points
          (rasterize (DISPLAY_TEXT (config s)) (width s) (height s))
          (width s) (height s))
       (particles s).

(** The canvas size after a step, and after a run of steps from [w] by
    [h]: the size of the latest resize. *)
Definition resize_of (sz : nat * nat) (st : Step) : nat * nat :=
  match st with
  | Event_of (WindowResized w h _ _) => (w, h)
  | _ => sz
  end.

Definition canvas_after (steps : list Step) (w h : nat) : nat * nat :=
  fold_left resize_of steps (w, h).

(** The number of calls of [buildTextParticles] a step makes on a canvas of
    size [sz] whose cached key is current: none for a frame of the loop, one
    for the key 'r', and for a resize one from its handler and one more, when
    the size changes, from the frame [resizeCanvas] draws. *)
Definition rebuilds (sz : nat * nat) (st : Step) : nat :=
  match st with
  | Frame_at _ _ => 0
  | Event_of (KeyTyped key) => if String.eqb key "r" then 1 else 0
  | Event_of (WindowResized w h _ _) =>
      if Nat.eqb w (fst sz) && Nat.eqb h (snd sz) then 1 else 2
  end%nat.

Fixpoint rebuilds_of (sz : nat * nat) (steps : list Step) : nat :=
  match steps with
  | [] => 0
  | st :: steps' => rebuilds sz st + rebuilds_of (resize_of sz st) steps'
  end%nat.

(** Whether a step is the 'r' key. *)
Definition types_r (st : Step) : bool :=
  match st with
  | Event_of (KeyTyped key) => String.eqb key "r"
  | _ => false
  end.

(** ** Facts about the numeric primitives *)

Lemma Rtrunc_nonneg (r : R) : 0 <= r -> Rtrunc r = Zfloor r.
Proof.
  intros H. unfold Rtrunc. destruct (Rle_dec 0 r); [reflexivity | contradiction].
Qed.

Lemma Rtrunc_IZR (z : Z) : Rtrunc (IZR z) = z.
Proof.
  unfold Rtrunc. destruct (Rle_dec 0 (IZR z)).
  - apply ZfloorZ.
  - apply Zceil_eq. lra.
Qed.

Lemma fmod_small (a b : R) : 0 <= a < b -> fmod a b = a.
Proof.
  intros [Ha Hab]. unfold fmod.
  assert (Hq : 0 <= a / b < 1).
  { split.
    - apply Rmult_le_pos; [lra | left; apply Rinv_0_lt_compat; lra].
    - apply (Rmult_lt_reg_r b); [lra |].
      unfold Rdiv. rewrite Rmult_assoc, Rinv_l by lra. lra. }
  rewrite Rtrunc_nonneg by lra.
  rewrite (Zfloor_eq 0) by (simpl; lra). simpl. lra.
Qed.

Lemma fmod_self (b : R) : b <> 0 -> fmod b b = 0.
Proof.
  intros Hb. unfold fmod.
  replace (b / b) with (IZR 1) by (simpl; field; exact Hb).
  rewrite Rtrunc_IZR. simpl. lra.
Qed.

(** For a non-negative dividend and a positive divisor the remainder lies in
    [[0, b)]. *)
Lemma fmod_range (a b : R) : 0 <= a -> 0 < b -> 0 <= fmod a b < b.
Proof.
  intros Ha Hb. unfold fmod.
  assert (Hq : 0 <= a / b).
  { apply Rmult_le_pos; [lra | left; apply Rinv_0_lt_compat; lra]. }
  rewrite Rtrunc_nonneg by exact Hq.
  pose proof (Zfloor_bound (a / b)) as [Hlo Hhi].
  assert (Ha' : a = b * (a / b)) by (field; lra).
  split.
  - apply Rmult_le_compat_l with (r := b) in Hlo; [| lra]. lra.
  - apply Rmult_lt_compat_l with (r := b) in Hhi; [| lra]. lra.
Qed.

Lemma lerp_0 (a b : R) : lerp a b 0 = a.
Proof. unfold lerp. lra. Qed.

Lemma lerp_1 (a b : R) : lerp a b 1 = b.
Proof. unfold lerp. lra. Qed.

(** ** Breath Clock properties *)

Lemma phase_range (h t : R) : 0 < h -> 0 <= t -> 0 <= Breath.phase h t < 1.
Proof.
  intros Hh Ht. unfold Breath.phase, Breath.period.
  pose proof (fmod_range t (h * 2) Ht ltac:(lra)) as [Hlo Hhi].
  split.
  - apply Rmult_le_pos; [lra | left; apply Rinv_0_lt_compat; lra].
  - apply (Rmult_lt_reg_r (h * 2)); [lra |].
    unfold Rdiv. rewrite Rmult_assoc, Rinv_l by lra. lra.
Qed.

Lemma tri_of_phase_range (ph : R) :
  0 <= ph < 1 -> 0 <= Breath.tri_of_phase ph <= 1.
Proof.
  intros [Hlo Hhi]. unfold Breath.tri_of_phase.
  destruct (Rlt_dec ph (1 / 2)); lra.
Qed.

Lemma tri_range (h t : R) : 0 < h -> 0 <= t -> 0 <= Breath.tri h t <= 1.
Proof.
  intros Hh Ht. apply tri_of_phase_range, phase_range; assumption.
Qed.

Lemma phase_at_0 (h : R) : 0 < h -> Breath.phase h 0 = 0.
Proof.
  intros Hh. unfold Breath.phase, Breath.period.
  rewrite fmod_small by lra. field. lra.
Qed.

Lemma phase_at_half (h : R) : 0 < h -> Breath.phase h h = 1 / 2.
Proof.
  intros Hh. unfold Breath.phase, Breath.period.
  rewrite fmod_small by lra. field. lra.
Qed.

Lemma phase_at_period (h : R) : 0 < h -> Breath.phase h (2 * h) = 0.
Proof.
  intros Hh. unfold Breath.phase, Breath.period.
  replace (2 * h) with (h * 2) by lra.
  rewrite fmod_self by lra. field. lra.
Qed.

(** C1: for every half-period [h > 0.5] and every elapsed time [t >= 0]
    (the clock [millis()/1000] is never negative), the Breath Clock uses
    [period = 2h], its phase [(t mod period)/period] lies in [[0,1)], the
    triangle wave is [phase < 0.5 ? 2*phase : 2*(1-phase)] and stays in
    [[0,1]], it is 0 at [t = 0], 1 at [t = h] and 0 again at [t = 2h], and
    [exhale = 1 - tri]. *)
Theorem C1_breath_clock (h t : R) (Hh : 1 / 2 < h) (Ht : 0 <= t) :
  Breath.period h = 2 * h
  /\ Breath.phase h t = fmod t (2 * h) / (2 * h)
  /\ 0 <= Breath.phase h t < 1
  /\ Breath.tri h t
     = (if Rlt_dec (Breath.phase h t) (1 / 2)
        then 2 * Breath.phase h t else 2 * (1 - Breath.phase h t))
  /\ 0 <= Breath.tri h t <= 1
  /\ Breath.tri h 0 = 0
  /\ Breath.tri h h = 1
  /\ Breath.tri h (2 * h) = 0
  /\ Breath.exhale h t = 1 - Breath.tri h t.
Proof.
  assert (Hpos : 0 < h) by lra.
  repeat split.
  - unfold Breath.period. lra.
  - unfold Breath.phase, Breath.period.
    replace (h * 2) with (2 * h) by lra. reflexivity.
  - apply phase_range; assumption.
  - apply phase_range; assumption.
  - unfold Breath.tri, Breath.tri_of_phase.
    destruct (Rlt_dec (Breath.phase h t) (1 / 2)); lra.
  - apply tri_range; assumption.
  - apply tri_range; assumption.
  - unfold Breath.tri. rewrite phase_at_0 by assumption.
    unfold Breath.tri_of_phase. destruct (Rlt_dec 0 (1 / 2)); lra.
  - unfold Breath.tri. rewrite phase_at_half by assumption.
    unfold Breath.tri_of_phase. destruct (Rlt_dec (1 / 2) (1 / 2)); lra.
  - unfold Breath.tri. rewrite phase_at_period by assumption.
    unfold Breath.tri_of_phase. destruct (Rlt_dec 0 (1 / 2)); lra.
Qed.

(** The Breath Clock at the default half-period of 8 seconds, 3 seconds in. *)
Lemma C1_breath_clock_witness :
  Breath.period 8 = 2 * 8
  /\ Breath.phase 8 3 = fmod 3 (2 * 8) / (2 * 8)
  /\ 0 <= Breath.phase 8 3 < 1
  /\ Breath.tri 8 3
     = (if Rlt_dec (Breath.phase 8 3) (1 / 2)
        then 2 * Breath.phase 8 3 else 2 * (1 - Breath.phase 8 3))
  /\ 0 <= Breath.tri 8 3 <= 1
  /\ Breath.tri 8 0 = 0
  /\ Breath.tri 8 8 = 1
  /\ Breath.tri 8 (2 * 8) = 0
  /\ Breath.exhale 8 3 = 1 - Breath.tri 8 3.
Proof. apply (C1_breath_clock 8 3); lra. Defined.

(** ** The object store *)

Lemma store_length (r : ref) (v : Vec) (h : Heap) :
  length (store r v h) = length h.
Proof.
  revert r. induction h as [| u h IH]; intros [| r]; simpl; auto.
Qed.

Lemma deref_store_same (r : ref) (v : Vec) (h : Heap) :
  (r < length h)%nat -> deref (store r v h) r = v.
Proof.
  unfold deref. revert r.
  induction h as [| u h IH]; intros [| r] Hr; simpl in *; try lia; auto.
  apply IH. lia.
Qed.

Lemma deref_store_other (r r' : ref) (v : Vec) (h : Heap) :
  r <> r' -> deref (store r v h) r' = deref h r'.
Proof.
  unfold deref. revert r r'.
  induction h as [| u h IH]; intros [| r] [| r'] Hr; simpl; auto; try lia.
Qed.

Lemma deref_app_old (h l : Heap) (r : ref) :
  (r < length h)%nat -> deref (h ++ l) r = deref h r.
Proof. intros Hr. unfold deref. apply app_nth1. exact Hr. Qed.

Lemma deref_app_new (h : Heap) (v : Vec) :
  deref (h ++ [v]) (length h) = v.
Proof.
  unfold deref. rewrite app_nth2 by lia. rewrite Nat.sub_diag. reflexivity.
Qed.

Ltac heap_len :=
  repeat (rewrite ?store_length, ?length_app; simpl length); lia.

Lemma store_app_new (h : Heap) (u v : Vec) :
  store (length h) v (h ++ [u]) = h ++ [v].
Proof. induction h as [| x h IH]; simpl; [reflexivity | now rewrite IH]. Qed.

Lemma store_app_old (h l : Heap) (r : ref) (v : Vec) :
  (r < length h)%nat -> store r v (h ++ l) = store r v h ++ l.
Proof.
  revert r. induction h as [| x h IH]; intros [| r] Hr; simpl in *; try lia; auto.
  rewrite IH by lia. reflexivity.
Qed.

Lemma store_store (h : Heap) (r : ref) (u v : Vec) :
  store r v (store r u h) = store r v h.
Proof.
  revert r. induction h as [| x h IH]; intros [| r]; simpl; auto.
  now rewrite IH.
Qed.

Lemma bind_eq {A B : Type} (m : M A) (k : A -> M B) (w w' : World) (a : A) :
  m w = (a, w') -> bind m k w = k a w'.
Proof. intros H. unfold bind. rewrite H. reflexivity. Qed.

Lemma mult_eq (r : ref) (k : R) (w : World) :
  mult r k w
  = (r, mkWorld (store r (mkVec (vx (deref (heap w) r) * k)
                                (vy (deref (heap w) r) * k)) (heap w))
                (seed w)).
Proof. reflexivity. Qed.

Lemma add_eq (r r2 : ref) (w : World) :
  add r r2 w
  = (r, mkWorld (store r (vadd (deref (heap w) r) (deref (heap w) r2))
                       (heap w))
                (seed w)).
Proof. reflexivity. Qed.

Lemma Vector_add_eq (r1 r2 : ref) (w : World) :
  Vector_add r1 r2 w
  = (length (heap w),
     mkWorld (heap w ++ [vadd (deref (heap w) r1) (deref (heap w) r2)])
             (seed w)).
Proof. reflexivity. Qed.

Lemma setX_eq (r : ref) (x : R) (w : World) :
  setX r x w
  = (tt, mkWorld (store r (mkVec x (vy (deref (heap w) r))) (heap w)) (seed w)).
Proof. reflexivity. Qed.

Lemma setY_eq (r : ref) (y : R) (w : World) :
  setY r y w
  = (tt, mkWorld (store r (mkVec (vx (deref (heap w) r)) y) (heap w)) (seed w)).
Proof. reflexivity. Qed.

Section ProgramFacts.

Variable noise : R -> R -> R -> R.

Lemma flowForce_eq (x y t : R) (w : World) :
  flowForce noise x y t w
  = (length (heap w),
     mkWorld (heap w ++ [flow_vector noise x y t]) (seed w)).
Proof.
  unfold flowForce.
  erewrite bind_eq by reflexivity.
  rewrite mult_eq. cbn [heap seed].
  rewrite deref_app_new, store_app_new. reflexivity.
Qed.

Lemma update_particle_eq (t tri exhale : R) (p : Particle) (h : Heap) (sd : nat) :
  (home p < length h)%nat -> (pos p < length h)%nat ->
  home p <> pos p ->
  let hm := deref h (home p) in
  let new := integrate noise hm (deref h (pos p)) (theta p) (rand p) t exhale in
  update_particle noise t tri exhale p (mkWorld h sd)
  = (mkCircle (vx new) (vy new) (size p) FG (alpha tri),
     mkWorld (store (pos p) new h
                ++ [vadd (radial_drift noise hm (theta p) (rand p) t exhale)
                         (flow_push noise hm t exhale);
                    flow_push noise hm t exhale;
                    target noise hm (theta p) (rand p) t exhale])
             sd).
Proof.
  intros Hh Hp Hne hm new.
  unfold update_particle.
  erewrite bind_eq by reflexivity. cbn [heap seed]. fold hm.
  erewrite bind_eq by reflexivity. cbn [heap seed].
  erewrite bind_eq by apply mult_eq. cbn [heap seed].
  rewrite deref_app_new, store_app_new. cbn [vx vy].
  set (d := mkVec _ _).
  erewrite bind_eq by reflexivity. cbn [heap seed].
  rewrite deref_app_old by exact Hh. fold hm.
  erewrite bind_eq by apply flowForce_eq. cbn [heap seed].
  erewrite bind_eq by apply mult_eq. cbn [heap seed].
  rewrite deref_app_new, store_app_new.
  set (f := mkVec _ _).
  erewrite bind_eq by apply add_eq. cbn [heap seed].
  rewrite (deref_app_old (h ++ [d]) [f] (length h)) by heap_len.
  rewrite !deref_app_new.
  rewrite (store_app_old (h ++ [d]) [f] (length h)) by heap_len.
  rewrite store_app_new.
  erewrite bind_eq by apply Vector_add_eq. cbn [heap seed].
  rewrite (deref_app_old (h ++ [vadd d f]) [f] (length h)) by heap_len.
  rewrite deref_app_new.
  rewrite !(deref_app_old _ _ (home p)) by heap_len. fold hm.
  set (tg := vadd hm (vadd d f)).
  set (H2 := (h ++ [vadd d f]) ++ [f]).
  assert (HposH2 : (pos p < length H2)%nat) by (unfold H2; heap_len).
  assert (HneH2 : pos p <> length H2) by lia.
  erewrite bind_eq by reflexivity. cbn [heap seed].
  erewrite bind_eq by reflexivity. cbn [heap seed].
  rewrite deref_app_new.
  rewrite (deref_app_old H2 [tg] (pos p)) by exact HposH2.
  erewrite bind_eq by apply setX_eq. cbn [heap seed].
  rewrite (deref_app_old H2 [tg] (pos p)) by exact HposH2.
  rewrite (store_app_old H2 [tg] (pos p)) by exact HposH2.
  erewrite bind_eq by reflexivity. cbn [heap seed].
  erewrite bind_eq by reflexivity. cbn [heap seed].
  rewrite (deref_app_old (store _ _ H2) [tg] (pos p))
    by (rewrite store_length; exact HposH2).
  rewrite deref_store_same by exact HposH2.
  replace (length H2) with (length (store (pos p)
     {| vx := lerp (vx (deref H2 (pos p))) (vx tg)
                   (lerp (1 - INHALE_TIGHTNESS) (8 / 100) exhale);
        vy := vy (deref H2 (pos p)) |} H2)) at 1
    by apply store_length.
  rewrite deref_app_new.
  erewrite bind_eq by apply setY_eq. cbn [heap seed vx vy].
  rewrite (deref_app_old (store _ _ H2) [tg] (pos p))
    by (rewrite store_length; exact HposH2).
  rewrite deref_store_same by exact HposH2. cbn [vx vy].
  rewrite (store_app_old (store _ _ H2) [tg] (pos p))
    by (rewrite store_length; exact HposH2).
  rewrite store_store.
  erewrite bind_eq by reflexivity. cbn [heap seed].
  rewrite (deref_app_old (store _ _ H2) [tg] (pos p))
    by (rewrite store_length; exact HposH2).
  rewrite deref_store_same by exact HposH2. cbn [vx vy].
  unfold H2.
  rewrite !(deref_app_old _ _ (pos p)) by heap_len.
  rewrite !(store_app_old _ _ (pos p)) by heap_len.
  rewrite <- !app_assoc. reflexivity.
Qed.

(** One step of the loop body, read off the store: the drawn circle, the new
    position, and what the step leaves alone. *)
Lemma update_particle_spec (t tri exhale : R) (p : Particle) (w : World) :
  (home p < length (heap w))%nat -> (pos p < length (heap w))%nat ->
  home p <> pos p ->
  let new := integrate noise (deref (heap w) (home p)) (deref (heap w) (pos p))
                       (theta p) (rand p) t exhale in
  let w' := snd (update_particle noise t tri exhale p w) in
  fst (update_particle noise t tri exhale p w)
    = mkCircle (vx new) (vy new) (size p) FG (alpha tri)
  /\ seed w' = seed w
  /\ length (heap w') = (length (heap w) + 3)%nat
  /\ deref (heap w') (pos p) = new
  /\ (forall r, (r < length (heap w))%nat -> r <> pos p ->
        deref (heap w') r = deref (heap w) r).
Proof.
  intros Hh Hp Hne. destruct w as [h sd]. cbn [heap seed] in Hh, Hp.
  cbv zeta. cbn [heap seed].
  rewrite update_particle_eq by assumption. cbn [fst snd heap seed].
  repeat split.
  - heap_len.
  - rewrite deref_app_old by heap_len. apply deref_store_same. exact Hp.
  - intros r Hr Hrp. rewrite deref_app_old by heap_len.
    apply deref_store_other. auto.
Qed.

End ProgramFacts.

Lemma deref_app_at (h l : Heap) (k : nat) :
  deref (h ++ l) (length h + k)%nat = nth k l (mkVec 0 0).
Proof.
  unfold deref. rewrite app_nth2 by lia.
  replace (length h + k - length h)%nat with k by lia. reflexivity.
Qed.

Lemma deref_store_app_at (h l : Heap) (r : ref) (v : Vec) (k : nat) :
  deref (store r v h ++ l) (length h + k)%nat = nth k l (mkVec 0 0).
Proof. rewrite <- (store_length r v h). apply deref_app_at. Qed.

(** ** Motion Integrator and Flow Field *)

Lemma easing_at_1 : easing 1 = 8 / 100.
Proof. unfold easing. apply lerp_1. Qed.

Lemma easing_at_0 : easing 0 = 1 - INHALE_TIGHTNESS.
Proof. unfold easing. apply lerp_0. Qed.

Lemma map_range_unit_bounds (n lo hi : R) :
  0 <= n <= 1 -> lo <= hi -> lo <= map_range n 0 1 lo hi <= hi.
Proof.
  intros Hn Hlh. unfold map_range.
  replace ((n - 0) / (1 - 0) * (hi - lo) + lo) with (n * (hi - lo) + lo)
    by (field; lra).
  split; nra.
Qed.

Lemma Vec_ext (a b : Vec) : vx a = vx b -> vy a = vy b -> a = b.
Proof. destruct a, b. cbn [vx vy]. intros -> ->. reflexivity. Qed.

Lemma dist_nonneg (a b : Vec) : 0 <= dist a b.
Proof. unfold dist. apply sqrt_pos. Qed.

Lemma dist_lt (a b c d : Vec) :
  (vx a - vx b) * (vx a - vx b) + (vy a - vy b) * (vy a - vy b)
  < (vx c - vx d) * (vx c - vx d) + (vy c - vy d) * (vy c - vy d) ->
  dist a b < dist c d.
Proof.
  intros H. unfold dist. apply sqrt_lt_1_alt. split; [| exact H].
  pose proof (Rle_0_sqr (vx a - vx b)) as Hx.
  pose proof (Rle_0_sqr (vy a - vy b)) as Hy.
  unfold Rsqr in Hx, Hy. lra.
Qed.

Lemma Vec_neq_sq (a b : Vec) :
  a <> b ->
  0 < (vx a - vx b) * (vx a - vx b) + (vy a - vy b) * (vy a - vy b).
Proof.
  intros Hne. destruct a as [ax ay], b as [bx by_]. cbn [vx vy].
  destruct (Req_dec ax bx) as [Hx | Hx].
  - destruct (Req_dec ay by_) as [Hy | Hy].
    + subst. contradiction Hne. reflexivity.
    + assert (H : 0 < (ay - by_) * (ay - by_))
        by (apply (Rsqr_pos_lt (ay - by_)); lra).
      pose proof (Rle_0_sqr (ax - bx)) as H0. unfold Rsqr in H0. lra.
  - assert (H : 0 < (ax - bx) * (ax - bx))
      by (apply (Rsqr_pos_lt (ax - bx)); lra).
    pose proof (Rle_0_sqr (ay - by_)) as H0. unfold Rsqr in H0. lra.
Qed.

Lemma sum_sq_nonneg (x y : R) : 0 <= x * x + y * y.
Proof.
  pose proof (Rle_0_sqr x) as Hx. pose proof (Rle_0_sqr y) as Hy.
  unfold Rsqr in Hx, Hy. lra.
Qed.

Lemma dist_le_bound (a b : Vec) (B : R) :
  0 <= B ->
  (vx a - vx b) * (vx a - vx b) + (vy a - vy b) * (vy a - vy b) <= B * B ->
  dist a b <= B.
Proof.
  intros HB H. unfold dist. rewrite <- (sqrt_square B) by exact HB.
  apply sqrt_le_1_alt. exact H.
Qed.

Lemma dist_ge_bound (a b : Vec) (B : R) :
  0 <= B ->
  B * B <= (vx a - vx b) * (vx a - vx b) + (vy a - vy b) * (vy a - vy b) ->
  B <= dist a b.
Proof.
  intros HB H. unfold dist. rewrite <- (sqrt_square B) at 1 by exact HB.
  apply sqrt_le_1_alt. exact H.
Qed.

Lemma dist_sq (a b : Vec) :
  dist a b * dist a b
  = (vx a - vx b) * (vx a - vx b) + (vy a - vy b) * (vy a - vy b).
Proof. unfold dist. apply sqrt_sqrt. apply sum_sq_nonneg. Qed.

Lemma dist_pos (a b : Vec) : a <> b -> 0 < dist a b.
Proof.
  intros H. unfold dist. apply sqrt_lt_R0. apply Vec_neq_sq. exact H.
Qed.

Lemma DRIFT_REACH_value : DRIFT_REACH = 373 / 10.
Proof.
  unfold DRIFT_REACH, EXHALE_SPREAD, EXHALE_JITTER, DRIFT_NOISE_STRENGTH. lra.
Qed.

Section TargetReach.

Variable noise : R -> R -> R -> R.
Hypothesis noise_range : forall x y z, 0 <= noise x y z <= 1.

(** How far the target lies from home. *)
Lemma target_offset_bounds (hm : Vec) (th rd t exhale : R) :
  0 <= rd <= 1 -> 0 <= exhale <= 1 ->
  let tg := target noise hm th rd t exhale in
  (103 / 10 * exhale) * (103 / 10 * exhale)
  <= (vx tg - vx hm) * (vx tg - vx hm) + (vy tg - vy hm) * (vy tg - vy hm)
  <= (DRIFT_REACH * exhale) * (DRIFT_REACH * exhale).
Proof.
  intros Hrd He. cbv zeta. rewrite DRIFT_REACH_value.
  unfold target, radial_drift, flow_push, flow_vector, vadd. cbn [vx vy].
  set (a := drift_angle noise hm th t).
  set (b := flow_angle noise (vx hm) (vy hm) t).
  assert (Hm : 2 / 10 <= flow_magnitude noise (vx hm) (vy hm) t <= 1).
  { unfold flow_magnitude. apply map_range_unit_bounds; [apply noise_range | lra]. }
  set (m := flow_magnitude noise (vx hm) (vy hm) t) in *.
  assert (HS : 112 / 10 <= spread rd <= 364 / 10)
    by (unfold spread, EXHALE_SPREAD, EXHALE_JITTER; lra).
  set (S := spread rd * exhale).
  set (K := m * (DRIFT_NOISE_STRENGTH * exhale)).
  assert (HSr : 112 / 10 * exhale <= S <= 364 / 10 * exhale)
    by (unfold S; nra).
  assert (HKr : 0 <= K <= 9 / 10 * exhale)
    by (unfold K, DRIFT_NOISE_STRENGTH; nra).
  set (c := cos a * cos b + sin a * sin b).
  pose proof (sin2_cos2 a) as Ha. pose proof (sin2_cos2 b) as Hb.
  unfold Rsqr in Ha, Hb.
  assert (Hc : - 1 <= c <= 1).
  { pose proof (sum_sq_nonneg (cos a - cos b) (sin a - sin b)) as H1.
    pose proof (sum_sq_nonneg (cos a + cos b) (sin a + sin b)) as H2.
    unfold c. split; nra. }
  assert (E : (vx hm + (cos a * S + cos b * m * (DRIFT_NOISE_STRENGTH * exhale))
               - vx hm)
              * (vx hm + (cos a * S + cos b * m * (DRIFT_NOISE_STRENGTH * exhale))
                 - vx hm)
              + (vy hm + (sin a * S + sin b * m * (DRIFT_NOISE_STRENGTH * exhale))
                 - vy hm)
                * (vy hm + (sin a * S + sin b * m * (DRIFT_NOISE_STRENGTH * exhale))
                   - vy hm)
              = S * S + K * K + 2 * (S * K) * c).
  { transitivity (S * S * (sin a * sin a + cos a * cos a)
                  + K * K * (sin b * sin b + cos b * cos b)
                  + 2 * (S * K) * c).
    - unfold K, c. ring.
    - rewrite Ha, Hb. ring. }
  rewrite E.
  assert (HSK : 0 <= S * K) by nra.
  assert (Hlo : (S - K) * (S - K) <= S * S + K * K + 2 * (S * K) * c) by nra.
  assert (Hhi : S * S + K * K + 2 * (S * K) * c <= (S + K) * (S + K)) by nra.
  split.
  - apply Rle_trans with ((S - K) * (S - K)); [| exact Hlo]. nra.
  - apply Rle_trans with ((S + K) * (S + K)); [exact Hhi |]. nra.
Qed.

End TargetReach.

(** The inner product of two displacements is at least minus the product of
    their lengths. *)
Lemma inner_product_bound (a b c d : Vec) :
  - (dist a b * dist c d)
  <= (vx a - vx b) * (vx c - vx d) + (vy a - vy b) * (vy c - vy d).
Proof.
  pose proof (dist_sq a b) as Hab. pose proof (dist_sq c d) as Hcd.
  pose proof (dist_nonneg a b) as H1. pose proof (dist_nonneg c d) as H2.
  set (ax := vx a - vx b) in *. set (ay := vy a - vy b) in *.
  set (cx' := vx c - vx d) in *. set (cy' := vy c - vy d) in *.
  set (D := dist a b) in *. set (E := dist c d) in *.
  set (X := ax * cx' + ay * cy').
  assert (HCS : X * X <= (D * E) * (D * E)).
  { replace ((D * E) * (D * E)) with ((D * D) * (E * E)) by ring.
    rewrite Hab, Hcd. unfold X.
    pose proof (Rle_0_sqr (ax * cy' - ay * cx')) as Hsq. unfold Rsqr in Hsq.
    lra. }
  assert (HDE : 0 <= D * E) by (apply Rmult_le_pos; assumption).
  destruct (Rle_lt_dec (- (D * E)) X) as [Hle | Hlt]; [exact Hle |].
  exfalso.
  assert (Hm : D * E < - X) by lra.
  assert (Hsq : (D * E) * (D * E) < (- X) * (- X))
    by (apply Rmult_le_0_lt_compat; assumption).
  lra.
Qed.

Section IntegratorFacts.

  Variable noise : R -> R -> R -> R.

(** At [exhale = 0] the target is home, and the step keeps 0.18 of the
    displacement from home. *)
Lemma integrate_formed (hm ps : Vec) (th rd t : R) :
  vx (integrate noise hm ps th rd t 0) - vx hm = 18 / 100 * (vx ps - vx hm)
  /\ vy (integrate noise hm ps th rd t 0) - vy hm = 18 / 100 * (vy ps - vy hm).
Proof.
  unfold integrate, target, radial_drift, flow_push, vadd. cbn [vx vy].
  rewrite easing_at_0. unfold lerp, INHALE_TIGHTNESS. split; lra.
Qed.

(** At [exhale = 1] the step keeps 0.92 of the displacement from the
    target. *)
Lemma integrate_dissolved (hm ps : Vec) (th rd t : R) :
  vx (integrate noise hm ps th rd t 1)
    = 92 / 100 * vx ps + 8 / 100 * vx (target noise hm th rd t 1)
  /\ vy (integrate noise hm ps th rd t 1)
    = 92 / 100 * vy ps + 8 / 100 * vy (target noise hm th rd t 1).
Proof.
  unfold integrate. cbn [vx vy]. rewrite easing_at_1. unfold lerp. split; lra.
Qed.

(** C5: in every loop step the vector [target] is home plus the radial drift
    [(cos ang, sin ang) * spread * exhale] plus the flow vector scaled by
    [DRIFT_NOISE_STRENGTH * exhale]; the position is eased toward it by
    [lerp] with a factor that is 0.08 at [exhale = 1] and
    [1 - INHALE_TIGHTNESS] at [exhale = 0]. *)
Theorem C5_target_and_easing (t tri exhale : R) (p : Particle) (w : World)
    (Hh : (home p < length (heap w))%nat)
    (Hp : (pos p < length (heap w))%nat)
    (Hne : home p <> pos p) :
  let hm := deref (heap w) (home p) in
  let ps := deref (heap w) (pos p) in
  let w' := snd (update_particle noise t tri exhale p w) in
  let ang := theta p
             + noise (vx hm * DRIFT_NOISE_SCALE) (vy hm * DRIFT_NOISE_SCALE)
                     (t * (15 / 100)) * TWO_PI in
  let sp := EXHALE_SPREAD * (4 / 10 + EXHALE_JITTER * rand p) in
  let fl := flow_vector noise (vx hm) (vy hm) t in
  let tg := deref (heap w') (length (heap w) + 2)%nat in
  vx tg = vx hm + (cos ang * (sp * exhale)
                   + vx fl * (DRIFT_NOISE_STRENGTH * exhale))
  /\ vy tg = vy hm + (sin ang * (sp * exhale)
                      + vy fl * (DRIFT_NOISE_STRENGTH * exhale))
  /\ vx (deref (heap w') (pos p)) = lerp (vx ps) (vx tg) (easing exhale)
  /\ vy (deref (heap w') (pos p)) = lerp (vy ps) (vy tg) (easing exhale)
  /\ easing 1 = 8 / 100
  /\ easing 0 = 1 - INHALE_TIGHTNESS.
Proof.
  destruct w as [h sd]. cbn [heap seed] in Hh, Hp. cbv zeta. cbn [heap seed].
  rewrite update_particle_eq by assumption. cbn [snd heap].
  rewrite !deref_store_app_at. cbn [nth].
  rewrite deref_app_old by heap_len.
  rewrite deref_store_same by exact Hp.
  repeat split; try reflexivity.
  - apply easing_at_1.
  - apply easing_at_0.
Qed.

(** C2 (amended): one step at [exhale = 0] moves the particle to
    [home + 0.18 * (pos - home)], strictly closer to home than it was whenever
    the displacement is non-zero.  With [d] the prior displacement from home
    and [e] the offset of the exhale-1 target from home, the step at
    [exhale = 1] ends at [home + 0.92 * d + 0.08 * e], and the step at
    [exhale = 0] ends strictly closer to home than that one exactly when
    [0.18 * |d| < |0.92 * d + 0.08 * e|].  This holds whenever
    [|d| > 8/74 * |e|], hence, for noise values in [[0,1]] and [rand] in
    [[0,1]], for every particle more than [8/74 * 37.3] (about 4.03) pixels
    from home, and it holds whenever [d] does not point against [e]. *)
Theorem C2_formed_step_closer (t : R) (p : Particle) (w : World)
    (Hh : (home p < length (heap w))%nat)
    (Hp : (pos p < length (heap w))%nat)
    (Hne : home p <> pos p)
    (Hdisp : deref (heap w) (pos p) <> deref (heap w) (home p)) :
  let hm := deref (heap w) (home p) in
  let ps := deref (heap w) (pos p) in
  let formed := deref (heap (snd (update_particle noise t 1 0 p w))) (pos p) in
  let dissolved :=
    deref (heap (snd (update_particle noise t 0 1 p w))) (pos p) in
  let tg := target noise hm (theta p) (rand p) t 1 in
  let dx := vx ps - vx hm in
  let dy := vy ps - vy hm in
  let ex := vx tg - vx hm in
  let ey := vy tg - vy hm in
  vx formed - vx hm = 18 / 100 * dx
  /\ vy formed - vy hm = 18 / 100 * dy
  /\ dist formed hm < dist ps hm
  /\ vx dissolved - vx hm = 92 / 100 * dx + 8 / 100 * ex
  /\ vy dissolved - vy hm = 92 / 100 * dy + 8 / 100 * ey
  /\ (dist formed hm < dist dissolved hm <->
      (18 / 100) * (18 / 100) * (dx * dx + dy * dy)
      < (92 / 100 * dx + 8 / 100 * ex) * (92 / 100 * dx + 8 / 100 * ex)
        + (92 / 100 * dy + 8 / 100 * ey) * (92 / 100 * dy + 8 / 100 * ey))
  /\ (8 / 74 * dist tg hm < dist ps hm -> dist formed hm < dist dissolved hm)
  /\ ((forall x y z, 0 <= noise x y z <= 1) -> 0 <= rand p <= 1 ->
      8 / 74 * (373 / 10) < dist ps hm ->
      dist formed hm < dist dissolved hm)
  /\ (0 <= dx * ex + dy * ey -> dist formed hm < dist dissolved hm).
Proof.
  cbv zeta.
  destruct (update_particle_spec noise t 1 0 p w Hh Hp Hne)
    as (_ & _ & _ & Hf & _).
  destruct (update_particle_spec noise t 0 1 p w Hh Hp Hne)
    as (_ & _ & _ & Hd & _).
  cbv zeta in Hf, Hd. rewrite Hf, Hd. clear Hf Hd.
  set (hm := deref (heap w) (home p)) in *.
  set (ps := deref (heap w) (pos p)) in *.
  destruct (integrate_formed hm ps (theta p) (rand p) t) as [Hfx Hfy].
  destruct (integrate_dissolved hm ps (theta p) (rand p) t) as [Hdx Hdy].
  set (tg := target noise hm (theta p) (rand p) t 1) in *.
  set (formed := integrate noise hm ps (theta p) (rand p) t 0) in *.
  set (dissolved := integrate noise hm ps (theta p) (rand p) t 1) in *.
  pose proof (Vec_neq_sq ps hm Hdisp) as Hpos.
  pose proof (inner_product_bound ps hm tg hm) as Hip.
  pose proof (dist_sq ps hm) as HD. pose proof (dist_sq tg hm) as HE.
  pose proof (dist_nonneg ps hm) as HD0. pose proof (dist_nonneg tg hm) as HE0.
  set (dx := vx ps - vx hm) in *. set (dy := vy ps - vy hm) in *.
  set (ex := vx tg - vx hm) in *. set (ey := vy tg - vy hm) in *.
  assert (Hdx' : vx dissolved - vx hm = 92 / 100 * dx + 8 / 100 * ex)
    by (rewrite Hdx; unfold dx, ex; lra).
  assert (Hdy' : vy dissolved - vy hm = 92 / 100 * dy + 8 / 100 * ey)
    by (rewrite Hdy; unfold dy, ey; lra).
  assert (Hiff : dist formed hm < dist dissolved hm <->
                 (18 / 100) * (18 / 100) * (dx * dx + dy * dy)
                 < (92 / 100 * dx + 8 / 100 * ex)
                   * (92 / 100 * dx + 8 / 100 * ex)
                   + (92 / 100 * dy + 8 / 100 * ey)
                     * (92 / 100 * dy + 8 / 100 * ey)).
  { split.
    - intros Hlt.
      pose proof (dist_sq formed hm) as Hsf.
      pose proof (dist_sq dissolved hm) as Hsd.
      pose proof (dist_nonneg formed hm) as Hf0.
      rewrite Hfx, Hfy in Hsf. rewrite Hdx', Hdy' in Hsd.
      assert (Hsq : dist formed hm * dist formed hm
                    < dist dissolved hm * dist dissolved hm)
        by (apply Rmult_le_0_lt_compat; assumption).
      lra.
    - intros Hlt. apply dist_lt. rewrite Hfx, Hfy, Hdx', Hdy'. lra. }
  assert (Hfar : 8 / 74 * dist tg hm < dist ps hm ->
                 dist formed hm < dist dissolved hm).
  { intros Hgt. apply Hiff.
    set (D := dist ps hm) in *. set (E := dist tg hm) in *.
    set (X := dx * ex + dy * ey) in *.
    replace ((92 / 100 * dx + 8 / 100 * ex) * (92 / 100 * dx + 8 / 100 * ex)
             + (92 / 100 * dy + 8 / 100 * ey) * (92 / 100 * dy + 8 / 100 * ey))
      with ((92 / 100) * (92 / 100) * (dx * dx + dy * dy)
            + 2 * (92 / 100) * (8 / 100) * X
            + (8 / 100) * (8 / 100) * (ex * ex + ey * ey))
      by (unfold X; ring).
    rewrite <- HD, <- HE.
    assert (Hlow : 0 <= 18 / 100 * D < 92 / 100 * D - 8 / 100 * E) by lra.
    assert (Hsq : (18 / 100 * D) * (18 / 100 * D)
                  < (92 / 100 * D - 8 / 100 * E) * (92 / 100 * D - 8 / 100 * E))
      by (apply Rmult_le_0_lt_compat; lra).
    lra. }
  split; [exact Hfx |]. split; [exact Hfy |]. split.
  { apply dist_lt. rewrite Hfx, Hfy. fold dx dy. nra. }
  split; [exact Hdx' |]. split; [exact Hdy' |]. split; [exact Hiff |].
  split; [exact Hfar |]. split.
  - intros Hnoise Hrand Hgt. apply Hfar.
    pose proof (target_offset_bounds noise Hnoise hm (theta p) (rand p) t 1
                  Hrand ltac:(lra)) as [_ Hhi].
    fold tg ex ey in Hhi. rewrite DRIFT_REACH_value in Hhi.
    assert (HE' : dist tg hm <= 373 / 10).
    { apply dist_le_bound; [lra |]. fold ex ey. lra. }
    lra.
  - intros Hdot. apply Hiff.
    pose proof (Rle_0_sqr ex) as Hex. pose proof (Rle_0_sqr ey) as Hey.
    unfold Rsqr in Hex, Hey. nra.
Qed.

End IntegratorFacts.

(** A particle at (-1, 0) with home (0, 0), a third of the way into the
    exhale. *)
Lemma C5_target_and_easing_witness :
  let noise := fun _ _ _ : R => 1 / 2 in
  let p := mkParticle 0%nat 1%nat 2 PI 0 in
  let w := mkWorld [mkVec 0 0; mkVec (- 1) 0] 0%nat in
  let t := 3 in
  let exhale := 1 / 3 in
  let tri := 2 / 3 in
  let hm := deref (heap w) (home p) in
  let ps := deref (heap w) (pos p) in
  let w' := snd (update_particle noise t tri exhale p w) in
  let ang := theta p
             + noise (vx hm * DRIFT_NOISE_SCALE) (vy hm * DRIFT_NOISE_SCALE)
                     (t * (15 / 100)) * TWO_PI in
  let sp := EXHALE_SPREAD * (4 / 10 + EXHALE_JITTER * rand p) in
  let fl := flow_vector noise (vx hm) (vy hm) t in
  let tg := deref (heap w') (length (heap w) + 2)%nat in
  vx tg = vx hm + (cos ang * (sp * exhale)
                   + vx fl * (DRIFT_NOISE_STRENGTH * exhale))
  /\ vy tg = vy hm + (sin ang * (sp * exhale)
                      + vy fl * (DRIFT_NOISE_STRENGTH * exhale))
  /\ vx (deref (heap w') (pos p)) = lerp (vx ps) (vx tg) (easing exhale)
  /\ vy (deref (heap w') (pos p)) = lerp (vy ps) (vy tg) (easing exhale)
  /\ easing 1 = 8 / 100
  /\ easing 0 = 1 - INHALE_TIGHTNESS.
Proof.
  apply (C5_target_and_easing (fun _ _ _ => 1 / 2) 3 (2 / 3) (1 / 3)
           (mkParticle 0%nat 1%nat 2 PI 0) (mkWorld [mkVec 0 0; mkVec (- 1) 0] 0%nat));
    cbn [home pos heap length]; lia.
Defined.

Section DissolvedPull.

Variable noise : R -> R -> R -> R.
Hypothesis noise_range : forall x y z, 0 <= noise x y z <= 1.

(** At [exhale = 1] the target is never home: the radial drift is at least
    11.2 long and the flow push at most 0.9. *)
Lemma target_dissolved_off_home (hm : Vec) (th rd t : R) :
  0 <= rd -> target noise hm th rd t 1 <> hm.
Proof.
  intros Hrd Heq.
  assert (Hx : vx (target noise hm th rd t 1) = vx hm) by (rewrite Heq; reflexivity).
  assert (Hy : vy (target noise hm th rd t 1) = vy hm) by (rewrite Heq; reflexivity).
  unfold target, radial_drift, flow_push, flow_vector, vadd in Hx, Hy.
  cbn [vx vy] in Hx, Hy.
  set (a := drift_angle noise hm th t) in *.
  set (b := flow_angle noise (vx hm) (vy hm) t) in *.
  assert (Hm : 2 / 10 <= flow_magnitude noise (vx hm) (vy hm) t <= 1).
  { unfold flow_magnitude. apply map_range_unit_bounds; [apply noise_range | lra]. }
  set (m := flow_magnitude noise (vx hm) (vy hm) t) in *.
  assert (HS : 112 / 10 <= spread rd)
    by (unfold spread, EXHALE_SPREAD, EXHALE_JITTER; lra).
  set (S := spread rd) in *. unfold DRIFT_NOISE_STRENGTH in Hx, Hy.
  pose proof (sin2_cos2 a) as Ha. pose proof (sin2_cos2 b) as Hb.
  unfold Rsqr in Ha, Hb.
  assert (Ex : cos a * S = - (cos b * m * (9 / 10))) by lra.
  assert (Ey : sin a * S = - (sin b * m * (9 / 10))) by lra.
  assert (Esq : S * S = (m * (9 / 10)) * (m * (9 / 10))).
  { transitivity ((cos a * S) * (cos a * S) + (sin a * S) * (sin a * S)).
    - transitivity ((sin a * sin a + cos a * cos a) * (S * S)); [| ring].
      rewrite Ha. ring.
    - rewrite Ex, Ey.
      transitivity ((sin b * sin b + cos b * cos b)
                    * ((m * (9 / 10)) * (m * (9 / 10)))); [ring |].
      rewrite Hb. ring. }
  nra.
Qed.

(** Whatever the noise, [theta] and [rand]: from the position that lies
    8/92 of the target offset behind home, the step at [exhale = 1] lands
    exactly on home while the step at [exhale = 0] does not. *)
Lemma dissolved_step_can_reach_home (hm : Vec) (th rd t : R) :
  0 <= rd ->
  exists ps : Vec,
    ps <> hm
    /\ integrate noise hm ps th rd t 1 = hm
    /\ integrate noise hm ps th rd t 0 <> hm.
Proof.
  intros Hrd.
  pose proof (target_dissolved_off_home hm th rd t Hrd) as Hoff.
  set (tg := target noise hm th rd t 1) in *.
  set (ps := mkVec (vx hm - 8 / 92 * (vx tg - vx hm))
                   (vy hm - 8 / 92 * (vy tg - vy hm))).
  assert (Hps : ps <> hm).
  { intros E. apply Hoff. apply Vec_ext.
    - apply (f_equal vx) in E. unfold ps in E. cbn [vx] in E. lra.
    - apply (f_equal vy) in E. unfold ps in E. cbn [vy] in E. lra. }
  exists ps. split; [exact Hps |]. split.
  - destruct (integrate_dissolved noise hm ps th rd t) as [Hx Hy].
    fold tg in Hx, Hy. apply Vec_ext; [rewrite Hx | rewrite Hy];
      unfold ps; cbn [vx vy]; lra.
  - destruct (integrate_formed noise hm ps th rd t) as [Hx Hy].
    intros E. rewrite E in Hx, Hy. apply Hps. apply Vec_ext; lra.
Qed.

End DissolvedPull.

(** The particle of the examples: home (0, 0) at reference 0, position
    (-1, 0) at reference 1, [theta = PI], [rand = 0]; the noise source
    returns 1/2. *)
Lemma example_target_dissolved :
  target (fun _ _ _ => 1 / 2) (mkVec 0 0) PI 0 0 1 = mkVec (1174 / 100) 0.
Proof.
  unfold target, radial_drift, flow_push, flow_vector, flow_angle,
    flow_magnitude, flow_nx, flow_ny, drift_angle, spread, vadd, map_range,
    TWO_PI, EXHALE_SPREAD, EXHALE_JITTER, DRIFT_NOISE_STRENGTH.
  cbn [vx vy].
  replace (PI + 1 / 2 * (2 * PI)) with (2 * PI) by lra.
  replace ((1 / 2 - 0) / (1 - 0) * (PI - - PI) + - PI) with 0 by (field; lra).
  rewrite cos_2PI, sin_2PI, cos_0, sin_0. f_equal; field.
Qed.

Lemma C2_formed_step_closer_witness :
  let noise := fun _ _ _ : R => 1 / 2 in
  let p := mkParticle 0%nat 1%nat 2 PI 0 in
  let w := mkWorld [mkVec 0 0; mkVec (- 5) 0] 0%nat in
  let hm := deref (heap w) (home p) in
  let ps := deref (heap w) (pos p) in
  let formed := deref (heap (snd (update_particle noise 0 1 0 p w))) (pos p) in
  let dissolved :=
    deref (heap (snd (update_particle noise 0 0 1 p w))) (pos p) in
  let tg := target noise hm (theta p) (rand p) 0 1 in
  let dx := vx ps - vx hm in
  let dy := vy ps - vy hm in
  let ex := vx tg - vx hm in
  let ey := vy tg - vy hm in
  vx formed - vx hm = 18 / 100 * dx
  /\ vy formed - vy hm = 18 / 100 * dy
  /\ dist formed hm < dist ps hm
  /\ vx dissolved - vx hm = 92 / 100 * dx + 8 / 100 * ex
  /\ vy dissolved - vy hm = 92 / 100 * dy + 8 / 100 * ey
  /\ (dist formed hm < dist dissolved hm <->
      (18 / 100) * (18 / 100) * (dx * dx + dy * dy)
      < (92 / 100 * dx + 8 / 100 * ex) * (92 / 100 * dx + 8 / 100 * ex)
        + (92 / 100 * dy + 8 / 100 * ey) * (92 / 100 * dy + 8 / 100 * ey))
  /\ (8 / 74 * dist tg hm < dist ps hm -> dist formed hm < dist dissolved hm)
  /\ ((forall x y z, 0 <= noise x y z <= 1) -> 0 <= rand p <= 1 ->
      8 / 74 * (373 / 10) < dist ps hm ->
      dist formed hm < dist dissolved hm)
  /\ (0 <= dx * ex + dy * ey -> dist formed hm < dist dissolved hm).
Proof.
  apply (C2_formed_step_closer (fun _ _ _ => 1 / 2) 0
           (mkParticle 0%nat 1%nat 2 PI 0)
           (mkWorld [mkVec 0 0; mkVec (- 5) 0] 0%nat));
    cbn [home pos heap length deref nth]; try lia.
  intros H. apply (f_equal vx) in H. cbn [vx] in H. lra.
Defined.

(** C2 fails as stated: with the particle at (-1, 0), against a drift toward
    (11.74, 0), the step at [exhale = 1] ends at (0.0192, 0), nearer to home
    than the step at [exhale = 0], which ends at (-0.18, 0). *)
Lemma C2_counterexample :
  let noise := fun _ _ _ : R => 1 / 2 in
  let p := mkParticle 0%nat 1%nat 2 PI 0 in
  let w := mkWorld [mkVec 0 0; mkVec (- 1) 0] 0%nat in
  let hm := deref (heap w) (home p) in
  let ps := deref (heap w) (pos p) in
  let formed := deref (heap (snd (update_particle noise 0 1 0 p w))) (pos p) in
  let dissolved :=
    deref (heap (snd (update_particle noise 0 0 1 p w))) (pos p) in
  ps <> hm
  /\ formed = mkVec (- (18 / 100)) 0
  /\ dissolved = mkVec (192 / 10000) 0
  /\ ~ dist formed hm < dist dissolved hm.
Proof.
  cbv zeta.
  assert (Hh : (home (mkParticle 0%nat 1%nat 2 PI 0)
                < length (heap (mkWorld [mkVec 0 0; mkVec (- 1) 0] 0%nat)))%nat)
    by (cbn; lia).
  assert (Hp : (pos (mkParticle 0%nat 1%nat 2 PI 0)
                < length (heap (mkWorld [mkVec 0 0; mkVec (- 1) 0] 0%nat)))%nat)
    by (cbn; lia).
  assert (Hne : home (mkParticle 0%nat 1%nat 2 PI 0)
                <> pos (mkParticle 0%nat 1%nat 2 PI 0)) by (cbn; lia).
  destruct (update_particle_spec (fun _ _ _ => 1 / 2) 0 1 0 _ _ Hh Hp Hne)
    as (_ & _ & _ & Hf & _).
  destruct (update_particle_spec (fun _ _ _ => 1 / 2) 0 0 1 _ _ Hh Hp Hne)
    as (_ & _ & _ & Hd & _).
  cbv zeta in Hf, Hd. rewrite Hf, Hd. clear Hf Hd Hh Hp Hne.
  cbn [home pos heap deref nth theta rand].
  assert (Hformed : integrate (fun _ _ _ => 1 / 2) (mkVec 0 0) (mkVec (- 1) 0)
                      PI 0 0 0 = mkVec (- (18 / 100)) 0).
  { destruct (integrate_formed (fun _ _ _ => 1 / 2) (mkVec 0 0)
                (mkVec (- 1) 0) PI 0 0) as [Hx Hy].
    cbn [vx vy] in Hx, Hy.
    apply Vec_ext; cbn [vx vy]; lra. }
  assert (Hdis : integrate (fun _ _ _ => 1 / 2) (mkVec 0 0) (mkVec (- 1) 0)
                   PI 0 0 1 = mkVec (192 / 10000) 0).
  { destruct (integrate_dissolved (fun _ _ _ => 1 / 2) (mkVec 0 0)
                (mkVec (- 1) 0) PI 0 0) as [Hx Hy].
    rewrite example_target_dissolved in Hx, Hy. cbn [vx vy] in Hx, Hy.
    apply Vec_ext; cbn [vx vy]; lra. }
  rewrite Hformed, Hdis.
  split; [| split; [reflexivity | split; [reflexivity |]]].
  - intros H. apply (f_equal vx) in H. cbn [vx] in H. lra.
  - apply Rle_not_lt. left. apply dist_lt. cbn [vx vy]. lra.
Qed.

(** ** Flow Field *)

Section FlowFacts.

Variable noise : R -> R -> R -> R.
Hypothesis noise_range : forall x y z, 0 <= noise x y z <= 1.

(** C7: for every point and time, with a noise source that returns values in
    [[0,1]], [flowForce] takes two noise samples, the second at the point
    shifted by (999, -777), maps the first to an angle in [[-PI, PI]] and the
    second to a magnitude in [[0.2, 1]], and returns a new vector
    [(cos angle * magnitude, sin angle * magnitude)], whose length is that
    magnitude.  It changes no existing vector and draws no random number, and
    its value is determined by the two samples alone. *)
Theorem C7_flow_field (x y t : R) (w : World) :
  let nx := noise (x * (13 / 10000)) (y * (13 / 10000)) (t * (7 / 100)) in
  let ny := noise ((x + 999) * (13 / 10000)) ((y - 777) * (13 / 10000))
                  (t * (7 / 100)) in
  let ang := map_range nx 0 1 (- PI) PI in
  let magnitude := map_range ny 0 1 (2 / 10) 1 in
  let r := fst (flowForce noise x y t w) in
  let w' := snd (flowForce noise x y t w) in
  - PI <= ang <= PI
  /\ 2 / 10 <= magnitude <= 1
  /\ deref (heap w') r = mkVec (cos ang * magnitude) (sin ang * magnitude)
  /\ dist (deref (heap w') r) (mkVec 0 0) = magnitude
  /\ r = length (heap w)
  /\ (forall r', (r' < length (heap w))%nat ->
        deref (heap w') r' = deref (heap w) r')
  /\ seed w' = seed w
  /\ (forall (noise2 : R -> R -> R -> R) (w2 : World),
        noise2 (x * (13 / 10000)) (y * (13 / 10000)) (t * (7 / 100)) = nx ->
        noise2 ((x + 999) * (13 / 10000)) ((y - 777) * (13 / 10000))
               (t * (7 / 100)) = ny ->
        deref (heap (snd (flowForce noise2 x y t w2)))
              (fst (flowForce noise2 x y t w2))
        = deref (heap w') r).
Proof.
  cbv zeta.
  assert (Hang : - PI <= map_range
            (noise (x * (13 / 10000)) (y * (13 / 10000)) (t * (7 / 100)))
            0 1 (- PI) PI <= PI).
  { apply map_range_unit_bounds; [apply noise_range |].
    pose proof PI_RGT_0. lra. }
  assert (Hmag : 2 / 10 <= map_range
            (noise ((x + 999) * (13 / 10000)) ((y - 777) * (13 / 10000))
                   (t * (7 / 100))) 0 1 (2 / 10) 1 <= 1).
  { apply map_range_unit_bounds; [apply noise_range | lra]. }
  rewrite flowForce_eq. cbn [fst snd heap seed].
  rewrite deref_app_new.
  split; [exact Hang |]. split; [exact Hmag |].
  split; [reflexivity |]. split.
  - unfold dist, flow_vector, flow_angle, flow_magnitude, flow_nx, flow_ny,
      flow_s. cbn [vx vy].
    set (a := map_range _ 0 1 (- PI) PI).
    set (m := map_range _ 0 1 (2 / 10) 1) in *.
    replace ((cos a * m - 0) * (cos a * m - 0) + (sin a * m - 0) * (sin a * m - 0))
      with ((Rsqr (sin a) + Rsqr (cos a)) * (m * m))
      by (unfold Rsqr; ring).
    rewrite sin2_cos2, Rmult_1_l. apply sqrt_square. lra.
  - split; [reflexivity |]. split.
    + intros r' Hr'. apply deref_app_old. exact Hr'.
    + split; [reflexivity |].
      intros noise2 w2 H1 H2. rewrite flowForce_eq. cbn [fst snd heap].
      rewrite deref_app_new.
      unfold flow_vector, flow_angle, flow_magnitude, flow_nx, flow_ny, flow_s.
      rewrite H1, H2. reflexivity.
Qed.

End FlowFacts.

(** The flow vector at (120, 80), 3 seconds in, for a noise source that
    returns 1/2 everywhere. *)
Lemma C7_flow_field_witness :
  let noise := fun _ _ _ : R => 1 / 2 in
  let x := 120 in let y := 80 in let t := 3 in
  let w := mkWorld [] 0%nat in
  let nx := noise (x * (13 / 10000)) (y * (13 / 10000)) (t * (7 / 100)) in
  let ny := noise ((x + 999) * (13 / 10000)) ((y - 777) * (13 / 10000))
                  (t * (7 / 100)) in
  let ang := map_range nx 0 1 (- PI) PI in
  let magnitude := map_range ny 0 1 (2 / 10) 1 in
  let r := fst (flowForce noise x y t w) in
  let w' := snd (flowForce noise x y t w) in
  - PI <= ang <= PI
  /\ 2 / 10 <= magnitude <= 1
  /\ deref (heap w') r = mkVec (cos ang * magnitude) (sin ang * magnitude)
  /\ dist (deref (heap w') r) (mkVec 0 0) = magnitude
  /\ r = length (heap w)
  /\ (forall r', (r' < length (heap w))%nat ->
        deref (heap w') r' = deref (heap w) r')
  /\ seed w' = seed w
  /\ (forall (noise2 : R -> R -> R -> R) (w2 : World),
        noise2 (x * (13 / 10000)) (y * (13 / 10000)) (t * (7 / 100)) = nx ->
        noise2 ((x + 999) * (13 / 10000)) ((y - 777) * (13 / 10000))
               (t * (7 / 100)) = ny ->
        deref (heap (snd (flowForce noise2 x y t w2)))
              (fst (flowForce noise2 x y t w2))
        = deref (heap w') r).
Proof.
  apply (C7_flow_field (fun _ _ _ => 1 / 2)). intros _ _ _. lra.
Defined.

(** ** Countdown HUD *)

Lemma length_append (a b : string) :
  String.length (a ++ b) = (String.length a + String.length b)%nat.
Proof. induction a as [| c a IH]; cbn; [reflexivity | now rewrite IH]. Qed.

Lemma length_zeros (n : nat) : String.length (zeros n) = n.
Proof. induction n as [| n IH]; cbn; [reflexivity | now rewrite IH]. Qed.

Lemma nf_length (z : Z) (left : nat) : (left <= String.length (nf z left))%nat.
Proof. unfold nf. rewrite length_append, length_zeros. lia. Qed.

Lemma floor_IZR (z : Z) : floor (IZR z) = z.
Proof. apply ZfloorZ. Qed.

Lemma floor_nonneg (r : R) : 0 <= r -> (0 <= floor r)%Z.
Proof. intros H. apply (Zfloor_lub 0). exact H. Qed.

Lemma floor_lt (r : R) (z : Z) : r < IZR z -> (floor r < z)%Z.
Proof.
  intros H. pose proof (Zfloor_bound r) as [Hlo _]. unfold floor.
  apply lt_IZR. lra.
Qed.

Lemma drawCountdown_text_7 (w h : nat) :
  hud_text (drawCountdown 7 w h) = "00:07"%string.
Proof.
  unfold drawCountdown. cbn [hud_text].
  replace (floor (7 / 60)) with 0%Z
    by (symmetry; apply (Zfloor_eq 0); lra).
  rewrite fmod_small by lra. rewrite (floor_IZR 7). reflexivity.
Qed.

Lemma drawCountdown_text_0 (w h : nat) :
  hud_text (drawCountdown 0 w h) = "00:00"%string.
Proof.
  unfold drawCountdown. cbn [hud_text].
  replace (0 / 60) with 0 by lra.
  rewrite fmod_small by lra. rewrite (floor_IZR 0). reflexivity.
Qed.

(** ** The frame callback *)

Lemma Q2R_inject_Z (z : Z) : Q2R (inject_Z z) = IZR z.
Proof. unfold Q2R, inject_Z. cbn [Qnum Qden]. field. Qed.

Section DrawFacts.

Variable rnd : nat -> R.
Variable noise : R -> R -> R -> R.
Variable rasterize : string -> nat -> nat -> list Z.

Lemma buildTextParticles_fields (s : Sketch) :
  let s' := buildTextParticles rnd rasterize s in
  config s' = config s /\ width s' = width s /\ height s' = height s
  /\ startMillis s' = startMillis s
  /\ lastBuildKey s'
     = buildKey (DISPLAY_TEXT (config s)) (width s) (height s)
  /\ builds s' = S (builds s).
Proof.
  unfold buildTextParticles.
  destruct (sampleParticles rnd _ _ _ _) as [ps w'].
  cbn [config width height startMillis lastBuildKey builds].
  repeat split; reflexivity.
Qed.

(** What every drawn circle has, whatever the store holds. *)
Lemma update_particle_circle (t tri exhale : R) (p : Particle) (w : World) :
  let c := fst (update_particle noise t tri exhale p w) in
  diameter c = size p /\ gray c = FG /\ opacity c = alpha tri.
Proof.
  unfold update_particle, bind.
  repeat match goal with
         | |- context [let (_, _) := ?e in _] => destruct e
         end.
  unfold ret. cbn [fst diameter gray opacity]. repeat split; reflexivity.
Qed.

Lemma update_all_circles (t tri exhale : R) (ps : list Particle) (w : World) :
  Forall (fun c => gray c = FG /\ opacity c = alpha tri)
         (fst (update_all noise t tri exhale ps w))
  /\ map diameter (fst (update_all noise t tri exhale ps w)) = map size ps.
Proof.
  revert w. induction ps as [| p ps IH]; intros w.
  - unfold update_all, ret. cbn [fst map]. split; constructor.
  - cbn [update_all]. unfold bind.
    pose proof (update_particle_circle t tri exhale p w) as Hc.
    destruct (update_particle noise t tri exhale p w) as [c w1].
    cbn [fst] in Hc. destruct Hc as (Hd & Hg & Ho).
    specialize (IH w1).
    destruct (update_all noise t tri exhale ps w1) as [cs w2].
    cbn [fst] in IH. destruct IH as [IH1 IH2].
    unfold ret. cbn [fst map]. split.
    + constructor; [split; assumption | exact IH1].
    + rewrite Hd, IH2. reflexivity.
Qed.

Lemma alpha_range (tri : R) : 0 <= tri <= 1 -> 200 <= alpha tri <= 255.
Proof. unfold alpha. intros [H0 H1]. split; lra. Qed.

(** The loop draws one circle for each particle, in order, whatever the
    store holds. *)
Lemma update_all_each (t tri exhale : R) (ps : list Particle) (w : World) :
  Forall2 (fun p c => diameter c = size p /\ gray c = FG
                      /\ opacity c = alpha tri)
          ps (fst (update_all noise t tri exhale ps w)).
Proof.
  revert w. induction ps as [| p ps IH]; intros w.
  - unfold update_all, ret. cbn [fst]. constructor.
  - cbn [update_all]. unfold bind.
    pose proof (update_particle_circle t tri exhale p w) as Hc.
    destruct (update_particle noise t tri exhale p w) as [c w1].
    cbn [fst] in Hc. specialize (IH w1).
    destruct (update_all noise t tri exhale ps w1) as [cs w2].
    cbn [fst] in IH. unfold ret. cbn [fst].
    constructor; [exact Hc | exact IH].
Qed.

(** C10: every frame draws exactly one circle for each particle of its
    particle set (the one [draw] rebuilt when the build key was stale, the
    one it found otherwise), in order, with the particle's size as diameter,
    in white, with fill opacity [200 + 55 * tri], where [tri] is the Breath
    Clock's triangle value of that frame; this lies in [[200, 255]] for [tri]
    in [[0,1]], so no particle is drawn below opacity 200, also at full
    dissolve ([tri = 0]). *)
Theorem C10_particle_opacity (ms ms' : R) (s : Sketch)
    (Hms : 0 <= ms) (Hb : 0 < Q2R (BREATH_SECONDS (config s))) :
  let tri := Breath.tri (Q2R (BREATH_SECONDS (config s))) (ms / 1000) in
  let s' := fst (draw rnd noise rasterize ms ms' s) in
  let fr := snd (draw rnd noise rasterize ms ms' s) in
  Forall2 (fun p c =>
             diameter c = size p /\ gray c = 255
             /\ opacity c = 200 + 55 * tri /\ 200 <= opacity c <= 255)
          (particles s') (circles fr)
  /\ length (circles fr) = length (particles s')
  /\ (buildKey (DISPLAY_TEXT (config s)) (width s) (height s) = lastBuildKey s ->
      particles s' = particles s)
  /\ (forall tr, 0 <= tr <= 1 -> 200 <= 200 + 55 * tr <= 255)
  /\ 200 + 55 * 0 = 200.
Proof.
  cbv zeta.
  assert (Hrange : forall tr, 0 <= tr <= 1 -> 200 <= 200 + 55 * tr <= 255)
    by (intros tr [H0 H1]; split; lra).
  assert (Hall :
    Forall2 (fun p c =>
               diameter c = size p /\ gray c = 255
               /\ opacity c
                  = 200 + 55 * Breath.tri (Q2R (BREATH_SECONDS (config s)))
                                          (ms / 1000)
               /\ 200 <= opacity c <= 255)
            (particles (fst (draw rnd noise rasterize ms ms' s)))
            (circles (snd (draw rnd noise rasterize ms ms' s)))
    /\ (buildKey (DISPLAY_TEXT (config s)) (width s) (height s)
        = lastBuildKey s ->
        particles (fst (draw rnd noise rasterize ms ms' s)) = particles s)).
  { unfold draw.
    destruct (String.eqb_spec
                (buildKey (DISPLAY_TEXT (config s)) (width s) (height s))
                (lastBuildKey s)) as [Ek | Ek].
    - pose proof (update_all_each (ms / 1000)
                    (Breath.tri (Q2R (BREATH_SECONDS (config s))) (ms / 1000))
                    (Breath.exhale (Q2R (BREATH_SECONDS (config s)))
                                   (ms / 1000))
                    (particles s) (world s)) as Hall.
      destruct (update_all noise _ _ _ _ _) as [cs w'].
      cbn [fst snd circles particles] in *. split; [| reflexivity].
      eapply Forall2_impl; [| exact Hall].
      intros p c (Hd & Hg & Ho). rewrite Ho. unfold alpha.
      split; [exact Hd |]. split; [exact Hg |]. split; [reflexivity |].
      apply Hrange. apply tri_range; [exact Hb |].
      apply Rmult_le_pos; [exact Hms | lra].
    - set (s1 := buildTextParticles rnd rasterize s).
      assert (Hcfg : config s1 = config s) by apply buildTextParticles_fields.
      rewrite Hcfg.
      pose proof (update_all_each (ms / 1000)
                    (Breath.tri (Q2R (BREATH_SECONDS (config s))) (ms / 1000))
                    (Breath.exhale (Q2R (BREATH_SECONDS (config s)))
                                   (ms / 1000))
                    (particles s1) (world s1)) as Hall.
      destruct (update_all noise _ _ _ _ _) as [cs w'].
      cbn [fst snd circles particles] in *. split; [| contradiction].
      eapply Forall2_impl; [| exact Hall].
      intros p c (Hd & Hg & Ho). rewrite Ho. unfold alpha.
      split; [exact Hd |]. split; [exact Hg |]. split; [reflexivity |].
      apply Hrange. apply tri_range; [exact Hb |].
      apply Rmult_le_pos; [exact Hms | lra]. }
  destruct Hall as [Hall Hkeep].
  split; [exact Hall |].
  split; [symmetry; apply (Forall2_length Hall) |].
  split; [exact Hkeep |]. split; [exact Hrange | lra].
Qed.

Lemma draw_hud (ms ms' : R) (s : Sketch) :
  hud (snd (draw rnd noise rasterize ms ms' s))
  = countdown (RUN_SECONDS (config s)) ((ms' - startMillis s) / 1000)
              (width s) (height s).
Proof.
  unfold draw.
  set (s1 := if String.eqb _ _ then s else buildTextParticles rnd rasterize s).
  assert (Hs1 : config s1 = config s /\ width s1 = width s
                /\ height s1 = height s /\ startMillis s1 = startMillis s).
  { unfold s1. destruct (String.eqb _ _); [repeat split; reflexivity |].
    pose proof (buildTextParticles_fields s) as H. cbv zeta in H. tauto. }
  destruct Hs1 as (-> & -> & -> & ->).
  destruct (update_all noise _ _ _ _ _) as [cs w'].
  reflexivity.
Qed.

End DrawFacts.

(** C4: when a run duration is configured, the countdown shows
    [max(0, duration - elapsed)] seconds as minutes and seconds, each
    zero-padded to two digits, at the fixed opacity [HUD_FADE]; with
    duration 10 and elapsed 3 the text is "00:07", for every elapsed time of
    10 or more it is "00:00", and the remaining time is never negative; when
    no duration is configured [draw] draws no countdown. *)
Theorem C4_countdown :
  (forall rnd noise rasterize ms ms' s,
      hud (snd (draw rnd noise rasterize ms ms' s))
      = match RUN_SECONDS (config s) with
        | Some run =>
            Some (drawCountdown
                    (Rmax 0 (Q2R run - (ms' - startMillis s) / 1000))
                    (width s) (height s))
        | None => None
        end)
  /\ (forall run elapsed, 0 <= Rmax 0 (Q2R run - elapsed))
  /\ (forall remaining w h, 0 <= remaining ->
        let mm := floor (remaining / 60) in
        let ss := floor (fmod remaining 60) in
        hud_text (drawCountdown remaining w h)
        = (nf mm 2 ++ ":" ++ nf ss 2)%string
        /\ (0 <= mm)%Z /\ (0 <= ss < 60)%Z
        /\ (2 <= String.length (nf mm 2))%nat
        /\ (2 <= String.length (nf ss 2))%nat
        /\ hud_opacity (drawCountdown remaining w h) = HUD_FADE)
  /\ (forall w h,
        option_map hud_text (countdown (Some 10%Q) 3 w h)
        = Some "00:07"%string)
  /\ (forall elapsed w h, 10 <= elapsed ->
        option_map hud_text (countdown (Some 10%Q) elapsed w h)
        = Some "00:00"%string)
  /\ (forall elapsed w h, countdown None elapsed w h = None).
Proof.
  assert (H10 : Q2R 10 = 10)
    by (change 10%Q with (inject_Z 10); apply Q2R_inject_Z).
  split; [| split; [| split; [| split; [| split]]]].
  - intros rnd noise rasterize ms ms' s. rewrite draw_hud.
    unfold countdown. reflexivity.
  - intros run elapsed. apply Rmax_l.
  - intros remaining w h Hrem. cbv zeta.
    split; [reflexivity |]. split.
    { apply floor_nonneg. apply Rmult_le_pos; lra. }
    pose proof (fmod_range remaining 60 Hrem ltac:(lra)) as [Hlo Hhi].
    split.
    { split; [apply floor_nonneg; exact Hlo | apply floor_lt; exact Hhi]. }
    split; [apply nf_length |]. split; [apply nf_length | reflexivity].
  - intros w h. unfold countdown, option_map. rewrite H10.
    replace (Rmax 0 (10 - 3)) with 7 by (rewrite Rmax_right; lra).
    rewrite drawCountdown_text_7. reflexivity.
  - intros elapsed w h He. unfold countdown, option_map. rewrite H10.
    rewrite Rmax_left by lra. rewrite drawCountdown_text_0. reflexivity.
  - intros elapsed w h. reflexivity.
Qed.

(** ** Decimal strings and the parsers *)

(** The parsers on a few strings. *)
Example parseInt_examples :
  parseInt "12.5" = Finite 12%Q
  /\ parseInt "  -7 days" = Finite (-7)%Q
  /\ parseInt "abc" = NaN
  /\ parseInt "" = NaN.
Proof. vm_compute. repeat split; reflexivity. Qed.

Example parseFloat_examples :
  parseFloat "8" = Finite 8%Q
  /\ parseFloat ".75e1x" = Finite (15 # 2)%Q
  /\ parseFloat "5.e-1" = Finite (1 # 2)%Q
  /\ parseFloat "1e" = Finite 1%Q
  /\ parseFloat "." = NaN
  /\ parseFloat "-Infinityx" = Infinity true
  /\ parseFloat "1e400" = Infinity false.
Proof. vm_compute. repeat split; reflexivity. Qed.

Example trim_example : trim "  a b  " = "a b"%string.
Proof. reflexivity. Qed.

Example nf_examples :
  nf 7 2 = "07"%string /\ nf 0 2 = "00"%string /\ nf 123 2 = "123"%string.
Proof. repeat split; reflexivity. Qed.

Example getParams_example :
  getParams (Some " 7 "%string) (Some "12.5"%string) (Some "0.3"%string)
            default_config
  = {| DISPLAY_TEXT := "7"; RUN_SECONDS := Some 12%Q; BREATH_SECONDS := 8%Q |}.
Proof. vm_compute. reflexivity. Qed.

Lemma isDigit_not_space (c : ascii) : isDigit c = true -> isWhiteSpace c = false.
Proof.
  destruct c as [[] [] [] [] [] [] [] []]; vm_compute; congruence.
Qed.

Lemma isDigit_not_sign (c : ascii) :
  isDigit c = true -> c <> "-"%char /\ c <> "+"%char.
Proof.
  destruct c as [[] [] [] [] [] [] [] []]; vm_compute; intros H; split;
    congruence.
Qed.

Lemma isDigit_not_I (c : ascii) : isDigit c = true -> c <> "I"%char.
Proof.
  destruct c as [[] [] [] [] [] [] [] []]; vm_compute; congruence.
Qed.

Lemma string_of_uint_digits (d : Decimal.uint) :
  all_digits (NilEmpty.string_of_uint d) = true.
Proof. induction d; cbn; auto. Qed.

Lemma String_of_nat_digits (n : nat) : all_digits (String_of_nat n) = true.
Proof. apply string_of_uint_digits. Qed.

Lemma String_of_nat_nonempty (n : nat) : String_of_nat n <> EmptyString.
Proof.
  unfold String_of_nat. intros H.
  assert (Hnil : Nat.to_uint n = Decimal.Nil)
    by (destruct (Nat.to_uint n); try discriminate H; reflexivity).
  pose proof (Unsigned.of_to n) as Hn. rewrite Hnil in Hn. cbn in Hn.
  subst n. discriminate Hnil.
Qed.

Lemma String_of_nat_inj (n m : nat) : String_of_nat n = String_of_nat m -> n = m.
Proof.
  unfold String_of_nat. intros H.
  apply Unsigned.to_uint_inj.
  pose proof (NilEmpty.usu (Nat.to_uint n)) as Hn.
  pose proof (NilEmpty.usu (Nat.to_uint m)) as Hm.
  rewrite H in Hn. congruence.
Qed.

Lemma span_digits_app (ds rest : string) :
  all_digits ds = true -> starts_with_digit rest = false ->
  span_digits (ds ++ rest) = (ds, rest).
Proof.
  intros Hds Hrest. induction ds as [| c ds IH]; cbn in *.
  - destruct rest as [| c r]; [reflexivity |].
    cbn in Hrest. cbn. rewrite Hrest. reflexivity.
  - apply andb_prop in Hds as [Hc Hds]. rewrite Hc, (IH Hds). reflexivity.
Qed.

Lemma digits_value_acc_uint (d : Decimal.uint) (acc : nat) :
  digits_value_acc (Z.of_nat acc) (NilEmpty.string_of_uint d)
  = Z.of_nat (Nat.of_uint_acc d acc).
Proof.
  revert acc. induction d; intros acc; cbn [NilEmpty.string_of_uint
    digits_value_acc Nat.of_uint_acc]; [reflexivity | ..];
    rewrite <- IHd; f_equal; rewrite Nat.tail_mul_spec;
      unfold digit_value; cbn [nat_of_ascii]; vm_compute Z.of_nat at 2; lia.
Qed.

Lemma digits_value_String_of_nat (n : nat) :
  digits_value (String_of_nat n) = Z.of_nat n.
Proof.
  unfold digits_value, String_of_nat.
  pose proof (digits_value_acc_uint (Nat.to_uint n) 0) as H.
  change (Z.of_nat 0) with 0%Z in H. rewrite H.
  change (Nat.of_uint_acc (Nat.to_uint n) 0) with (Nat.of_uint (Nat.to_uint n)).
  rewrite Unsigned.of_to. reflexivity.
Qed.

Lemma append_nil (s : string) : (s ++ "")%string = s.
Proof. induction s as [| c s IH]; cbn; [reflexivity | now rewrite IH]. Qed.

Lemma span_digits_all (ds : string) :
  all_digits ds = true -> span_digits ds = (ds, EmptyString).
Proof.
  intros H. rewrite <- (append_nil ds) at 1.
  apply span_digits_app; [exact H | reflexivity].
Qed.

Lemma strip_sign_digit (c : ascii) (r : string) :
  isDigit c = true -> strip_sign (String c r) = (false, String c r).
Proof.
  destruct c as [[] [] [] [] [] [] [] []]; vm_compute; congruence.
Qed.

Lemma prefix_Infinity_digit (c : ascii) (r : string) :
  isDigit c = true -> String.prefix "Infinity" (String c r) = false.
Proof.
  destruct c as [[] [] [] [] [] [] [] []]; intros H; try reflexivity;
    vm_compute in H; discriminate H.
Qed.

Lemma Qred_inject_Z (z : Z) : Qred (inject_Z z) = inject_Z z.
Proof.
  unfold Qred, inject_Z.
  pose proof (Z.ggcd_gcd z 1) as Hg.
  pose proof (Z.ggcd_correct_divisors z 1) as Hd.
  destruct (Z.ggcd z 1) as [g [aa bb]]. cbn [fst snd] in *.
  rewrite Z.gcd_1_r in Hg. subst g. destruct Hd as [Ha Hb].
  replace aa with z by lia. replace bb with 1%Z by lia. reflexivity.
Qed.

Lemma Qltb_lt (a b : Q) : Qltb a b = true <-> (a < b)%Q.
Proof.
  unfold Qltb. rewrite negb_true_iff, <- not_true_iff_false, Qle_bool_iff.
  split; [apply Qnot_le_lt | apply Qlt_not_le].
Qed.

(** ** Rounding to a double *)

Section Rounding.

Local Open Scope Q_scope.

(** *** Powers of two *)

Lemma pow2_pos (e : Z) : 0 < 2 ^ e.
Proof. apply Qpower_0_lt. reflexivity. Qed.

Lemma pow2_add (a b : Z) : 2 ^ (a + b) == 2 ^ a * 2 ^ b.
Proof. apply Qpower_plus. discriminate. Qed.

Lemma pow2_le (a b : Z) : (a <= b)%Z -> 2 ^ a <= 2 ^ b.
Proof. intros H. apply Qpower_le_compat_l; [exact H | discriminate]. Qed.

Lemma pow2_lt (a b : Z) : (a < b)%Z -> 2 ^ a < 2 ^ b.
Proof. intros H. apply Qpower_lt_compat_l; [exact H | reflexivity]. Qed.

Lemma pow2_lt_inv (a b : Z) : 2 ^ a < 2 ^ b -> (a < b)%Z.
Proof. intros H. apply (Qpower_lt_compat_l_inv 2); [exact H | reflexivity]. Qed.

Lemma pow2_Z (a : Z) : (0 <= a)%Z -> inject_Z (2 ^ a) == 2 ^ a.
Proof. intros H. apply (Zpower_Qpower 2 a H). Qed.

Lemma div_pow2 (q : Q) (a : Z) : q / 2 ^ a == q * 2 ^ (- a).
Proof. unfold Qdiv. rewrite Qpower_opp. reflexivity. Qed.

(** *** The binade of a rational *)

Lemma Qabs_num_den (q : Q) :
  Qabs q * inject_Z (Zpos (Qden q)) == inject_Z (Z.abs (Qnum q)).
Proof.
  destruct q as [n d]. unfold Qabs, Qeq, Qmult, inject_Z. cbn [Qnum Qden].
  rewrite Pos.mul_1_r. ring.
Qed.

Lemma binade_spec (q : Q) :
  ~ q == 0 -> 2 ^ binade q <= Qabs q < 2 ^ (binade q + 1).
Proof.
  intros Hq.
  pose proof (Qabs_num_den q) as Hnd.
  set (n := Z.abs (Qnum q)) in *. set (d := Zpos (Qden q)) in *.
  assert (Hn : (0 < n)%Z).
  { unfold n. apply Z.abs_pos. intros H0. apply Hq.
    unfold Qeq. cbn [Qnum Qden]. rewrite H0. reflexivity. }
  assert (Hd : (0 < d)%Z) by (unfold d; reflexivity).
  pose proof (Z.log2_spec n Hn) as [Hn1 Hn2].
  pose proof (Z.log2_spec d Hd) as [Hd1 Hd2].
  pose proof (Z.log2_nonneg n) as Ha0. pose proof (Z.log2_nonneg d) as Hb0.
  set (a := Z.log2 n) in *. set (b := Z.log2 d) in *.
  assert (Qn1 : 2 ^ a <= inject_Z n)
    by (rewrite <- pow2_Z by exact Ha0; rewrite <- Zle_Qle; exact Hn1).
  assert (Qn2 : inject_Z n < 2 ^ (a + 1)).
  { rewrite <- pow2_Z by lia. rewrite <- Zlt_Qlt.
    replace (a + 1)%Z with (Z.succ a) by lia. exact Hn2. }
  assert (Qd1 : 2 ^ b <= inject_Z d)
    by (rewrite <- pow2_Z by exact Hb0; rewrite <- Zle_Qle; exact Hd1).
  assert (Qd2 : inject_Z d < 2 ^ (b + 1)).
  { rewrite <- pow2_Z by lia. rewrite <- Zlt_Qlt.
    replace (b + 1)%Z with (Z.succ b) by lia. exact Hd2. }
  pose proof (Qabs_nonneg q) as HA.
  set (A := Qabs q) in *.
  pose proof (pow2_pos (a - b - 1)) as P1. pose proof (pow2_pos (a - b)) as P2.
  pose proof (pow2_pos (a - b + 1)) as P3. pose proof (pow2_pos b) as Pb.
  assert (E1 : 2 ^ a == 2 ^ (a - b - 1) * 2 ^ (b + 1))
    by (rewrite <- pow2_add; replace (a - b - 1 + (b + 1))%Z with a by lia;
        reflexivity).
  assert (E3 : 2 ^ (a + 1) == 2 ^ (a - b + 1) * 2 ^ b)
    by (rewrite <- pow2_add; replace (a - b + 1 + b)%Z with (a + 1)%Z by lia;
        reflexivity).
  assert (Hd0 : 0 < inject_Z d) by (change 0 with (inject_Z 0); rewrite <- Zlt_Qlt; exact Hd).
  assert (Hlo : 2 ^ (a - b - 1) < A).
  { apply Qnot_le_lt. intros Hle.
    assert (A * inject_Z d <= 2 ^ (a - b - 1) * inject_Z d)
      by (apply Qmult_le_compat_r; [exact Hle | apply Qlt_le_weak; exact Hd0]).
    assert (2 ^ (a - b - 1) * inject_Z d < 2 ^ (a - b - 1) * 2 ^ (b + 1))
      by (apply Qmult_lt_l; assumption).
    Lqa.lra. }
  assert (Hhi : A < 2 ^ (a - b + 1)).
  { apply Qnot_le_lt. intros Hle.
    assert (2 ^ (a - b + 1) * inject_Z d <= A * inject_Z d)
      by (apply Qmult_le_compat_r; [exact Hle | apply Qlt_le_weak; exact Hd0]).
    assert (2 ^ (a - b + 1) * 2 ^ b <= 2 ^ (a - b + 1) * inject_Z d)
      by (apply Qmult_le_l; assumption).
    Lqa.lra. }
  unfold binade. fold n d a b A.
  destruct (Qle_bool (2 ^ (a - b)) A) eqn:E.
  - apply Qle_bool_iff in E. split; assumption.
  - assert (Hlt : A < 2 ^ (a - b)).
    { apply Qnot_le_lt. intros H. apply Qle_bool_iff in H. congruence. }
    replace (a - b - 1 + 1)%Z with (a - b)%Z by lia.
    split; [apply Qlt_le_weak; exact Hlo | exact Hlt].
Qed.

Lemma binade_unique (q : Q) (k : Z) :
  2 ^ k <= Qabs q < 2 ^ (k + 1) -> binade q = k.
Proof.
  intros [Hlo Hhi].
  assert (Hq : ~ q == 0).
  { intros H0. pose proof (pow2_pos k) as Hp.
    assert (Qabs q == 0) by (rewrite H0; reflexivity). Lqa.lra. }
  destruct (binade_spec q Hq) as [Blo Bhi].
  assert (H1 : (k < binade q + 1)%Z)
    by (apply pow2_lt_inv; eapply Qle_lt_trans; eassumption).
  assert (H2 : (binade q < k + 1)%Z)
    by (apply pow2_lt_inv; eapply Qle_lt_trans; eassumption).
  lia.
Qed.

Lemma binade_comp (q q' : Q) : q == q' -> ~ q == 0 -> binade q = binade q'.
Proof.
  intros E Hq. symmetry. apply binade_unique. rewrite <- E.
  apply binade_spec. exact Hq.
Qed.

(** *** Rounding to the nearest integer, halves to even *)

Lemma rhe_cases (x : Q) :
  let f := Qfloor x in
  inject_Z f <= x < inject_Z f + 1
  /\ (x - inject_Z f < 1 # 2 /\ round_half_even x = f
      \/ x - inject_Z f == 1 # 2
         /\ round_half_even x = (if Z.even f then f else f + 1)%Z
      \/ 1 # 2 < x - inject_Z f /\ round_half_even x = (f + 1)%Z).
Proof.
  cbv zeta. pose proof (Qfloor_le x) as Hlo. pose proof (Qlt_floor x) as Hhi.
  rewrite inject_Z_plus in Hhi. change (inject_Z 1) with 1 in Hhi.
  split; [split; assumption |].
  unfold round_half_even.
  destruct (Qcompare (x - inject_Z (Qfloor x)) (1 # 2)) eqn:E.
  - right. left. split; [apply Qeq_alt; exact E | reflexivity].
  - left. split; [apply Qlt_alt; exact E | reflexivity].
  - right. right. split; [apply Qgt_alt; exact E | reflexivity].
Qed.

Lemma rhe_bounds (x : Q) :
  inject_Z (round_half_even x) - (1 # 2) <= x
  /\ x <= inject_Z (round_half_even x) + (1 # 2).
Proof.
  destruct (rhe_cases x) as [[Hlo Hhi] [[H ->] | [[H ->] | [H ->]]]].
  - split; Lqa.lra.
  - destruct (Z.even (Qfloor x)).
    + split; Lqa.lra.
    + rewrite inject_Z_plus. change (inject_Z 1) with 1. split; Lqa.lra.
  - rewrite inject_Z_plus. change (inject_Z 1) with 1. split; Lqa.lra.
Qed.

Lemma rhe_comp (x y : Q) : x == y -> round_half_even x = round_half_even y.
Proof.
  intros E. unfold round_half_even. rewrite (Qfloor_comp _ _ E).
  assert (E' : x - inject_Z (Qfloor y) == y - inject_Z (Qfloor y))
    by (rewrite E; reflexivity).
  rewrite (Qcompare_comp _ _ E' _ _ (Qeq_refl (1 # 2))). reflexivity.
Qed.

Lemma rhe_ge_int (x : Q) (k : Z) : inject_Z k <= x -> (k <= round_half_even x)%Z.
Proof.
  intros H. destruct (rhe_bounds x) as [_ Hhi].
  assert (Hlt : inject_Z (k - 1) < inject_Z (round_half_even x)).
  { unfold Zminus. rewrite inject_Z_plus. change (inject_Z (- (1))) with (- (1)).
    Lqa.lra. }
  rewrite <- Zlt_Qlt in Hlt. lia.
Qed.

Lemma rhe_le_int (x : Q) (k : Z) : x <= inject_Z k -> (round_half_even x <= k)%Z.
Proof.
  intros H. destruct (rhe_bounds x) as [Hlo _].
  assert (Hlt : inject_Z (round_half_even x) < inject_Z (k + 1)).
  { rewrite inject_Z_plus. change (inject_Z 1) with 1. Lqa.lra. }
  rewrite <- Zlt_Qlt in Hlt. lia.
Qed.

Lemma rhe_Z (z : Z) : round_half_even (inject_Z z) = z.
Proof.
  pose proof (rhe_ge_int (inject_Z z) z (Qle_refl _)).
  pose proof (rhe_le_int (inject_Z z) z (Qle_refl _)). lia.
Qed.

Lemma rhe_gt_half (x : Q) (k : Z) :
  inject_Z k + (1 # 2) < x -> (k + 1 <= round_half_even x)%Z.
Proof.
  intros H. destruct (rhe_bounds x) as [_ Hhi].
  assert (Hlt : inject_Z k < inject_Z (round_half_even x)) by Lqa.lra.
  rewrite <- Zlt_Qlt in Hlt. lia.
Qed.

Lemma rhe_tie_even (x : Q) (k : Z) :
  Z.even k = true -> inject_Z k <= x <= inject_Z k + (1 # 2) ->
  round_half_even x = k.
Proof.
  intros Hk [Hlo Hhi].
  assert (Hf : Qfloor x = k).
  { pose proof (Qfloor_le x) as H1. pose proof (Qlt_floor x) as H2.
    assert (L1 : inject_Z k < inject_Z (Qfloor x + 1))
      by (eapply Qle_lt_trans; eassumption).
    assert (L2 : inject_Z (Qfloor x) < inject_Z (k + 1)).
    { rewrite inject_Z_plus. change (inject_Z 1) with 1. Lqa.lra. }
    rewrite <- Zlt_Qlt in L1, L2. lia. }
  destruct (rhe_cases x) as [_ [[H ->] | [[H ->] | [H _]]]];
    rewrite ?Hf, ?Hk in *; try reflexivity.
  exfalso. Lqa.lra.
Qed.

(** *** Rounding to a double *)

Lemma ulp_pos (q : Q) : 0 < ulp q.
Proof. apply pow2_pos. Qed.

Lemma round_double_0 (q : Q) : q == 0 -> round_double q = 0.
Proof.
  intros H. unfold round_double. apply Qeq_bool_iff in H. rewrite H. reflexivity.
Qed.

Lemma round_double_eq (q : Q) :
  ~ q == 0 ->
  round_double q = inject_Z (round_half_even (q / ulp q)) * ulp q.
Proof.
  intros H. unfold round_double.
  destruct (Qeq_bool q 0) eqn:E; [apply Qeq_bool_iff in E; contradiction |].
  reflexivity.
Qed.

(** The rounded value is within half a unit in the last place. *)
Lemma round_double_error (q : Q) :
  Qabs (round_double q - q) <= (1 # 2) * ulp q.
Proof.
  pose proof (ulp_pos q) as Hu.
  destruct (Qeq_dec q 0) as [H0 | H0].
  - rewrite (round_double_0 q H0).
    apply Qabs_Qle_condition. split; Lqa.lra.
  - rewrite (round_double_eq q H0).
    destruct (rhe_bounds (q / ulp q)) as [Hlo Hhi].
    set (m := inject_Z (round_half_even (q / ulp q))) in *.
    assert (E : q == q / ulp q * ulp q) by (field; Lqa.lra).
    set (x := q / ulp q) in *.
    apply Qabs_Qle_condition.
    assert (H1 : (m - (1 # 2)) * ulp q <= x * ulp q)
      by (apply Qmult_le_compat_r; [exact Hlo | Lqa.lra]).
    assert (H2 : x * ulp q <= (m + (1 # 2)) * ulp q)
      by (apply Qmult_le_compat_r; [exact Hhi | Lqa.lra]).
    split; Lqa.lra.
Qed.

(** A value that is a whole number of units in the last place is its own
    rounding. *)
Lemma round_double_exact (q : Q) (m : Z) :
  q / ulp q == inject_Z m -> round_double q == q.
Proof.
  intros Hm. pose proof (ulp_pos q) as Hu.
  destruct (Qeq_dec q 0) as [H0 | H0].
  - rewrite (round_double_0 q H0). symmetry. exact H0.
  - rewrite (round_double_eq q H0). rewrite (rhe_comp _ _ Hm), rhe_Z.
    rewrite <- Hm. field. Lqa.lra.
Qed.

Lemma round_double_nonpos (q : Q) : q <= 0 -> round_double q <= 0.
Proof.
  intros Hq. pose proof (ulp_pos q) as Hu.
  destruct (Qeq_dec q 0) as [H0 | H0].
  - rewrite (round_double_0 q H0). apply Qle_refl.
  - rewrite (round_double_eq q H0).
    assert (Hx : q / ulp q <= inject_Z 0).
    { change (inject_Z 0) with 0. apply Qle_shift_div_r; [exact Hu |]. Lqa.lra. }
    apply rhe_le_int in Hx. rewrite Zle_Qle in Hx. change (inject_Z 0) with 0 in Hx.
    set (m := inject_Z (round_half_even (q / ulp q))) in *.
    assert (m * ulp q <= 0 * ulp q)
      by (apply Qmult_le_compat_r; [exact Hx | Lqa.lra]).
    Lqa.lra.
Qed.

(** A positive value in the binade [e], at or above the smallest normal
    binade, rounds into [[2^e, 2^(e+1)]]. *)
Lemma round_double_binade (q : Q) (e : Z) :
  (- 1022 <= e)%Z -> 2 ^ e <= q < 2 ^ (e + 1) ->
  round_double q == inject_Z (round_half_even (q * 2 ^ (52 - e))) * 2 ^ (e - 52)
  /\ 2 ^ e <= round_double q <= 2 ^ (e + 1).
Proof.
  intros He [Hlo Hhi]. pose proof (pow2_pos e) as Pe.
  assert (Hq0 : 0 < q) by Lqa.lra.
  assert (Hne : ~ q == 0) by (intros H; rewrite H in Hq0; discriminate).
  assert (Habs : Qabs q == q) by (apply Qabs_pos; Lqa.lra).
  assert (Hb : binade q = e) by (apply binade_unique; rewrite Habs; split; assumption).
  assert (Hu : ulp q = 2 ^ (e - 52)).
  { unfold ulp. rewrite Hb. rewrite Z.max_l by lia. reflexivity. }
  rewrite (round_double_eq q Hne), Hu.
  pose proof (pow2_pos (e - 52)) as Pu. pose proof (pow2_pos (52 - e)) as Pv.
  assert (Euv : 2 ^ (e - 52) * 2 ^ (52 - e) == 1).
  { rewrite <- pow2_add. replace (e - 52 + (52 - e))%Z with 0%Z by lia.
    reflexivity. }
  assert (Ex : q / 2 ^ (e - 52) == q * 2 ^ (52 - e)).
  { rewrite div_pow2. replace (- (e - 52))%Z with (52 - e)%Z by lia.
    reflexivity. }
  rewrite (rhe_comp _ _ Ex).
  split; [reflexivity |].
  set (x := q * 2 ^ (52 - e)) in *.
  assert (E52 : 2 ^ e * 2 ^ (52 - e) == inject_Z (2 ^ 52)).
  { rewrite <- pow2_add. replace (e + (52 - e))%Z with 52%Z by lia. reflexivity. }
  assert (E53 : 2 ^ (e + 1) * 2 ^ (52 - e) == inject_Z (2 ^ 53)).
  { rewrite <- pow2_add. replace (e + 1 + (52 - e))%Z with 53%Z by lia. reflexivity. }
  assert (Hx1 : inject_Z (2 ^ 52) <= x).
  { rewrite <- E52. unfold x. apply Qmult_le_compat_r; Lqa.lra. }
  assert (Hx2 : x <= inject_Z (2 ^ 53)).
  { rewrite <- E53. unfold x. apply Qmult_le_compat_r; Lqa.lra. }
  apply rhe_ge_int in Hx1. apply rhe_le_int in Hx2.
  rewrite Zle_Qle in Hx1, Hx2.
  set (m := inject_Z (round_half_even x)) in *.
  assert (F52 : inject_Z (2 ^ 52) * 2 ^ (e - 52) == 2 ^ e).
  { rewrite pow2_Z by lia. rewrite <- pow2_add.
    replace (52 + (e - 52))%Z with e by lia. reflexivity. }
  assert (F53 : inject_Z (2 ^ 53) * 2 ^ (e - 52) == 2 ^ (e + 1)).
  { rewrite pow2_Z by lia. rewrite <- pow2_add.
    replace (53 + (e - 52))%Z with (e + 1)%Z by lia. reflexivity. }
  split.
  - rewrite <- F52. apply Qmult_le_compat_r; Lqa.lra.
  - rewrite <- F53. apply Qmult_le_compat_r; Lqa.lra.
Qed.

Lemma binade_pos_ge (q : Q) (k : Z) : 2 ^ k <= q -> (k <= binade q)%Z.
Proof.
  intros H. pose proof (pow2_pos k) as Pk.
  assert (Hne : ~ q == 0) by (intros E; Lqa.lra).
  destruct (binade_spec q Hne) as [_ Bhi].
  rewrite (Qabs_pos q) in Bhi by Lqa.lra.
  assert ((k < binade q + 1)%Z)
    by (apply pow2_lt_inv; eapply Qle_lt_trans; eassumption).
  lia.
Qed.

(** Rounding does not cross a power of two. *)
Lemma round_double_ge_pow2 (q : Q) (k : Z) :
  (- 1022 <= k)%Z -> 2 ^ k <= q -> 2 ^ k <= round_double q.
Proof.
  intros Hk H. pose proof (pow2_pos k) as Pk.
  assert (Hne : ~ q == 0) by (intros E; Lqa.lra).
  pose proof (binade_pos_ge q k H) as He.
  destruct (binade_spec q Hne) as [Blo Bhi].
  rewrite (Qabs_pos q) in Blo, Bhi by Lqa.lra.
  destruct (round_double_binade q (binade q) ltac:(lia) (conj Blo Bhi))
    as [_ [Rlo _]].
  eapply Qle_trans; [apply (pow2_le k (binade q) He) | exact Rlo].
Qed.

Lemma round_double_le_pow2 (q : Q) (k : Z) :
  (- 1022 <= k)%Z -> q < 2 ^ k -> round_double q <= 2 ^ k.
Proof.
  intros Hk H. pose proof (pow2_pos k) as Pk.
  destruct (Qlt_le_dec 0 q) as [Hpos | Hneg].
  2:{ pose proof (round_double_nonpos q Hneg). Lqa.lra. }
  assert (Hne : ~ q == 0) by (intros E; Lqa.lra).
  destruct (binade_spec q Hne) as [Blo Bhi].
  rewrite (Qabs_pos q) in Blo, Bhi by Lqa.lra.
  assert (He : (binade q < k)%Z)
    by (apply pow2_lt_inv; eapply Qle_lt_trans; eassumption).
  destruct (Z_le_gt_dec (- 1022) (binade q)) as [Hn | Hs].
  - destruct (round_double_binade q (binade q) Hn (conj Blo Bhi))
      as [_ [_ Rhi]].
    eapply Qle_trans; [exact Rhi | apply pow2_le; lia].
  - rewrite (round_double_eq q Hne).
    assert (Hu : ulp q = 2 ^ (- 1074)).
    { unfold ulp. rewrite Z.max_r by lia. reflexivity. }
    rewrite Hu. pose proof (pow2_pos (- 1074)) as Pu.
    assert (Hq : q < 2 ^ (- 1022)).
    { eapply Qlt_le_trans; [exact Bhi | apply pow2_le; lia]. }
    assert (E : inject_Z (2 ^ 52) * 2 ^ (- 1074) == 2 ^ (- 1022)).
    { rewrite pow2_Z by lia. rewrite <- pow2_add. reflexivity. }
    assert (Hx : q / 2 ^ (- 1074) <= inject_Z (2 ^ 52)).
    { apply Qle_shift_div_r; [exact Pu |]. Lqa.lra. }
    apply rhe_le_int in Hx. rewrite Zle_Qle in Hx.
    set (m := inject_Z (round_half_even (q / 2 ^ (- 1074)))) in *.
    assert (m * 2 ^ (- 1074) <= inject_Z (2 ^ 52) * 2 ^ (- 1074))
      by (apply Qmult_le_compat_r; Lqa.lra).
    eapply Qle_trans; [eassumption |]. rewrite E. apply pow2_le. exact Hk.
Qed.

(** Integers up to [2^53] in magnitude are doubles. *)
Lemma round_double_int (z : Z) :
  (Z.abs z <= 2 ^ 53)%Z -> round_double (inject_Z z) == inject_Z z.
Proof.
  intros Hz.
  destruct (Z.eq_dec z 0) as [-> | Hz0]; [reflexivity |].
  assert (Hne : ~ inject_Z z == 0).
  { intros E. unfold Qeq, inject_Z in E. cbn [Qnum Qden] in E. lia. }
  destruct (binade_spec _ Hne) as [Blo Bhi].
  change (Qabs (inject_Z z)) with (inject_Z (Z.abs z)) in Blo, Bhi.
  set (e := binade (inject_Z z)) in *.
  assert (He0 : (0 <= e)%Z).
  { assert (H1 : 2 ^ 0 <= inject_Z (Z.abs z)).
    { change (2 ^ 0) with (inject_Z 1). rewrite <- Zle_Qle. lia. }
    assert ((0 < e + 1)%Z)
      by (apply pow2_lt_inv; eapply Qle_lt_trans; eassumption).
    lia. }
  assert (He53 : (e <= 53)%Z).
  { assert (H1 : inject_Z (Z.abs z) <= 2 ^ 53).
    { rewrite <- pow2_Z by lia. rewrite <- Zle_Qle. exact Hz. }
    assert ((e < 53 + 1)%Z).
    { apply pow2_lt_inv. eapply Qle_lt_trans; [exact Blo |].
      eapply Qle_lt_trans; [exact H1 | apply pow2_lt; lia]. }
    lia. }
  assert (Hu : ulp (inject_Z z) = 2 ^ (e - 52)).
  { unfold ulp. fold e. rewrite Z.max_l by lia. reflexivity. }
  pose proof (pow2_pos (e - 52)) as Pu.
  destruct (Z_le_gt_dec e 52) as [Hle | Hgt].
  - apply (round_double_exact _ (z * 2 ^ (52 - e))). rewrite Hu.
    rewrite inject_Z_mult, pow2_Z by lia. rewrite div_pow2.
    replace (- (e - 52))%Z with (52 - e)%Z by lia. reflexivity.
  - assert (E53 : e = 53%Z) by lia.
    assert (Habs : Z.abs z = (2 ^ 53)%Z).
    { assert (H1 : inject_Z (2 ^ 53) <= inject_Z (Z.abs z)).
      { rewrite pow2_Z by lia. rewrite <- E53. exact Blo. }
      rewrite <- Zle_Qle in H1. lia. }
    apply (round_double_exact _ (z / 2)). rewrite Hu, E53.
    change (2 ^ (53 - 52)) with (inject_Z 2).
    assert (Ez : z = (2 * (z / 2))%Z).
    { destruct (Z.abs_spec z) as [[_ E] | [_ E]]; rewrite E in Habs.
      - rewrite Habs. reflexivity.
      - replace z with (- 2 ^ 53)%Z by lia. reflexivity. }
    rewrite Ez at 1. rewrite inject_Z_mult. field.
Qed.

(** The doubles around one half: everything up to [1/2 + 2^-54] rounds to at
    most [1/2], everything above to more. *)
Lemma round_double_half (q : Q) :
  1 # 2 < round_double q <-> (1 # 2) + 2 ^ (- 54) < q.
Proof.
  assert (P54 : 2 ^ (- 54) == 1 # 18014398509481984) by reflexivity.
  assert (Ph : 2 ^ (- 1) == 1 # 2) by reflexivity.
  assert (P0 : 2 ^ (- 1 + 1) == 1) by reflexivity.
  assert (Ex : forall q, q * 2 ^ (52 - - 1) == q * inject_Z (2 ^ 53))
    by (intros; reflexivity).
  assert (Eu : 2 ^ (- 1 - 52) == 1 # 9007199254740992) by reflexivity.
  split.
  - intros Hr. apply Qnot_le_lt. intros Hq.
    destruct (Qlt_le_dec q (1 # 2)) as [Hlt | Hge].
    + pose proof (round_double_le_pow2 q (- 1) ltac:(lia)) as H.
      rewrite Ph in H. specialize (H Hlt). Lqa.lra.
    + destruct (round_double_binade q (- 1) ltac:(lia)) as [Hv _].
      { rewrite Ph, P0. split; Lqa.lra. }
      rewrite Hv in Hr.
      assert (Hm : round_half_even (q * 2 ^ (52 - - 1)) = (2 ^ 52)%Z).
      { apply rhe_tie_even; [reflexivity |]. rewrite Ex.
        change (inject_Z (2 ^ 53)) with (9007199254740992 # 1).
        change (inject_Z (2 ^ 52)) with (4503599627370496 # 1).
        split; Lqa.lra. }
      rewrite Hm in Hr. revert Hr. rewrite Eu. vm_compute. intros H; discriminate H.
  - intros Hq.
    destruct (Qlt_le_dec q 1) as [Hlt | Hge].
    + destruct (round_double_binade q (- 1) ltac:(lia)) as [Hv _].
      { rewrite Ph, P0. split; Lqa.lra. }
      rewrite Hv.
      assert (Hm : (2 ^ 52 + 1 <= round_half_even (q * 2 ^ (52 - - 1)))%Z).
      { apply rhe_gt_half. rewrite Ex.
        change (inject_Z (2 ^ 53)) with (9007199254740992 # 1).
        change (inject_Z (2 ^ 52)) with (4503599627370496 # 1).
        Lqa.lra. }
      rewrite Zle_Qle in Hm. rewrite Eu.
      set (m := inject_Z (round_half_even (q * 2 ^ (52 - - 1)))) in *.
      change (inject_Z (2 ^ 52 + 1)) with (4503599627370497 # 1) in Hm.
      Lqa.lra.
    + pose proof (round_double_ge_pow2 q 0 ltac:(lia)) as H.
      change (2 ^ 0) with 1 in H. specialize (H Hge). Lqa.lra.
Qed.

Lemma round_double_comp (q q' : Q) : q == q' -> round_double q == round_double q'.
Proof.
  intros E. destruct (Qeq_dec q 0) as [H0 | H0].
  - rewrite (round_double_0 q H0).
    rewrite (round_double_0 q') by (rewrite <- E; exact H0). reflexivity.
  - assert (H0' : ~ q' == 0) by (rewrite <- E; exact H0).
    rewrite (round_double_eq q H0), (round_double_eq q' H0').
    assert (Eu : ulp q = ulp q')
      by (unfold ulp; rewrite (binade_comp q q' E H0); reflexivity).
    rewrite Eu.
    assert (Ex : q / ulp q' == q' / ulp q') by (rewrite E; reflexivity).
    rewrite (rhe_comp _ _ Ex). reflexivity.
Qed.

(** The rounded value is a significand of at most 53 bits times a power of
    two no smaller than [2^-1074]. *)
Lemma round_double_significand (q : Q) :
  ~ q == 0 -> (Z.abs (round_half_even (q / ulp q)) <= 2 ^ 53)%Z.
Proof.
  intros Hne. destruct (binade_spec q Hne) as [_ Bhi].
  pose proof (ulp_pos q) as Hu.
  assert (Hle : 2 ^ (binade q + 1) <= inject_Z (2 ^ 53) * ulp q).
  { unfold ulp. rewrite pow2_Z by lia. rewrite <- pow2_add.
    apply pow2_le. lia. }
  assert (Habs : Qabs q < inject_Z (2 ^ 53) * ulp q)
    by (eapply Qlt_le_trans; eassumption).
  apply Qabs_Qlt_condition in Habs. destruct Habs as [H1 H2].
  assert (Hx1 : inject_Z (- 2 ^ 53) <= q / ulp q).
  { apply Qle_shift_div_l; [exact Hu |].
    change (inject_Z (- 2 ^ 53)) with (- inject_Z (2 ^ 53)).
    apply Qlt_le_weak.
    setoid_replace (- inject_Z (2 ^ 53) * ulp q)
      with (- (inject_Z (2 ^ 53) * ulp q)) by ring.
    exact H1. }
  assert (Hx2 : q / ulp q <= inject_Z (2 ^ 53)).
  { apply Qle_shift_div_r; [exact Hu |]. apply Qlt_le_weak. exact H2. }
  apply rhe_ge_int in Hx1. apply rhe_le_int in Hx2. lia.
Qed.

End Rounding.

Lemma to_number_comp (q q' : Q) : (q == q')%Q -> to_number q = to_number q'.
Proof.
  intros H. unfold to_number, Qltb.
  rewrite (Qleb_comp _ _ (Qeq_refl _) _ _ (Qabs_wd _ _ H)).
  rewrite (Qleb_comp _ _ (Qeq_refl 0%Q) _ _ H).
  rewrite (Qred_complete _ _ (round_double_comp _ _ H)). reflexivity.
Qed.

Lemma to_number_Finite (q r : Q) :
  to_number q = Finite r ->
  r = Qred (round_double q) /\ (Qabs q < inject_Z overflow_threshold)%Q.
Proof.
  unfold to_number.
  destruct (Qltb (Qabs q) (inject_Z overflow_threshold)) eqn:E;
    [| discriminate].
  intros H. inversion H. split; [reflexivity | apply Qltb_lt; exact E].
Qed.

(** Integers up to [2^53] in magnitude are read exactly. *)
Lemma Qred_round_double_int (z : Z) :
  (Z.abs z <= 2 ^ 53)%Z -> Qred (round_double (inject_Z z)) = inject_Z z.
Proof.
  intros Hz. rewrite (Qred_complete _ _ (round_double_int z Hz)).
  apply Qred_inject_Z.
Qed.

Lemma to_number_inject_Z (z : Z) :
  (Z.abs z <= 2 ^ 53)%Z -> to_number (inject_Z z) = Finite (inject_Z z).
Proof.
  intros Hz. unfold to_number.
  assert (E : Qltb (Qabs (inject_Z z)) (inject_Z overflow_threshold) = true).
  { apply Qltb_lt. change (Qabs (inject_Z z)) with (inject_Z (Z.abs z)).
    rewrite <- Zlt_Qlt.
    apply Z.le_lt_trans with (2 ^ 53)%Z; [exact Hz | reflexivity]. }
  rewrite E, Qred_round_double_int by exact Hz. reflexivity.
Qed.

(** [parseInt] reads the decimal digits of a number and ignores what
    follows them. *)
Lemma parseInt_decimal (n : nat) (rest : string) :
  starts_with_digit rest = false ->
  parseInt (String_of_nat n ++ rest) = to_number (inject_Z (Z.of_nat n)).
Proof.
  intros Hrest. unfold parseInt.
  pose proof (String_of_nat_digits n) as Hds.
  pose proof (String_of_nat_nonempty n) as Hne.
  pose proof (digits_value_String_of_nat n) as Hv.
  destruct (String_of_nat n) as [| c ds] eqn:E; [contradiction Hne; reflexivity |].
  cbn [all_digits] in Hds. apply andb_prop in Hds as [Hc Hds].
  cbn [String.append trimStart]. rewrite (isDigit_not_space c Hc).
  rewrite (strip_sign_digit c _ Hc).
  change (String c (ds ++ rest)) with (String c ds ++ rest)%string.
  rewrite span_digits_app
    by (try exact Hrest; cbn [all_digits]; rewrite Hc, Hds; reflexivity).
  rewrite Hv. reflexivity.
Qed.

(** [parseFloat] on the decimal digits of a number. *)
Lemma parseFloat_decimal (n : nat) :
  parseFloat (String_of_nat n) = to_number (inject_Z (Z.of_nat n)).
Proof.
  unfold parseFloat.
  pose proof (String_of_nat_digits n) as Hds.
  pose proof (String_of_nat_nonempty n) as Hne.
  pose proof (digits_value_String_of_nat n) as Hv.
  destruct (String_of_nat n) as [| c ds] eqn:E; [contradiction Hne; reflexivity |].
  pose proof Hds as Hall.
  cbn [all_digits] in Hds. apply andb_prop in Hds as [Hc Hds].
  cbn [trimStart]. rewrite (isDigit_not_space c Hc).
  rewrite (strip_sign_digit c _ Hc).
  rewrite (prefix_Infinity_digit c ds Hc).
  rewrite (span_digits_all _ Hall).
  rewrite append_nil. rewrite Hv.
  apply to_number_comp. unfold apply_sign, exponent_part.
  cbn [String.length Z.of_nat Z.sub Z.opp Qpower]. apply Qmult_1_r.
Qed.

Lemma span_digits_none (s : string) :
  starts_with_digit s = false -> span_digits s = (EmptyString, s).
Proof.
  destruct s as [| c r]; [reflexivity |]. cbn. intros ->. reflexivity.
Qed.

Lemma parseInt_no_digit (s : string) :
  starts_with_digit (snd (strip_sign (trimStart s))) = false ->
  parseInt s = NaN.
Proof.
  unfold parseInt. destruct (strip_sign (trimStart s)) as [neg S1].
  cbn [snd]. intros H. rewrite (span_digits_none _ H). reflexivity.
Qed.

(** A finite result of [parseInt] is the double nearest to an integer below
    the overflow threshold. *)
Lemma parseInt_Finite (s : string) (r : Q) :
  parseInt s = Finite r ->
  exists z : Z, r = Qred (round_double (inject_Z z))
                /\ (Z.abs z < overflow_threshold)%Z.
Proof.
  unfold parseInt. destruct (strip_sign (trimStart s)) as [neg S1].
  destruct (span_digits S1) as [Zs rest].
  destruct Zs as [| c Zs]; [discriminate |].
  set (v := digits_value (String c Zs)).
  intros H. apply to_number_Finite in H as [Hr Hlt].
  exists (if neg then (- v)%Z else v).
  assert (Hs : apply_sign neg (inject_Z v)
               = inject_Z (if neg then (- v)%Z else v))
    by (destruct neg; reflexivity).
  rewrite Hs in Hr, Hlt.
  split; [exact Hr |].
  change (Qabs (inject_Z (if neg then (- v)%Z else v)))
    with (inject_Z (Z.abs (if neg then (- v)%Z else v))) in Hlt.
  rewrite <- Zlt_Qlt in Hlt. exact Hlt.
Qed.

(** ** The build key and rebuilds *)

Lemma append_assoc (a b c : string) :
  ((a ++ b) ++ c)%string = (a ++ (b ++ c))%string.
Proof. induction a as [| x a IH]; cbn; [reflexivity | now rewrite IH]. Qed.

Lemma all_digits_app_sep (a b : string) (c : ascii) :
  all_digits (a ++ String c b) = true -> isDigit c = true.
Proof.
  induction a as [| x a IH]; cbn; intros H; apply andb_prop in H as [H1 H2];
    auto.
Qed.

(** A separator that is not a digit is found uniquely in front of a run of
    digits. *)
Lemma sep_unique (c : ascii) (a1 a2 b1 b2 : string) :
  isDigit c = false -> all_digits b1 = true -> all_digits b2 = true ->
  (a1 ++ String c b1)%string = (a2 ++ String c b2)%string ->
  a1 = a2 /\ b1 = b2.
Proof.
  intros Hc H1 H2. revert a2.
  induction a1 as [| x a1 IH]; intros [| y a2] H; cbn in H.
  - injection H as Htail. subst. split; reflexivity.
  - injection H as Hhead Htail. subst.
    apply all_digits_app_sep in H1. congruence.
  - injection H as Hhead Htail. subst.
    apply all_digits_app_sep in H2. congruence.
  - injection H as Hhead Htail. subst.
    destruct (IH a2 Htail) as [-> ->]. split; reflexivity.
Qed.

(** The build key determines the text, the width and the height. *)
Lemma buildKey_inj (t1 t2 : string) (w1 w2 h1 h2 : nat) :
  buildKey t1 w1 h1 = buildKey t2 w2 h2 -> t1 = t2 /\ w1 = w2 /\ h1 = h2.
Proof.
  unfold buildKey. intros H.
  change (t1 ++ "|" ++ String_of_nat w1 ++ "x" ++ String_of_nat h1)%string
    with (t1 ++ (String "|" (String_of_nat w1)
                 ++ String "x" (String_of_nat h1)))%string in H.
  change (t2 ++ "|" ++ String_of_nat w2 ++ "x" ++ String_of_nat h2)%string
    with (t2 ++ (String "|" (String_of_nat w2)
                 ++ String "x" (String_of_nat h2)))%string in H.
  rewrite <- !append_assoc in H.
  apply (sep_unique "x") in H as [Ha Hh];
    [| reflexivity | apply String_of_nat_digits | apply String_of_nat_digits].
  apply (sep_unique "|") in Ha as [Ht Hw];
    [| reflexivity | apply String_of_nat_digits | apply String_of_nat_digits].
  split; [exact Ht |].
  split; apply String_of_nat_inj; assumption.
Qed.

Section RebuildFacts.

Variable rnd : nat -> R.
Variable noise : R -> R -> R -> R.
Variable rasterize : string -> nat -> nat -> list Z.

Lemma buildTextParticles_synced (s : Sketch) :
  let s' := buildTextParticles rnd rasterize s in
  lastBuildKey s' = currentKey s' /\ currentKey s' = currentKey s
  /\ builds s' = S (builds s).
Proof.
  pose proof (buildTextParticles_fields rnd rasterize s) as H.
  cbv zeta in *. destruct H as (Hc & Hw & Hh & _ & Hk & Hb).
  unfold currentKey. rewrite Hc, Hw, Hh, Hk, Hb. repeat split; reflexivity.
Qed.

(** The state after a frame, field by field. *)
Lemma draw_fields (ms ms' : R) (s : Sketch) :
  let s1 := if String.eqb (currentKey s) (lastBuildKey s) then s
            else buildTextParticles rnd rasterize s in
  let s' := fst (draw rnd noise rasterize ms ms' s) in
  config s' = config s1 /\ width s' = width s1 /\ height s' = height s1
  /\ particles s' = particles s1 /\ lastBuildKey s' = lastBuildKey s1
  /\ builds s' = builds s1.
Proof.
  cbv zeta. unfold draw. fold (currentKey s).
  destruct (update_all noise _ _ _ _ _) as [cs w'].
  cbn [fst config width height particles lastBuildKey builds].
  repeat split; reflexivity.
Qed.

Lemma draw_synced (ms ms' : R) (s : Sketch) :
  let s' := fst (draw rnd noise rasterize ms ms' s) in
  lastBuildKey s' = currentKey s' /\ currentKey s' = currentKey s
  /\ builds s'
     = (if String.eqb (currentKey s) (lastBuildKey s) then builds s
        else S (builds s))
  /\ (currentKey s = lastBuildKey s -> particles s' = particles s).
Proof.
  pose proof (draw_fields ms ms' s) as H. cbv zeta in *.
  destruct H as (Hc & Hw & Hh & Hp & Hk & Hb).
  unfold currentKey at 1 2. rewrite Hc, Hw, Hh, Hp, Hk, Hb.
  destruct (String.eqb_spec (currentKey s) (lastBuildKey s)) as [E | E].
  - repeat split; auto.
  - pose proof (buildTextParticles_synced s) as Hs. cbv zeta in Hs.
    destruct Hs as (H1 & H2 & H3). unfold currentKey in H1, H2.
    repeat split; auto. intros; contradiction.
Qed.

(** With the same text, the build keys of two sizes agree exactly when the
    sizes do. *)
Lemma buildKey_same_text (t : string) (w1 h1 w2 h2 : nat) :
  String.eqb (buildKey t w1 h1) (buildKey t w2 h2)
  = Nat.eqb w1 w2 && Nat.eqb h1 h2.
Proof.
  destruct (String.eqb_spec (buildKey t w1 h1) (buildKey t w2 h2)) as [E | E].
  - apply buildKey_inj in E as (_ & -> & ->).
    rewrite !Nat.eqb_refl. reflexivity.
  - symmetry. apply not_true_iff_false. intros H.
    apply andb_prop in H as [Hw Hh].
    apply Nat.eqb_eq in Hw, Hh. subst. apply E. reflexivity.
Qed.

Lemma draw_startMillis (ms ms' : R) (s : Sketch) :
  startMillis (fst (draw rnd noise rasterize ms ms' s)) = startMillis s.
Proof.
  unfold draw.
  destruct (String.eqb _ (lastBuildKey s));
    destruct (update_all noise _ _ _ _ _) as [cs w']; cbn [fst startMillis];
    [reflexivity |].
  apply (buildTextParticles_fields rnd rasterize s).
Qed.

(** The frame [resizeCanvas] draws: it rebuilds exactly when the size
    changed. *)
Lemma resizeCanvas_synced (w h : nat) (ms ms' : R) (s : Sketch) :
  let s' := fst (resizeCanvas rnd noise rasterize w h ms ms' s) in
  lastBuildKey s' = currentKey s'
  /\ currentKey s' = buildKey (DISPLAY_TEXT (config s)) w h
  /\ config s' = config s /\ width s' = w /\ height s' = h
  /\ startMillis s' = startMillis s
  /\ (lastBuildKey s = currentKey s ->
      builds s' = (if Nat.eqb w (width s) && Nat.eqb h (height s)
                   then builds s else S (builds s))).
Proof.
  cbv zeta. unfold resizeCanvas.
  set (s1 := mkSketch (config s) w h (particles s) (lastBuildKey s)
                      (startMillis s) (world s) (builds s)).
  pose proof (draw_synced ms ms' s1) as H. cbv zeta in H.
  destruct H as (Hk & Hc & Hb & _).
  pose proof (draw_fields ms ms' s1) as Hf. cbv zeta in Hf.
  destruct Hf as (Hcf & Hw & Hh & _).
  assert (Hs1 : forall s2, s2 = (if String.eqb (currentKey s1) (lastBuildKey s1)
                                 then s1
                                 else buildTextParticles rnd rasterize s1) ->
                config s2 = config s /\ width s2 = w /\ height s2 = h).
  { intros s2 ->. destruct (String.eqb _ _); [repeat split; reflexivity |].
    pose proof (buildTextParticles_fields rnd rasterize s1) as Hbf.
    cbv zeta in Hbf. destruct Hbf as (H1 & H2 & H3 & _).
    rewrite H1, H2, H3. repeat split; reflexivity. }
  destruct (Hs1 _ eq_refl) as (E1 & E2 & E3).
  split; [exact Hk |]. split; [rewrite Hc; reflexivity |].
  split; [rewrite Hcf; exact E1 |]. split; [rewrite Hw; exact E2 |].
  split; [rewrite Hh; exact E3 |].
  split; [rewrite draw_startMillis; reflexivity |].
  intros Hs. rewrite Hb. unfold s1 at 2. cbn [lastBuildKey]. rewrite Hs.
  unfold currentKey, s1. cbn [config width height builds].
  rewrite buildKey_same_text. reflexivity.
Qed.

Lemma windowResized_synced (w h : nat) (ms ms' : R) (s : Sketch) :
  let shown := fst (resizeCanvas rnd noise rasterize w h ms ms' s) in
  let s' := windowResized rnd noise rasterize w h ms ms' s in
  lastBuildKey s' = currentKey s' /\ builds s' = S (builds shown)
  /\ currentKey s' = buildKey (DISPLAY_TEXT (config s)) w h
  /\ config s' = config s /\ width s' = w /\ height s' = h
  /\ startMillis s' = startMillis s.
Proof.
  cbv zeta. unfold windowResized.
  pose proof (resizeCanvas_synced w h ms ms' s) as Hr. cbv zeta in Hr.
  destruct Hr as (_ & Hk & Hc & Hw & Hh & Hm & _).
  set (shown := fst (resizeCanvas rnd noise rasterize w h ms ms' s)) in *.
  pose proof (buildTextParticles_synced shown) as H.
  pose proof (buildTextParticles_fields rnd rasterize shown) as Hf.
  cbv zeta in H, Hf. destruct H as (H1 & H2 & H3).
  destruct Hf as (F1 & F2 & F3 & F4 & _).
  rewrite H1, H2, H3, F1, F2, F3, F4, Hk, Hc, Hw, Hh, Hm.
  repeat split; reflexivity.
Qed.

Lemma keyTyped_r_synced (s : Sketch) :
  let s' := keyTyped rnd rasterize "r" s in
  lastBuildKey s' = currentKey s' /\ builds s' = S (builds s).
Proof.
  cbv zeta. unfold keyTyped. cbn [String.eqb Ascii.eqb Bool.eqb].
  destruct (random_range rnd 1 9999 (world s)) as [v w'].
  match goal with
  | |- context [buildTextParticles rnd rasterize ?s0] =>
      pose proof (buildTextParticles_synced s0) as H
  end.
  cbv zeta in H. destruct H as (H1 & H2 & H3).
  rewrite H1, H3. split; reflexivity.
Qed.

(** The text the 'r' key puts on display. *)
Lemma keyTyped_r_text (s : Sketch) :
  let s' := keyTyped rnd rasterize "r" s in
  let text := String_of_Z (floor (rnd (seed (world s)) * (9999 - 1) + 1)) in
  DISPLAY_TEXT (config s') = text
  /\ currentKey s' = buildKey text (width s) (height s).
Proof.
  cbv zeta. unfold keyTyped. cbn [String.eqb Ascii.eqb Bool.eqb].
  unfold random_range, random01, bind, ret.
  match goal with
  | |- context [buildTextParticles rnd rasterize ?s0] =>
      pose proof (buildTextParticles_fields rnd rasterize s0) as H
  end.
  cbv zeta in H. destruct H as (Hc & Hw & Hh & _).
  unfold currentKey. rewrite Hc, Hw, Hh.
  cbn [config width height DISPLAY_TEXT]. split; reflexivity.
Qed.

Lemma setup_fields (n d b : option string) (w h : nat) (ms : R) :
  let s := setup rnd rasterize n d b w h ms in
  config s = getParams n d b default_config
  /\ width s = w /\ height s = h
  /\ lastBuildKey s = currentKey s
  /\ builds s = 1%nat.
Proof.
  cbv zeta. unfold setup.
  match goal with
  | |- context [buildTextParticles rnd rasterize ?s0] =>
      pose proof (buildTextParticles_fields rnd rasterize s0) as H;
      pose proof (buildTextParticles_synced s0) as H'
  end.
  cbv zeta in H, H'. destruct H as (Hc & Hw & Hh & _ & _ & Hn).
  destruct H' as (Hk & _).
  rewrite Hc, Hw, Hh, Hn. cbn [config width height builds].
  split; [reflexivity |]. split; [reflexivity |]. split; [reflexivity |].
  split; [exact Hk | reflexivity].
Qed.

Lemma keyTyped_other (key : string) (s : Sketch) :
  key <> "r"%string -> keyTyped rnd rasterize key s = s.
Proof.
  intros H. unfold keyTyped.
  destruct (String.eqb_spec key "r"); [contradiction | reflexivity].
Qed.

(** The calls of [buildTextParticles] an event makes. *)
Lemma handle_builds (e : Event) (s : Sketch) :
  lastBuildKey s = currentKey s ->
  let s' := handle rnd noise rasterize e s in
  lastBuildKey s' = currentKey s'
  /\ builds s' = (builds s + rebuilds (width s, height s) (Event_of e))%nat.
Proof.
  intros Hs. cbv zeta. destruct e as [key | w h ms ms']; cbn [handle rebuilds].
  - destruct (String.eqb_spec key "r") as [-> | Hk].
    + pose proof (keyTyped_r_synced s) as H. cbv zeta in H.
      destruct H as [H1 H2]. split; [exact H1 | rewrite H2; lia].
    + rewrite keyTyped_other by exact Hk. split; [exact Hs | lia].
  - pose proof (windowResized_synced w h ms ms' s) as H. cbv zeta in H.
    destruct H as (H1 & H2 & _).
    pose proof (resizeCanvas_synced w h ms ms' s) as Hr. cbv zeta in Hr.
    destruct Hr as (_ & _ & _ & _ & _ & _ & Hb).
    split; [exact H1 |]. rewrite H2, (Hb Hs). cbn [fst snd].
    destruct (Nat.eqb w (width s) && Nat.eqb h (height s)); lia.
Qed.

End RebuildFacts.

(** C3 (amended): the frame callback rebuilds the particles exactly when the
    build key of the current text and canvas size differs from the cached
    key, and keeps the particle list otherwise; after a frame the cached key
    is the current one, so the next frame does not rebuild.  Different texts
    or canvas sizes always give different keys.  The key handler for 'r'
    rebuilds once on every call, also when the key did not change, and the
    next frame does not rebuild again.  A resize changes the key exactly when
    it changes the size; the frame [resizeCanvas] draws rebuilds once in that
    case, before it renders, and not otherwise; the resize handler then
    rebuilds once more on every call, with the key unchanged, and the next
    frame does not rebuild again. *)
Theorem C3_rebuild_on_key_change :
  forall (rnd : nat -> R) (noise : R -> R -> R -> R)
         (rasterize : string -> nat -> nat -> list Z)
         (ms ms' : R) (s : Sketch),
  let s' := fst (draw rnd noise rasterize ms ms' s) in
  builds s' = (if String.eqb (currentKey s) (lastBuildKey s) then builds s
               else S (builds s))
  /\ (currentKey s = lastBuildKey s -> particles s' = particles s)
  /\ lastBuildKey s' = currentKey s'
  /\ currentKey s' = currentKey s
  /\ (forall ms2 ms2',
        builds (fst (draw rnd noise rasterize ms2 ms2' s')) = builds s')
  /\ (forall t1 w1 h1 t2 w2 h2,
        buildKey t1 w1 h1 = buildKey t2 w2 h2 <->
        t1 = t2 /\ w1 = w2 /\ h1 = h2)
  /\ (let typed := keyTyped rnd rasterize "r" s in
      builds typed = S (builds s)
      /\ lastBuildKey typed = currentKey typed
      /\ forall ms2 ms2',
           builds (fst (draw rnd noise rasterize ms2 ms2' typed))
           = S (builds s))
  /\ (forall key, key <> "r"%string -> keyTyped rnd rasterize key s = s)
  /\ (forall w h ms1 ms1',
        lastBuildKey s = currentKey s ->
        let same := Nat.eqb w (width s) && Nat.eqb h (height s) in
        let shown := fst (resizeCanvas rnd noise rasterize w h ms1 ms1' s) in
        let resized := windowResized rnd noise rasterize w h ms1 ms1' s in
        (same = false <-> currentKey shown <> currentKey s)
        /\ builds shown = (if same then builds s else S (builds s))
        /\ lastBuildKey shown = currentKey shown
        /\ builds resized = S (builds shown)
        /\ currentKey resized = currentKey shown
        /\ lastBuildKey resized = currentKey resized
        /\ forall ms2 ms2',
             builds (fst (draw rnd noise rasterize ms2 ms2' resized))
             = builds resized).
Proof.
  intros rnd noise rasterize ms ms' s. cbv zeta.
  assert (Hnext : forall s0 ms2 ms2',
             lastBuildKey s0 = currentKey s0 ->
             builds (fst (draw rnd noise rasterize ms2 ms2' s0)) = builds s0).
  { intros s0 ms2 ms2' H0.
    pose proof (draw_synced rnd noise rasterize ms2 ms2' s0) as H2.
    cbv zeta in H2. destruct H2 as (_ & _ & Hb2 & _).
    rewrite Hb2, H0, String.eqb_refl. reflexivity. }
  pose proof (draw_synced rnd noise rasterize ms ms' s) as H. cbv zeta in H.
  destruct H as (Hk & Hc & Hb & Hp).
  split; [exact Hb |]. split; [exact Hp |]. split; [exact Hk |].
  split; [exact Hc |]. split.
  { intros ms2 ms2'. apply Hnext. exact Hk. }
  split.
  { intros t1 w1 h1 t2 w2 h2. split; [apply buildKey_inj |].
    intros (-> & -> & ->). reflexivity. }
  split.
  { pose proof (keyTyped_r_synced rnd rasterize s) as Hr. cbv zeta in Hr.
    destruct Hr as [Hr1 Hr2].
    split; [exact Hr2 |]. split; [exact Hr1 |].
    intros ms2 ms2'. rewrite (Hnext _ ms2 ms2' Hr1). exact Hr2. }
  split.
  { intros key Hkey. apply keyTyped_other. exact Hkey. }
  intros w h ms1 ms1' Hs.
  pose proof (resizeCanvas_synced rnd noise rasterize w h ms1 ms1' s) as Hr.
  pose proof (windowResized_synced rnd noise rasterize w h ms1 ms1' s) as Hw.
  cbv zeta in Hr, Hw.
  destruct Hr as (Hr1 & Hr2 & _ & _ & _ & _ & Hr3).
  destruct Hw as (Hw1 & Hw2 & Hw3 & _).
  split.
  { rewrite Hr2. unfold currentKey.
    rewrite <- (buildKey_same_text (DISPLAY_TEXT (config s))).
    split.
    - intros E Heq. rewrite Heq, String.eqb_refl in E. discriminate E.
    - intros Hne. apply not_true_iff_false. intros E.
      apply String.eqb_eq in E. contradiction. }
  split; [apply Hr3; exact Hs |]. split; [exact Hr1 |].
  split; [exact Hw2 |]. split; [rewrite Hw3, Hr2; reflexivity |].
  split; [exact Hw1 |].
  intros ms2 ms2'. apply Hnext. exact Hw1.
Qed.

(** C3 fails as stated: started with [?num=5000] in an 800 by 600 window, the
    sketch has the text "5000" and a current cached key; pressing 'r' when
    the random source returns 1/2 draws 5000 again, so the build key is
    unchanged, and the particles are rebuilt all the same. *)
Lemma C3_counterexample :
  let rnd := fun _ : nat => 1 / 2 in
  let rasterize := fun (_ : string) (w h : nat) => background_pixels w h in
  let s := setup rnd rasterize (Some "5000"%string) None None 800 600 0 in
  let s' := keyTyped rnd rasterize "r" s in
  lastBuildKey s = currentKey s
  /\ DISPLAY_TEXT (config s) = "5000"%string
  /\ DISPLAY_TEXT (config s') = "5000"%string
  /\ currentKey s' = currentKey s
  /\ builds s = 1%nat
  /\ builds s' = 2%nat.
Proof.
  cbv zeta.
  pose proof (setup_fields (fun _ => 1 / 2)
                (fun (_ : string) (w h : nat) => background_pixels w h)
                (Some "5000"%string) None None 800 600 0) as Hs.
  cbv zeta in Hs.
  set (s := setup _ _ (Some "5000"%string) None None 800 600 0) in *.
  clearbody s. destruct Hs as (Hc & Hw & Hh & Hk & Hn).
  pose proof (keyTyped_r_text (fun _ => 1 / 2)
                (fun (_ : string) (w h : nat) => background_pixels w h) s)
    as Ht.
  pose proof (keyTyped_r_synced (fun _ => 1 / 2)
                (fun (_ : string) (w h : nat) => background_pixels w h) s)
    as Hr.
  cbv zeta beta in Ht, Hr.
  replace (floor (1 / 2 * (9999 - 1) + 1)) with 5000%Z in Ht
    by (symmetry; replace (1 / 2 * (9999 - 1) + 1) with (IZR 5000) by lra;
        apply floor_IZR).
  change (String_of_Z 5000) with "5000"%string in Ht.
  destruct Ht as [Ht1 Ht2]. destruct Hr as [_ Hr].
  assert (Hd : DISPLAY_TEXT (config s) = "5000"%string)
    by (rewrite Hc; reflexivity).
  split; [exact Hk |]. split; [exact Hd |]. split; [exact Ht1 |].
  split; [rewrite Ht2; unfold currentKey; rewrite Hd; reflexivity |].
  split; [exact Hn | rewrite Hr, Hn; reflexivity].
Qed.

(** ** The Particle Sampler *)

Lemma grid_step_in (n k : nat) :
  (SAMPLE_STEP * k < n)%nat ->
  seq k ((n + 5) / SAMPLE_STEP - k)
  = k :: seq (S k) ((n + 5) / SAMPLE_STEP - S k).
Proof.
  unfold SAMPLE_STEP. intros H.
  assert (Hk : (k < (n + 5) / 6)%nat).
  { apply Nat.div_le_lower_bound; lia. }
  replace ((n + 5) / 6 - k)%nat with (S ((n + 5) / 6 - S k)) by lia.
  reflexivity.
Qed.

Lemma grid_step_out (n k : nat) :
  (n <= SAMPLE_STEP * k)%nat -> seq k ((n + 5) / SAMPLE_STEP - k) = [].
Proof.
  unfold SAMPLE_STEP. intros H.
  assert (Hk : ((n + 5) / 6 <= k)%nat).
  { apply Nat.lt_succ_r. apply Nat.Div0.div_lt_upper_bound; lia. }
  replace ((n + 5) / 6 - k)%nat with 0%nat by lia. reflexivity.
Qed.

Lemma grid_spec (n x : nat) :
  In x (grid n) <-> (x mod SAMPLE_STEP = 0 /\ x < n)%nat.
Proof.
  unfold grid, SAMPLE_STEP. rewrite in_map_iff. split.
  - intros (k & <- & Hk). apply in_seq in Hk.
    split; [rewrite Nat.mul_comm; apply Nat.Div0.mod_mul |].
    assert (H : (k < (n + 5) / 6)%nat) by lia.
    pose proof (Nat.Div0.mul_div_le (n + 5) 6). lia.
  - intros [Hm Hx]. exists (x / 6)%nat.
    pose proof (Nat.div_mod_eq x 6) as Hd. rewrite Hm in Hd.
    split; [lia |]. apply in_seq. split; [lia |].
    cbn [Nat.add]. apply Nat.div_le_lower_bound; lia.
Qed.

Lemma grid_NoDup (n : nat) : NoDup (grid n).
Proof.
  unfold grid. apply Injective_map_NoDup; [| apply seq_NoDup].
  intros a b H. unfold SAMPLE_STEP in H. lia.
Qed.

Section SamplerFacts.

Variable rnd : nat -> R.

Lemma makeParticle_eq (x y : nat) (h : Heap) (sd : nat) :
  let jitter := rnd sd * (2 - - 2) + - 2 in
  makeParticle rnd x y (mkWorld h sd)
  = (mkParticle (length h) (S (length h))
                (rnd (S sd) * (24 / 10 - 16 / 10) + 16 / 10)
                (rnd (S (S sd)) * TWO_PI)
                (rnd (S (S (S sd)))),
     mkWorld (h ++ [mkVec (INR x) (INR y);
                    mkVec (INR x + jitter) (INR y + jitter)])
             (S (S (S (S sd))))).
Proof.
  cbv zeta.
  unfold makeParticle, random_range, random_max, random01, createVector,
    bind, ret.
  cbn [heap seed]. rewrite length_app, <- app_assoc. cbn [length app].
  replace (length h + 1)%nat with (S (length h)) by lia. reflexivity.
Qed.

Lemma build_from_app (a b : list (nat * nat)) (w : World) :
  build_from rnd (a ++ b) w
  = (fst (build_from rnd a w)
       ++ fst (build_from rnd b (snd (build_from rnd a w))),
     snd (build_from rnd b (snd (build_from rnd a w)))).
Proof.
  revert w. induction a as [| [x y] a IH]; intros w.
  - cbn [app build_from]. unfold ret. cbn [fst snd app].
    destruct (build_from rnd b w). reflexivity.
  - cbn [app build_from]. unfold bind.
    destruct (makeParticle rnd x y w) as [p w1].
    rewrite IH.
    destruct (build_from rnd a w1) as [pa w2].
    unfold ret. cbn [fst snd app]. reflexivity.
Qed.

(** The inner loop, given enough fuel, builds the particles of the lit grid
    pixels of the row from column [SAMPLE_STEP * k] on. *)
Lemma scan_row_build (pixels : list Z) (pw y : nat) :
  forall (fuel k : nat) (acc : list Particle) (w : World),
  (pw <= SAMPLE_STEP * (k + fuel))%nat ->
  let pts := map (fun x => (x, y))
               (filter (fun x => lit pixels (4 * (y * pw + x)))
                  (map (fun k => (SAMPLE_STEP * k)%nat)
                       (seq k ((pw + 5) / SAMPLE_STEP - k)))) in
  scan_row rnd fuel pixels pw y (SAMPLE_STEP * k) acc w
  = (acc ++ fst (build_from rnd pts w), snd (build_from rnd pts w)).
Proof.
  induction fuel as [| fuel IH]; intros k acc w Hfuel; cbv zeta.
  - rewrite grid_step_out by lia.
    cbn [map filter build_from scan_row]. unfold ret. cbn [fst snd].
    rewrite app_nil_r. reflexivity.
  - cbn [scan_row].
    destruct (Nat.ltb_spec (SAMPLE_STEP * k) pw) as [Hlt | Hge].
    + rewrite grid_step_in by exact Hlt. cbn [map filter].
      replace (SAMPLE_STEP * k + SAMPLE_STEP)%nat with (SAMPLE_STEP * S k)%nat
        by lia.
      destruct (lit pixels (4 * (y * pw + SAMPLE_STEP * k))).
      * cbn [map build_from]. unfold bind.
        destruct (makeParticle rnd (SAMPLE_STEP * k) y w) as [p w1].
        rewrite IH by lia. cbv zeta.
        destruct (build_from rnd _ w1) as [ps w2].
        unfold ret. cbn [fst snd]. rewrite <- app_assoc. reflexivity.
      * rewrite IH by lia. reflexivity.
    + rewrite grid_step_out by exact Hge.
      cbn [map filter build_from]. unfold ret. cbn [fst snd].
      rewrite app_nil_r. reflexivity.
Qed.

(** The outer loop, given enough fuel, builds the particles of the lit grid
    pixels from row [SAMPLE_STEP * j] on. *)
Lemma scan_rows_build (pixels : list Z) (pw ph : nat) :
  forall (fuel j : nat) (acc : list Particle) (w : World),
  (ph <= SAMPLE_STEP * (j + fuel))%nat ->
  let pts := flat_map (row_points pixels pw)
               (map (fun k => (SAMPLE_STEP * k)%nat)
                    (seq j ((ph + 5) / SAMPLE_STEP - j))) in
  scan_rows rnd fuel pixels pw ph (SAMPLE_STEP * j) acc w
  = (acc ++ fst (build_from rnd pts w), snd (build_from rnd pts w)).
Proof.
  induction fuel as [| fuel IH]; intros j acc w Hfuel; cbv zeta.
  - rewrite grid_step_out by lia.
    cbn [map flat_map build_from scan_rows]. unfold ret. cbn [fst snd].
    rewrite app_nil_r. reflexivity.
  - cbn [scan_rows].
    destruct (Nat.ltb_spec (SAMPLE_STEP * j) ph) as [Hlt | Hge].
    + rewrite grid_step_in by exact Hlt. cbn [map flat_map].
      replace (SAMPLE_STEP * j + SAMPLE_STEP)%nat with (SAMPLE_STEP * S j)%nat
        by lia.
      unfold bind at 1.
      pose proof (scan_row_build pixels pw (SAMPLE_STEP * j) pw 0 acc w) as Hrow.
      cbv zeta in Hrow. rewrite Nat.mul_0_r, Nat.sub_0_r in Hrow.
      rewrite Hrow by (unfold SAMPLE_STEP; lia).
      fold (grid pw). fold (row_points pixels pw (SAMPLE_STEP * j)).
      rewrite IH by lia. cbv zeta.
      rewrite build_from_app. cbn [fst snd].
      rewrite <- app_assoc. reflexivity.
    + rewrite grid_step_out by exact Hge.
      cbn [map flat_map build_from]. unfold ret. cbn [fst snd].
      rewrite app_nil_r. reflexivity.
Qed.

(** The Particle Sampler builds one particle for each lit pixel of the
    sampling grid, in row order. *)
Lemma sampleParticles_build (pixels : list Z) (pw ph : nat) (w : World) :
  sampleParticles rnd pixels pw ph w
  = build_from rnd (sample_points pixels pw ph) w.
Proof.
  unfold sampleParticles.
  pose proof (scan_rows_build pixels pw ph ph 0 [] w) as H.
  cbv zeta in H. rewrite Nat.mul_0_r, Nat.sub_0_r in H.
  rewrite H by (unfold SAMPLE_STEP; lia).
  fold (grid ph). fold (sample_points pixels pw ph).
  cbn [app]. destruct (build_from rnd _ w). reflexivity.
Qed.

(** Where [build_from] puts its vectors: each particle gets the next two
    free references. *)
Lemma build_from_layout (pts : list (nat * nat)) :
  forall (h : Heap) (sd : nat),
  let ps := fst (build_from rnd pts (mkWorld h sd)) in
  let w' := snd (build_from rnd pts (mkWorld h sd)) in
  particle_refs ps = seq (length h) (2 * length pts)
  /\ length (heap w') = (length h + 2 * length pts)%nat
  /\ seed w' = (sd + 4 * length pts)%nat.
Proof.
  induction pts as [| [x y] pts IH]; intros h sd; cbv zeta.
  - cbn [build_from]. unfold ret. cbn [fst snd heap seed length].
    repeat split; try reflexivity; lia.
  - cbn [build_from]. unfold bind. rewrite makeParticle_eq. cbv zeta.
    set (h1 := h ++ _).
    specialize (IH h1 (S (S (S (S sd))))). cbv zeta in IH.
    destruct (build_from rnd pts (mkWorld h1 (S (S (S (S sd)))))) as [ps w'].
    unfold ret. cbn [fst snd] in *.
    destruct IH as (Hrefs & Hlen & Hseed).
    assert (Hlen1 : length h1 = S (S (length h)))
      by (unfold h1; rewrite length_app; cbn [length]; lia).
    split; [| split].
    + unfold particle_refs in *. cbn [flat_map home pos app].
      rewrite Hrefs, Hlen1. cbn [length].
      replace (2 * S (length pts))%nat with (S (S (2 * length pts))) by lia.
      reflexivity.
    + rewrite Hlen, Hlen1. cbn [length]. lia.
    + rewrite Hseed. cbn [length]. lia.
Qed.

Lemma build_from_wf (pts : list (nat * nat)) (w : World) :
  wf_particles (fst (build_from rnd pts w))
               (heap (snd (build_from rnd pts w))).
Proof.
  destruct w as [h sd].
  pose proof (build_from_layout pts h sd) as H. cbv zeta in H.
  destruct H as (Hrefs & Hlen & _).
  unfold wf_particles. rewrite Hrefs, Hlen. split; [apply seq_NoDup |].
  apply Forall_forall. intros r Hr. apply in_seq in Hr. lia.
Qed.

End SamplerFacts.

Lemma Forall2_Forall_r {A B : Type} (P : A -> B -> Prop) (Q : B -> Prop)
    (l1 : list A) (l2 : list B) :
  Forall2 P l1 l2 -> (forall a b, In a l1 -> P a b -> Q b) -> Forall Q l2.
Proof.
  induction 1 as [| a b l1 l2 Hab _ IH]; intros HPQ; constructor.
  - apply (HPQ a b); [left; reflexivity | exact Hab].
  - apply IH. intros a' b' Hin. apply HPQ. right. exact Hin.
Qed.

Lemma lit_spec (pixels : list Z) (idx : nat) :
  lit pixels idx = true <->
  exists r g b a,
    nth_error pixels idx = Some r /\ nth_error pixels (idx + 1) = Some g
    /\ nth_error pixels (idx + 2) = Some b
    /\ nth_error pixels (idx + 3) = Some a
    /\ (10 < a)%Z /\ (500 < r + g + b)%Z.
Proof.
  unfold lit. rewrite Nat.add_0_r. split.
  - destruct (nth_error pixels idx) as [r |]; [| discriminate].
    destruct (nth_error pixels (idx + 1)) as [g |]; [| discriminate].
    destruct (nth_error pixels (idx + 2)) as [b |]; [| discriminate].
    destruct (nth_error pixels (idx + 3)) as [a |]; [| discriminate].
    intros H. apply andb_prop in H as [Ha Hs].
    exists r, g, b, a. repeat split; try reflexivity; lia.
  - intros (r & g & b & a & -> & -> & -> & -> & Ha & Hs).
    apply andb_true_intro. split; lia.
Qed.

Lemma sample_points_spec (pixels : list Z) (pw ph x y : nat) :
  In (x, y) (sample_points pixels pw ph) <->
  (x mod SAMPLE_STEP = 0 /\ y mod SAMPLE_STEP = 0 /\ x < pw /\ y < ph)%nat
  /\ lit pixels (4 * (y * pw + x)) = true.
Proof.
  unfold sample_points, row_points. rewrite in_flat_map. split.
  - intros (y' & Hy & Hin). apply in_map_iff in Hin as (x' & E & Hx).
    injection E as -> ->. apply filter_In in Hx as [Hx Hl].
    apply grid_spec in Hx, Hy. tauto.
  - intros ((Hxm & Hym & Hx & Hy) & Hl). exists y.
    split; [apply grid_spec; tauto |].
    apply in_map_iff. exists x. split; [reflexivity |].
    apply filter_In. split; [apply grid_spec; tauto | exact Hl].
Qed.

Lemma sample_points_NoDup (pixels : list Z) (pw ph : nat) :
  NoDup (sample_points pixels pw ph).
Proof.
  unfold sample_points.
  pose proof (grid_NoDup ph) as Hnd.
  induction (grid ph) as [| y ys IH]; cbn [flat_map]; [constructor |].
  inversion Hnd as [| ? ? Hy Hys]; subst.
  apply NoDup_app.
  - unfold row_points. apply Injective_map_NoDup.
    + intros a b E. congruence.
    + apply NoDup_filter. apply grid_NoDup.
  - apply IH. exact Hys.
  - intros [x y'] Hin1 Hin2. unfold row_points in Hin1.
    apply in_map_iff in Hin1 as (x' & E & _). injection E as -> ->.
    apply in_flat_map in Hin2 as (y2 & Hy2 & Hin2). unfold row_points in Hin2.
    apply in_map_iff in Hin2 as (x2 & E & _). injection E as -> ->.
    contradiction.
Qed.

Section SamplerProperties.

Variable rnd : nat -> R.
Hypothesis rnd_range : forall k, 0 <= rnd k < 1.

Lemma build_from_spec (pts : list (nat * nat)) :
  forall (h : Heap) (sd : nat),
  let ps := fst (build_from rnd pts (mkWorld h sd)) in
  let w' := snd (build_from rnd pts (mkWorld h sd)) in
  Forall2 (fun pt p => made_at (heap w') (fst pt) (snd pt) p) pts ps
  /\ particle_refs ps = seq (length h) (2 * length pts)
  /\ (exists ext, heap w' = h ++ ext /\ length ext = (2 * length pts)%nat)
  /\ seed w' = (sd + 4 * length pts)%nat.
Proof.
  induction pts as [| [x y] pts IH]; intros h sd; cbv zeta.
  - cbn [build_from]. unfold ret. cbn [fst snd heap seed length].
    split; [constructor |]. split; [reflexivity |].
    split; [exists []; split; [symmetry; apply app_nil_r | reflexivity] | lia].
  - cbn [build_from]. unfold bind. rewrite makeParticle_eq. cbv zeta.
    set (jitter := rnd sd * (2 - - 2) + - 2).
    set (h1 := h ++ [mkVec (INR x) (INR y);
                     mkVec (INR x + jitter) (INR y + jitter)]).
    specialize (IH h1 (S (S (S (S sd))))). cbv zeta in IH.
    destruct (build_from rnd pts (mkWorld h1 (S (S (S (S sd)))))) as [ps w'].
    unfold ret. cbn [fst snd] in *.
    destruct IH as (Hall & Hrefs & (ext & Hheap & Hext) & Hseed).
    assert (Hlen1 : length h1 = S (S (length h)))
      by (unfold h1; rewrite length_app; cbn [length]; lia).
    split; [| split; [| split]].
    + constructor; [| exact Hall].
      unfold made_at. cbn [fst snd home pos size theta rand].
      rewrite Hheap. unfold h1. rewrite <- app_assoc. cbn [app].
      split.
      { rewrite <- (Nat.add_0_r (length h)).
        rewrite deref_app_at. reflexivity. }
      split.
      { exists jitter. split.
        - unfold jitter. pose proof (rnd_range sd). lra.
        - replace (S (length h)) with (length h + 1)%nat by lia.
          rewrite deref_app_at. reflexivity. }
      pose proof (rnd_range (S sd)). pose proof (rnd_range (S (S sd))).
      pose proof (rnd_range (S (S (S sd)))). pose proof PI_RGT_0.
      unfold TWO_PI. repeat split; try lra; nra.
    + unfold particle_refs in *. cbn [flat_map home pos app].
      rewrite Hrefs, Hlen1. cbn [length].
      replace (2 * S (length pts))%nat with (S (S (2 * length pts))) by lia.
      reflexivity.
    + exists ([mkVec (INR x) (INR y); mkVec (INR x + jitter) (INR y + jitter)]
              ++ ext).
      split.
      * rewrite Hheap. unfold h1. rewrite <- app_assoc. reflexivity.
      * rewrite length_app, Hext. cbn [length]. lia.
    + rewrite Hseed. cbn [length]. lia.
Qed.

(** C6 (amended): the Particle Sampler visits the pixels whose coordinates
    are multiples of [SAMPLE_STEP] in both axes and builds exactly one
    particle for each visited pixel whose alpha exceeds 10 and whose
    channels sum to more than 500, in row order.  Every particle's home is
    such a pixel, hence inside the canvas, and its position is the home
    moved by one jitter in [[-2, 2)] in both axes.  The particle set is
    non-empty exactly when some visited pixel is lit. *)
Theorem C6_particle_sampler (pixels : list Z) (pw ph : nat) (w : World) :
  let ps := fst (sampleParticles rnd pixels pw ph w) in
  let w' := snd (sampleParticles rnd pixels pw ph w) in
  Forall2 (fun pt p => made_at (heap w') (fst pt) (snd pt) p)
          (sample_points pixels pw ph) ps
  /\ (forall x y,
        In (x, y) (sample_points pixels pw ph) <->
        (x mod SAMPLE_STEP = 0 /\ y mod SAMPLE_STEP = 0
         /\ x < pw /\ y < ph)%nat
        /\ lit pixels (4 * (y * pw + x)) = true)
  /\ NoDup (sample_points pixels pw ph)
  /\ (forall idx,
        lit pixels idx = true <->
        exists r g b a,
          nth_error pixels idx = Some r
          /\ nth_error pixels (idx + 1) = Some g
          /\ nth_error pixels (idx + 2) = Some b
          /\ nth_error pixels (idx + 3) = Some a
          /\ (10 < a)%Z /\ (500 < r + g + b)%Z)
  /\ Forall (fun p =>
               0 <= vx (deref (heap w') (home p)) < INR pw
               /\ 0 <= vy (deref (heap w') (home p)) < INR ph
               /\ exists jitter, - 2 <= jitter < 2
                    /\ vx (deref (heap w') (pos p))
                       = vx (deref (heap w') (home p)) + jitter
                    /\ vy (deref (heap w') (pos p))
                       = vy (deref (heap w') (home p)) + jitter) ps
  /\ (ps <> [] <-> exists x y, In (x, y) (sample_points pixels pw ph))
  /\ wf_particles ps (heap w').
Proof.
  cbv zeta. rewrite sampleParticles_build.
  destruct w as [h sd].
  pose proof (build_from_spec (sample_points pixels pw ph) h sd) as H.
  cbv zeta in H. destruct H as (Hall & _).
  split; [exact Hall |].
  split; [intros x y; apply sample_points_spec |].
  split; [apply sample_points_NoDup |].
  split; [apply lit_spec |].
  split; [| split; [| apply (build_from_wf rnd _ (mkWorld h sd))]].
  - eapply Forall2_Forall_r; [exact Hall |].
    intros [x y] p Hin (Hhome & (jitter & Hj & Hpos) & _).
    cbn [fst snd] in *. apply sample_points_spec in Hin as ((_ & _ & Hx & Hy) & _).
    rewrite Hhome, Hpos. cbn [vx vy].
    split; [split; [apply pos_INR | apply lt_INR; exact Hx] |].
    split; [split; [apply pos_INR | apply lt_INR; exact Hy] |].
    exists jitter. repeat split; try reflexivity; lra.
  - apply Forall2_length in Hall.
    destruct (sample_points pixels pw ph) as [| [x y] pts];
      destruct (fst (build_from rnd _ _)) as [| p ps];
      cbn [length] in Hall; try discriminate Hall.
    + split; [intros H; contradiction H; reflexivity |].
      intros (x & y & []).
    + split; [| intros _; discriminate].
      intros _. exists x, y. left. reflexivity.
Qed.

End SamplerProperties.

(** Two lit pixels in one row of a 7 by 1 buffer. *)
Lemma C6_particle_sampler_witness :
  let rnd := fun _ : nat => 1 / 2 in
  let white := [255; 255; 255; 255]%Z in
  let black := [0; 0; 0; 255]%Z in
  let pixels := white ++ black ++ black ++ black ++ black ++ black ++ white in
  let pw := 7%nat in
  let ph := 1%nat in
  let w := mkWorld [] 0 in
  let ps := fst (sampleParticles rnd pixels pw ph w) in
  let w' := snd (sampleParticles rnd pixels pw ph w) in
  Forall2 (fun pt p => made_at (heap w') (fst pt) (snd pt) p)
          (sample_points pixels pw ph) ps
  /\ (forall x y,
        In (x, y) (sample_points pixels pw ph) <->
        (x mod SAMPLE_STEP = 0 /\ y mod SAMPLE_STEP = 0
         /\ x < pw /\ y < ph)%nat
        /\ lit pixels (4 * (y * pw + x)) = true)
  /\ NoDup (sample_points pixels pw ph)
  /\ (forall idx,
        lit pixels idx = true <->
        exists r g b a,
          nth_error pixels idx = Some r
          /\ nth_error pixels (idx + 1) = Some g
          /\ nth_error pixels (idx + 2) = Some b
          /\ nth_error pixels (idx + 3) = Some a
          /\ (10 < a)%Z /\ (500 < r + g + b)%Z)
  /\ Forall (fun p =>
               0 <= vx (deref (heap w') (home p)) < INR pw
               /\ 0 <= vy (deref (heap w') (home p)) < INR ph
               /\ exists jitter, - 2 <= jitter < 2
                    /\ vx (deref (heap w') (pos p))
                       = vx (deref (heap w') (home p)) + jitter
                    /\ vy (deref (heap w') (pos p))
                       = vy (deref (heap w') (home p)) + jitter) ps
  /\ (ps <> [] <-> exists x y, In (x, y) (sample_points pixels pw ph))
  /\ wf_particles ps (heap w').
Proof.
  apply (C6_particle_sampler (fun _ => 1 / 2)). intros _. lra.
Defined.

Example sample_points_two_lit :
  sample_points ([255; 255; 255; 255] ++ [0; 0; 0; 255] ++ [0; 0; 0; 255]
                 ++ [0; 0; 0; 255] ++ [0; 0; 0; 255] ++ [0; 0; 0; 255]
                 ++ [255; 255; 255; 255])%Z 7 1
  = [(0, 0); (6, 0)]%nat.
Proof. reflexivity. Qed.

(** C6 fails as stated: on a 12 by 12 buffer in which the text left no lit
    pixel on the sampling grid (here: none at all, the buffer is as
    [pg.background(0)] left it) the Particle Sampler returns no particle; and
    on a canvas of width 0 the loops never run, whatever the text. *)
Lemma C6_counterexample :
  let rnd := fun _ : nat => 1 / 2 in
  let pixels := background_pixels 12 12 in
  length pixels = (4 * 12 * 12)%nat
  /\ fst (sampleParticles rnd pixels 12 12 (mkWorld [] 0)) = []
  /\ fst (sampleParticles rnd [] 0 600 (mkWorld [] 0)) = [].
Proof.
  cbv zeta. split; [reflexivity |].
  rewrite !sampleParticles_build.
  replace (sample_points (background_pixels 12 12) 12 12)
    with (@nil (nat * nat)) by (vm_compute; reflexivity).
  replace (sample_points [] 0 600)
    with (@nil (nat * nat)) by (vm_compute; reflexivity).
  split; reflexivity.
Qed.

(** ** What a frame leaves alone *)

Lemma particle_refs_home_pos (ps : list Particle) (p : Particle) :
  In p ps -> In (home p) (particle_refs ps) /\ In (pos p) (particle_refs ps).
Proof.
  intros Hin. unfold particle_refs.
  split; apply in_flat_map; exists p; (split; [exact Hin |]);
    [left | right; left]; reflexivity.
Qed.

Lemma pos_in_refs (ps : list Particle) (r : ref) :
  In r (map pos ps) -> In r (particle_refs ps).
Proof.
  intros H. apply in_map_iff in H as (p & <- & Hp).
  apply (particle_refs_home_pos ps p Hp).
Qed.

(** In a well-formed particle set no home vector is the position vector of
    any particle. *)
Lemma home_not_pos (ps : list Particle) (p : Particle) :
  NoDup (particle_refs ps) -> In p ps -> ~ In (home p) (map pos ps).
Proof.
  induction ps as [| q ps IH]; intros Hnd Hin; [contradiction |].
  unfold particle_refs in Hnd. cbn [flat_map app] in Hnd.
  fold (particle_refs ps) in Hnd.
  inversion Hnd as [| ? ? Hh Hnd1]; subst.
  inversion Hnd1 as [| ? ? Hp Hnd2]; subst.
  cbn [map]. intros [E | Hin2].
  - destruct Hin as [-> | Hin].
    + apply Hh. left. exact E.
    + apply Hp. rewrite E. apply (particle_refs_home_pos ps p Hin).
  - destruct Hin as [-> | Hin].
    + apply Hh. right. apply pos_in_refs. exact Hin2.
    + apply (IH Hnd2 Hin Hin2).
Qed.

Section FrameFacts.

Variable rnd : nat -> R.
Variable noise : R -> R -> R -> R.
Variable rasterize : string -> nat -> nat -> list Z.

(** The loop over the particles writes position vectors only. *)
Lemma update_all_frame (t tri exhale : R) (ps : list Particle) :
  forall w : World,
  wf_particles ps (heap w) ->
  let w' := snd (update_all noise t tri exhale ps w) in
  length (heap w') = (length (heap w) + 3 * length ps)%nat
  /\ seed w' = seed w
  /\ (forall r, (r < length (heap w))%nat -> ~ In r (map pos ps) ->
        deref (heap w') r = deref (heap w) r).
Proof.
  induction ps as [| p ps IH]; intros w [Hnd Hall]; cbv zeta.
  - cbn [update_all]. unfold ret. cbn [snd length]. repeat split; auto; lia.
  - unfold particle_refs in Hnd, Hall. cbn [flat_map app] in Hnd, Hall.
    fold (particle_refs ps) in Hnd, Hall.
    inversion Hnd as [| ? ? Hh Hnd1]; subst.
    inversion Hnd1 as [| ? ? Hp Hnd2]; subst.
    inversion Hall as [| ? ? Hhl Hall1]; subst.
    inversion Hall1 as [| ? ? Hpl Hall2]; subst.
    assert (Hne : home p <> pos p)
      by (intros E; apply Hh; left; symmetry; exact E).
    pose proof (update_particle_spec noise t tri exhale p w Hhl Hpl Hne) as Hs.
    cbv zeta in Hs. destruct Hs as (_ & Hseed & Hlen & _ & Hframe).
    cbn [update_all]. unfold bind.
    destruct (update_particle noise t tri exhale p w) as [c w1].
    cbn [snd] in Hseed, Hlen, Hframe.
    assert (Hwf1 : wf_particles ps (heap w1)).
    { split; [exact Hnd2 |].
      eapply Forall_impl; [| exact Hall2]. intros r Hr. cbn beta in *. lia. }
    specialize (IH w1 Hwf1). cbv zeta in IH.
    destruct (update_all noise t tri exhale ps w1) as [cs w2].
    unfold ret. cbn [snd] in *. destruct IH as (Hlen2 & Hseed2 & Hframe2).
    split; [cbn [length]; lia |]. split; [congruence |].
    intros r Hr Hnot. cbn [map] in Hnot.
    rewrite Hframe2; [apply Hframe; [exact Hr |] | lia |].
    + intros E. apply Hnot. left. symmetry. exact E.
    + intros Hin. apply Hnot. right. exact Hin.
Qed.

Lemma wf_particles_grow (ps : list Particle) (h h' : Heap) :
  (length h <= length h')%nat -> wf_particles ps h -> wf_particles ps h'.
Proof.
  intros Hle [Hnd Hall]. split; [exact Hnd |].
  eapply Forall_impl; [| exact Hall]. intros r Hr. cbn beta in *. lia.
Qed.

Lemma buildTextParticles_wf (s : Sketch) :
  let s' := buildTextParticles rnd rasterize s in
  wf_particles (particles s') (heap (world s')).
Proof.
  cbv zeta. unfold buildTextParticles.
  pose proof (build_from_wf rnd
    (sample_points (rasterize (DISPLAY_TEXT (config s)) (width s) (height s))
                   (width s) (height s)) (world s)) as H.
  rewrite <- sampleParticles_build in H.
  destruct (sampleParticles rnd _ _ _ _) as [ps w'].
  cbn [particles world fst snd] in *. exact H.
Qed.

Lemma buildTextParticles_ready (s : Sketch) :
  frame_ready (buildTextParticles rnd rasterize s).
Proof.
  split; [apply buildTextParticles_wf | apply buildTextParticles_synced].
Qed.

(** A frame on such a state rebuilds nothing and writes position vectors
    only. *)
Lemma draw_frame (ms ms' : R) (s : Sketch) :
  frame_ready s ->
  let s' := fst (draw rnd noise rasterize ms ms' s) in
  frame_ready s'
  /\ particles s' = particles s
  /\ builds s' = builds s
  /\ (length (heap (world s)) <= length (heap (world s')))%nat
  /\ (forall r, (r < length (heap (world s)))%nat ->
        ~ In r (map pos (particles s)) ->
        deref (heap (world s')) r = deref (heap (world s)) r).
Proof.
  intros [Hwf Hkey]. cbv zeta.
  pose proof (draw_synced rnd noise rasterize ms ms' s) as Hd.
  cbv zeta in Hd. destruct Hd as (Hk' & _ & Hb & Hp).
  rewrite Hkey, String.eqb_refl in Hb. specialize (Hp (eq_sym Hkey)).
  assert (Hw : world (fst (draw rnd noise rasterize ms ms' s))
               = snd (update_all noise (ms / 1000)
                        (Breath.tri (Q2R (BREATH_SECONDS (config s)))
                                    (ms / 1000))
                        (Breath.exhale (Q2R (BREATH_SECONDS (config s)))
                                       (ms / 1000))
                        (particles s) (world s))).
  { unfold draw. fold (currentKey s). rewrite <- Hkey, String.eqb_refl.
    destruct (update_all noise _ _ _ _ _) as [cs w']. reflexivity. }
  pose proof (update_all_frame (ms / 1000)
                (Breath.tri (Q2R (BREATH_SECONDS (config s))) (ms / 1000))
                (Breath.exhale (Q2R (BREATH_SECONDS (config s))) (ms / 1000))
                (particles s) (world s) Hwf) as Hf.
  cbv zeta in Hf. rewrite <- Hw in Hf. destruct Hf as (Hlen & _ & Hframe).
  split; [split |].
  - rewrite Hp. apply (wf_particles_grow _ (heap (world s))); [lia | exact Hwf].
  - exact Hk'.
  - split; [exact Hp |]. split; [exact Hb |]. split; [lia | exact Hframe].
Qed.

(** In such a state every particle meets what the loop body relies on. *)
Lemma frame_ready_particle (s : Sketch) (p : Particle) :
  frame_ready s -> In p (particles s) ->
  (home p < length (heap (world s)))%nat
  /\ (pos p < length (heap (world s)))%nat
  /\ home p <> pos p.
Proof.
  intros [[Hnd Hall] _] Hin.
  destruct (particle_refs_home_pos _ p Hin) as [Hh Hp].
  rewrite Forall_forall in Hall.
  split; [apply Hall; exact Hh |]. split; [apply Hall; exact Hp |].
  intros E. apply (home_not_pos _ p Hnd Hin). rewrite E.
  apply in_map. exact Hin.
Qed.

Lemma handle_ready (e : Event) (s : Sketch) :
  frame_ready s -> frame_ready (handle rnd noise rasterize e s).
Proof.
  intros Hs. destruct e as [key | w h]; cbn [handle].
  - unfold keyTyped. destruct (String.eqb key "r"); [| exact Hs].
    destruct (random_range rnd 1 9999 (world s)) as [v w'].
    apply buildTextParticles_ready.
  - apply buildTextParticles_ready.
Qed.

Lemma run_ready (steps : list Step) (s : Sketch) :
  frame_ready s -> frame_ready (run rnd noise rasterize steps s).
Proof.
  unfold run. revert s. induction steps as [| st steps IH]; intros s Hs;
    cbn [fold_left]; [exact Hs |].
  apply IH. destruct st as [ms ms' | e]; cbn [step].
  - apply (draw_frame ms ms' s Hs).
  - apply handle_ready. exact Hs.
Qed.

Lemma setup_ready (n d b : option string) (w h : nat) (ms : R) :
  frame_ready (setup rnd rasterize n d b w h ms).
Proof. apply buildTextParticles_ready. Qed.

(** Any number of frames in a row. *)
Lemma frames_frame (frames : list (R * R)) :
  forall s : Sketch,
  frame_ready s ->
  let s' := run rnd noise rasterize
              (map (fun f => Frame_at (fst f) (snd f)) frames) s in
  particles s' = particles s
  /\ builds s' = builds s
  /\ (length (heap (world s)) <= length (heap (world s')))%nat
  /\ (forall r, (r < length (heap (world s)))%nat ->
        ~ In r (map pos (particles s)) ->
        deref (heap (world s')) r = deref (heap (world s)) r).
Proof.
  unfold run. induction frames as [| [ms ms'] frames IH]; intros s Hs;
    cbv zeta; cbn [map fold_left step fst snd].
  - repeat split; auto.
  - destruct (draw_frame ms ms' s Hs) as (Hr1 & Hp1 & Hb1 & Hl1 & Hf1).
    specialize (IH _ Hr1). cbv zeta in IH.
    destruct IH as (Hp2 & Hb2 & Hl2 & Hf2).
    split; [congruence |]. split; [congruence |]. split; [lia |].
    intros r Hr Hnot. rewrite Hf2; [apply Hf1; assumption | lia |].
    rewrite Hp1. exact Hnot.
Qed.

End FrameFacts.

(** C9: in every state the sketch reaches after [setup], through frames and
    events in any order, any number of further frames leave the particle
    objects as they are (the same [size], [theta] and [rand], the same home
    and position vectors), rebuild nothing, leave the value of every home
    vector unchanged, and write to no vector of the store other than the
    particles' position vectors. *)
Theorem C9_only_pos_changes :
  forall (rnd : nat -> R) (noise : R -> R -> R -> R)
         (rasterize : string -> nat -> nat -> list Z)
         (n d b : option string) (w h : nat) (ms0 : R)
         (steps : list Step) (frames : list (R * R)),
  let s := run rnd noise rasterize steps (setup rnd rasterize n d b w h ms0) in
  let s' := run rnd noise rasterize
              (map (fun f => Frame_at (fst f) (snd f)) frames) s in
  particles s' = particles s
  /\ map size (particles s') = map size (particles s)
  /\ map theta (particles s') = map theta (particles s)
  /\ map rand (particles s') = map rand (particles s)
  /\ builds s' = builds s
  /\ (forall p, In p (particles s) ->
        home p <> pos p
        /\ deref (heap (world s')) (home p) = deref (heap (world s)) (home p))
  /\ (forall r, (r < length (heap (world s)))%nat ->
        ~ In r (map pos (particles s)) ->
        deref (heap (world s')) r = deref (heap (world s)) r).
Proof.
  intros rnd noise rasterize n d b w h ms0 steps frames. cbv zeta.
  set (s := run rnd noise rasterize steps (setup rnd rasterize n d b w h ms0)).
  assert (Hs : frame_ready s)
    by (apply run_ready, setup_ready).
  destruct (frames_frame rnd noise rasterize frames s Hs)
    as (Hp & Hb & Hl & Hf).
  split; [exact Hp |]. rewrite Hp.
  split; [reflexivity |]. split; [reflexivity |]. split; [reflexivity |].
  split; [exact Hb |]. split; [| exact Hf].
  intros p Hin. destruct Hs as [[Hnd Hall] _].
  pose proof (home_not_pos _ p Hnd Hin) as Hnot.
  split.
  - intros E. apply Hnot. rewrite E. apply in_map. exact Hin.
  - apply Hf; [| exact Hnot].
    rewrite Forall_forall in Hall. apply Hall.
    apply (particle_refs_home_pos _ p Hin).
Qed.

(** * Further properties of the sketch *)

(** ** The breath over time *)

Lemma fmod_add_period (a b : R) : 0 <= a -> 0 < b -> fmod (a + b) b = fmod a b.
Proof.
  intros Ha Hb. unfold fmod.
  assert (Hq : 0 <= a / b).
  { apply Rmult_le_pos; [lra | left; apply Rinv_0_lt_compat; lra]. }
  replace ((a + b) / b) with (a / b + IZR 1) by (field; lra).
  rewrite !Rtrunc_nonneg by lra.
  rewrite Zfloor_addz, plus_IZR. lra.
Qed.

Lemma phase_small (h t : R) :
  0 < h -> 0 <= t < 2 * h -> Breath.phase h t = t / (2 * h).
Proof.
  intros Hh Ht. unfold Breath.phase, Breath.period.
  rewrite fmod_small by lra. field. lra.
Qed.

(** X1: the breath is a linear ramp up over the inhale and down over the
    exhale, and repeats with period [2h]: for [0 <= t <= h] the triangle value
    is [t / h], for [h <= t < 2h] it is [2 - t / h], and shifting the time by
    any whole number of periods changes neither [tri] nor [exhale]. *)
Theorem X1_breath_linear_periodic (h t : R) (n : nat)
    (Hh : 0 < h) (Ht : 0 <= t) :
  (t <= h -> Breath.tri h t = t / h)
  /\ (h <= t < 2 * h -> Breath.tri h t = 2 - t / h)
  /\ Breath.tri h (t + INR n * (2 * h)) = Breath.tri h t
  /\ Breath.exhale h (t + INR n * (2 * h)) = Breath.exhale h t.
Proof.
  assert (Hper : Breath.tri h (t + INR n * (2 * h)) = Breath.tri h t).
  { induction n as [| n IH].
    - cbn [INR]. f_equal. lra.
    - rewrite S_INR.
      replace (t + (INR n + 1) * (2 * h)) with (t + INR n * (2 * h) + h * 2)
        by lra.
      rewrite <- IH. unfold Breath.tri, Breath.phase, Breath.period.
      rewrite fmod_add_period; [reflexivity | | lra].
      pose proof (pos_INR n). nra. }
  assert (Et : t = t / (2 * h) * (2 * h)) by (field; lra).
  split; [| split; [| split]].
  - intros Hle. unfold Breath.tri. rewrite phase_small by lra.
    unfold Breath.tri_of_phase.
    destruct (Rlt_dec (t / (2 * h)) (1 / 2)) as [Hlt | Hge].
    + field. lra.
    + assert (E : t = h).
      { apply Rnot_lt_le in Hge. set (q := t / (2 * h)) in *. nra. }
      rewrite E. field. lra.
  - intros Hr. unfold Breath.tri. rewrite phase_small by lra.
    unfold Breath.tri_of_phase.
    destruct (Rlt_dec (t / (2 * h)) (1 / 2)) as [Hlt | Hge].
    + exfalso. set (q := t / (2 * h)) in *. nra.
    + field. lra.
  - exact Hper.
  - unfold Breath.exhale. rewrite Hper. reflexivity.
Qed.

(** The default breath of 8 seconds, 3 seconds in and five periods later. *)
Lemma X1_breath_linear_periodic_witness :
  (3 <= 8 -> Breath.tri 8 3 = 3 / 8)
  /\ (8 <= 3 < 2 * 8 -> Breath.tri 8 3 = 2 - 3 / 8)
  /\ Breath.tri 8 (3 + INR 5 * (2 * 8)) = Breath.tri 8 3
  /\ Breath.exhale 8 (3 + INR 5 * (2 * 8)) = Breath.exhale 8 3.
Proof. apply (X1_breath_linear_periodic 8 3 5); lra. Defined.

(** ** The Motion Integrator step *)

Lemma easing_range (exhale : R) :
  0 <= exhale <= 1 -> 8 / 100 <= easing exhale <= 82 / 100.
Proof.
  intros He. unfold easing, lerp, INHALE_TIGHTNESS. split; lra.
Qed.

(** A displacement that is [k] times another is [k] times as long. *)
Lemma dist_scaled (a b c d : Vec) (k : R) :
  0 <= k ->
  vx a - vx b = k * (vx c - vx d) -> vy a - vy b = k * (vy c - vy d) ->
  dist a b = k * dist c d.
Proof.
  intros Hk Hx Hy. unfold dist. rewrite Hx, Hy.
  replace (k * (vx c - vx d) * (k * (vx c - vx d))
           + k * (vy c - vy d) * (k * (vy c - vy d)))
    with (k * k * ((vx c - vx d) * (vx c - vx d)
                   + (vy c - vy d) * (vy c - vy d))) by ring.
  rewrite sqrt_mult; [| nra | apply sum_sq_nonneg].
  rewrite sqrt_square by exact Hk. reflexivity.
Qed.

Section StepFacts.

Variable noise : R -> R -> R -> R.

(** The vector [target] the loop body leaves in the store. *)
Lemma update_particle_target (t tri exhale : R) (p : Particle) (w : World) :
  (home p < length (heap w))%nat -> (pos p < length (heap w))%nat ->
  home p <> pos p ->
  deref (heap (snd (update_particle noise t tri exhale p w)))
        (length (heap w) + 2)%nat
  = target noise (deref (heap w) (home p)) (theta p) (rand p) t exhale.
Proof.
  intros Hh Hp Hne. destruct w as [h sd]. cbn [heap seed] in *.
  rewrite update_particle_eq by assumption. cbn [snd heap].
  rewrite deref_store_app_at. reflexivity.
Qed.

(** X2: for [exhale] in [[0,1]] one step of the loop body moves the particle
    along the straight line toward the stored target and keeps the fraction
    [1 - easing] of its offset from it, a fraction between 0.18 and 0.92: the
    particle ends strictly closer to the target than it was, and never on the
    far side of it. *)
Theorem X2_step_contracts_toward_target
    (t tri exhale : R) (p : Particle) (w : World)
    (Hh : (home p < length (heap w))%nat)
    (Hp : (pos p < length (heap w))%nat)
    (Hne : home p <> pos p)
    (He : 0 <= exhale <= 1) :
  let ps := deref (heap w) (pos p) in
  let w' := snd (update_particle noise t tri exhale p w) in
  let new := deref (heap w') (pos p) in
  let tg := deref (heap w') (length (heap w) + 2)%nat in
  let keep := 1 - lerp (1 - INHALE_TIGHTNESS) (8 / 100) exhale in
  18 / 100 <= keep <= 92 / 100
  /\ vx new - vx tg = keep * (vx ps - vx tg)
  /\ vy new - vy tg = keep * (vy ps - vy tg)
  /\ dist new tg = keep * dist ps tg
  /\ (ps <> tg -> dist new tg < dist ps tg).
Proof.
  cbv zeta. rewrite update_particle_target by assumption.
  destruct (update_particle_spec noise t tri exhale p w Hh Hp Hne)
    as (_ & _ & _ & Hnew & _).
  cbv zeta in Hnew. rewrite Hnew. clear Hnew.
  set (hm := deref (heap w) (home p)). set (ps := deref (heap w) (pos p)).
  set (tg := target noise hm (theta p) (rand p) t exhale).
  pose proof (easing_range exhale He) as Hrange. unfold easing in Hrange.
  set (e := lerp (1 - INHALE_TIGHTNESS) (8 / 100) exhale) in *.
  assert (Hx : vx (integrate noise hm ps (theta p) (rand p) t exhale) - vx tg
               = (1 - e) * (vx ps - vx tg)).
  { unfold integrate, easing. cbn [vx]. fold tg e. unfold lerp. ring. }
  assert (Hy : vy (integrate noise hm ps (theta p) (rand p) t exhale) - vy tg
               = (1 - e) * (vy ps - vy tg)).
  { unfold integrate, easing. cbn [vy]. fold tg e. unfold lerp. ring. }
  assert (Hd : dist (integrate noise hm ps (theta p) (rand p) t exhale) tg
               = (1 - e) * dist ps tg)
    by (apply dist_scaled; [lra | exact Hx | exact Hy]).
  split; [lra |]. split; [exact Hx |]. split; [exact Hy |].
  split; [exact Hd |].
  intros Hneq. rewrite Hd. pose proof (dist_pos ps tg Hneq). nra.
Qed.

Hypothesis noise_range : forall x y z, 0 <= noise x y z <= 1.

(** X3: with noise values in [[0,1]], [rand] in [[0,1]] and [exhale] in
    [[0,1]], the target the loop body stores lies between [10.3 * exhale]
    and [37.3 * exhale] pixels from home: it is home itself when fully
    formed, and at full exhale it is never nearer than 10.3 nor farther than
    37.3 pixels. *)
Theorem X3_target_distance
    (t tri exhale : R) (p : Particle) (w : World)
    (Hh : (home p < length (heap w))%nat)
    (Hp : (pos p < length (heap w))%nat)
    (Hne : home p <> pos p)
    (Hrand : 0 <= rand p <= 1)
    (He : 0 <= exhale <= 1) :
  let hm := deref (heap w) (home p) in
  let w' := snd (update_particle noise t tri exhale p w) in
  let tg := deref (heap w') (length (heap w) + 2)%nat in
  103 / 10 * exhale <= dist tg hm <= 373 / 10 * exhale
  /\ (exhale = 0 -> tg = hm).
Proof.
  cbv zeta. rewrite update_particle_target by assumption.
  set (hm := deref (heap w) (home p)).
  pose proof (target_offset_bounds noise noise_range hm (theta p) (rand p) t
                exhale Hrand He) as Hb.
  cbv zeta in Hb. rewrite DRIFT_REACH_value in Hb.
  set (tg := target noise hm (theta p) (rand p) t exhale) in *.
  destruct Hb as [Hlo Hhi].
  assert (Hd : 103 / 10 * exhale <= dist tg hm <= 373 / 10 * exhale).
  { split; [apply dist_ge_bound | apply dist_le_bound]; try lra; assumption. }
  split; [exact Hd |].
  intros E0. rewrite E0 in Hd.
  assert (Hz : dist tg hm = 0) by lra.
  destruct (Req_dec (vx tg) (vx hm)) as [Ex | Ex];
    destruct (Req_dec (vy tg) (vy hm)) as [Ey | Ey];
    try (apply Vec_ext; assumption);
    exfalso;
    assert (Hneq : tg <> hm) by (intros E; rewrite E in *; auto);
    pose proof (dist_pos tg hm Hneq); lra.
Qed.

End StepFacts.

(** A particle at (-1, 0) with home (0, 0), a third of the way into the
    exhale. *)
Lemma X2_step_contracts_toward_target_witness :
  let noise := fun _ _ _ : R => 1 / 2 in
  let p := mkParticle 0%nat 1%nat 2 PI 0 in
  let w := mkWorld [mkVec 0 0; mkVec (- 1) 0] 0%nat in
  let exhale := 1 / 3 in
  let ps := deref (heap w) (pos p) in
  let w' := snd (update_particle noise 3 (2 / 3) exhale p w) in
  let new := deref (heap w') (pos p) in
  let tg := deref (heap w') (length (heap w) + 2)%nat in
  let keep := 1 - lerp (1 - INHALE_TIGHTNESS) (8 / 100) exhale in
  18 / 100 <= keep <= 92 / 100
  /\ vx new - vx tg = keep * (vx ps - vx tg)
  /\ vy new - vy tg = keep * (vy ps - vy tg)
  /\ dist new tg = keep * dist ps tg
  /\ (ps <> tg -> dist new tg < dist ps tg).
Proof.
  apply (X2_step_contracts_toward_target (fun _ _ _ => 1 / 2) 3 (2 / 3) (1 / 3)
           (mkParticle 0%nat 1%nat 2 PI 0)
           (mkWorld [mkVec 0 0; mkVec (- 1) 0] 0%nat));
    cbn [home pos heap length]; try lia; lra.
Defined.

Lemma X3_target_distance_witness :
  let noise := fun _ _ _ : R => 1 / 2 in
  let p := mkParticle 0%nat 1%nat 2 PI (1 / 4) in
  let w := mkWorld [mkVec 0 0; mkVec (- 1) 0] 0%nat in
  let exhale := 1 / 3 in
  let hm := deref (heap w) (home p) in
  let w' := snd (update_particle noise 3 (2 / 3) exhale p w) in
  let tg := deref (heap w') (length (heap w) + 2)%nat in
  103 / 10 * exhale <= dist tg hm <= 373 / 10 * exhale
  /\ (exhale = 0 -> tg = hm).
Proof.
  apply (X3_target_distance (fun _ _ _ => 1 / 2) (fun _ _ _ => ltac:(lra))
           3 (2 / 3) (1 / 3)
           (mkParticle 0%nat 1%nat 2 PI (1 / 4))
           (mkWorld [mkVec 0 0; mkVec (- 1) 0] 0%nat));
    cbn [home pos heap length rand]; try lia; lra.
Defined.

(** ** Whole frames *)

Lemma Forall2_impl_In {A B : Type} (P Q : A -> B -> Prop)
    (l1 : list A) (l2 : list B) :
  Forall2 P l1 l2 -> (forall a b, In a l1 -> P a b -> Q a b) ->
  Forall2 Q l1 l2.
Proof.
  induction 1 as [| a b l1 l2 Hab _ IH]; intros HPQ; constructor.
  - apply HPQ; [left; reflexivity | exact Hab].
  - apply IH. intros a' b' Hin. apply HPQ. right. exact Hin.
Qed.

Section WholeFrame.

Variable rnd : nat -> R.
Variable noise : R -> R -> R -> R.
Variable rasterize : string -> nat -> nat -> list Z.

(** The loop over a well-formed particle set: every particle is moved by one
    Motion Integrator step from where it was before the loop, and is drawn
    there. *)
Lemma update_all_positions (t tri exhale : R) (ps : list Particle) :
  forall w : World,
  wf_particles ps (heap w) ->
  let w' := snd (update_all noise t tri exhale ps w) in
  Forall2 (fun p c =>
             let new := integrate noise (deref (heap w) (home p))
                          (deref (heap w) (pos p)) (theta p) (rand p)
                          t exhale in
             c = mkCircle (vx new) (vy new) (size p) FG (alpha tri)
             /\ deref (heap w') (pos p) = new)
          ps (fst (update_all noise t tri exhale ps w)).
Proof.
  induction ps as [| p ps IH]; intros w Hwf; cbv zeta.
  - cbn [update_all]. unfold ret. cbn [fst]. constructor.
  - pose proof Hwf as [Hnd Hall].
    unfold particle_refs in Hnd, Hall. cbn [flat_map app] in Hnd, Hall.
    fold (particle_refs ps) in Hnd, Hall.
    inversion Hnd as [| ? ? Hh Hnd1]; subst.
    inversion Hnd1 as [| ? ? Hp Hnd2]; subst.
    inversion Hall as [| ? ? Hhl Hall1]; subst.
    inversion Hall1 as [| ? ? Hpl Hall2]; subst.
    assert (Hne : home p <> pos p)
      by (intros E; apply Hh; left; symmetry; exact E).
    pose proof (update_particle_spec noise t tri exhale p w Hhl Hpl Hne) as Hs.
    cbv zeta in Hs. destruct Hs as (Hc & _ & Hlen & Hnew & Hframe).
    assert (Hwf1 : wf_particles ps
                     (heap (snd (update_particle noise t tri exhale p w)))).
    { split; [exact Hnd2 |].
      eapply Forall_impl; [| exact Hall2]. intros r Hr. cbn beta in *. lia. }
    pose proof (update_all_frame noise t tri exhale ps _ Hwf1) as Hf.
    cbv zeta in Hf. destruct Hf as (_ & _ & Hframe2).
    specialize (IH _ Hwf1). cbv zeta in IH.
    cbn [update_all]. unfold bind.
    destruct (update_particle noise t tri exhale p w) as [c w1].
    cbn [fst snd] in *.
    destruct (update_all noise t tri exhale ps w1) as [cs w2].
    unfold ret. cbn [fst snd] in *.
    constructor.
    + split; [exact Hc |].
      rewrite Hframe2; [exact Hnew | lia |].
      intros Hin. apply Hp. apply pos_in_refs. exact Hin.
    + eapply Forall2_impl_In; [exact IH |].
      intros q c' Hq [Hc' Hpos']. cbv beta in *.
      destruct (particle_refs_home_pos ps q Hq) as [Hqh Hqp].
      rewrite Forall_forall in Hall2.
      assert (Eh : deref (heap w1) (home q) = deref (heap w) (home q)).
      { apply Hframe; [apply Hall2; exact Hqh |].
        intros E. apply Hp. rewrite <- E. exact Hqh. }
      assert (Ep : deref (heap w1) (pos q) = deref (heap w) (pos q)).
      { apply Hframe; [apply Hall2; exact Hqp |].
        intros E. apply Hp. rewrite <- E. exact Hqp. }
      rewrite Eh, Ep in Hc', Hpos'. split; assumption.
Qed.

(** A frame on a ready state is the loop over the particles and nothing
    else. *)
Lemma draw_ready_eq (ms ms' : R) (s : Sketch) :
  frame_ready s ->
  let t := ms / 1000 in
  let h := Q2R (BREATH_SECONDS (config s)) in
  let u := update_all noise t (Breath.tri h t) (Breath.exhale h t)
                      (particles s) (world s) in
  draw rnd noise rasterize ms ms' s
  = (mkSketch (config s) (width s) (height s) (particles s)
              (lastBuildKey s) (startMillis s) (snd u) (builds s),
     mkFrame (fst u)
             (countdown (RUN_SECONDS (config s))
                        ((ms' - startMillis s) / 1000) (width s) (height s))).
Proof.
  intros [_ Hkey]. cbv zeta. unfold draw. fold (currentKey s).
  rewrite <- Hkey, String.eqb_refl.
  destruct (update_all noise _ _ _ _ _) as [cs w']. reflexivity.
Qed.

End WholeFrame.

(** X5: in every state the sketch reaches after [setup], a frame moves every
    particle by exactly one Motion Integrator step from the position it had
    before the frame, whatever the other particles do, and draws one circle
    per particle, in the order of the particle set, centred on the new
    position, with the particle's [size] as diameter. *)
Theorem X5_frame_moves_and_draws_each_particle :
  forall (rnd : nat -> R) (noise : R -> R -> R -> R)
         (rasterize : string -> nat -> nat -> list Z)
         (n d b : option string) (w h : nat) (ms0 : R)
         (steps : list Step) (ms ms' : R),
  let s := run rnd noise rasterize steps (setup rnd rasterize n d b w h ms0) in
  let s' := fst (draw rnd noise rasterize ms ms' s) in
  let fr := snd (draw rnd noise rasterize ms ms' s) in
  let t := ms / 1000 in
  let breath := Q2R (BREATH_SECONDS (config s)) in
  Forall2 (fun p c =>
             let new := integrate noise (deref (heap (world s)) (home p))
                          (deref (heap (world s)) (pos p)) (theta p) (rand p)
                          t (Breath.exhale breath t) in
             deref (heap (world s')) (pos p) = new
             /\ cx c = vx new /\ cy c = vy new /\ diameter c = size p)
          (particles s) (circles fr)
  /\ length (circles fr) = length (particles s).
Proof.
  intros rnd noise rasterize n d b w h ms0 steps ms ms'. cbv zeta.
  set (s := run rnd noise rasterize steps (setup rnd rasterize n d b w h ms0)).
  assert (Hs : frame_ready s) by (apply run_ready, setup_ready).
  rewrite (draw_ready_eq rnd noise rasterize ms ms' s Hs).
  cbn [fst snd world circles].
  pose proof (update_all_positions noise (ms / 1000)
                (Breath.tri (Q2R (BREATH_SECONDS (config s))) (ms / 1000))
                (Breath.exhale (Q2R (BREATH_SECONDS (config s))) (ms / 1000))
                (particles s) (world s) (proj1 Hs)) as H.
  cbv zeta in H.
  split.
  - eapply Forall2_impl_In; [exact H |].
    intros p c _ [-> Hpos]. cbv beta. cbn [cx cy diameter].
    repeat split; try reflexivity. exact Hpos.
  - symmetry. apply (Forall2_length H).
Qed.

(** X6: a frame of the animation loop, in any state the sketch reaches after
    [setup] through loop frames and whole event handlers, allocates exactly
    three temporary vectors per particle, rebuilds nothing, keeps the particle
    list, and leaves the configuration, the canvas size, the start time and
    the cached build key as they were. *)
Theorem X6_frame_resources :
  forall (rnd : nat -> R) (noise : R -> R -> R -> R)
         (rasterize : string -> nat -> nat -> list Z)
         (n d b : option string) (w h : nat) (ms0 : R)
         (steps : list Step) (ms ms' : R),
  let s := run rnd noise rasterize steps (setup rnd rasterize n d b w h ms0) in
  let s' := fst (draw rnd noise rasterize ms ms' s) in
  length (heap (world s'))
  = (length (heap (world s)) + 3 * length (particles s))%nat
  /\ particles s' = particles s /\ builds s' = builds s
  /\ config s' = config s /\ width s' = width s /\ height s' = height s
  /\ startMillis s' = startMillis s /\ lastBuildKey s' = lastBuildKey s.
Proof.
  intros rnd noise rasterize n d b w h ms0 steps ms ms'. cbv zeta.
  set (s := run rnd noise rasterize steps (setup rnd rasterize n d b w h ms0)).
  assert (Hs : frame_ready s) by (apply run_ready, setup_ready).
  rewrite (draw_ready_eq rnd noise rasterize ms ms' s Hs).
  cbn [fst world config width height startMillis lastBuildKey particles builds].
  pose proof (update_all_frame noise (ms / 1000)
                (Breath.tri (Q2R (BREATH_SECONDS (config s))) (ms / 1000))
                (Breath.exhale (Q2R (BREATH_SECONDS (config s))) (ms / 1000))
                (particles s) (world s) (proj1 Hs)) as H.
  cbv zeta in H. destruct H as (Hlen & _ & _).
  repeat split; try reflexivity. exact Hlen.
Qed.

Section RebuildCount.

Variable rnd : nat -> R.
Variable noise : R -> R -> R -> R.
Variable rasterize : string -> nat -> nat -> list Z.

Lemma step_builds (st : Step) (s : Sketch) :
  frame_ready s ->
  let s' := step rnd noise rasterize st s in
  builds s' = (builds s + rebuilds (width s, height s) st)%nat
  /\ (width s', height s') = resize_of (width s, height s) st.
Proof.
  intros Hs. cbv zeta.
  destruct st as [ms ms' | e]; cbn [step].
  - destruct (draw_frame rnd noise rasterize ms ms' s Hs) as (_ & _ & Hb & _).
    rewrite (draw_ready_eq rnd noise rasterize ms ms' s Hs) in *.
    cbn [fst builds width height rebuilds resize_of] in *. split; [lia | reflexivity].
  - pose proof (handle_builds rnd noise rasterize e s (proj2 Hs)) as H.
    cbv zeta in H. destruct H as [_ H]. split; [exact H |].
    destruct e as [key | w h ms ms']; cbn [handle resize_of].
    + unfold keyTyped. destruct (String.eqb key "r"); [| reflexivity].
      destruct (random_range rnd 1 9999 (world s)) as [v w'].
      match goal with
      | |- context [buildTextParticles rnd rasterize ?s0] =>
          pose proof (buildTextParticles_fields rnd rasterize s0) as Hf
      end.
      cbv zeta in Hf. destruct Hf as (_ & Hw & Hh & _). rewrite Hw, Hh.
      reflexivity.
    + pose proof (windowResized_synced rnd noise rasterize w h ms ms' s) as Hw.
      cbv zeta in Hw. destruct Hw as (_ & _ & _ & _ & Hw & Hh & _).
      rewrite Hw, Hh. reflexivity.
Qed.

Lemma run_builds (steps : list Step) :
  forall s : Sketch,
  frame_ready s ->
  builds (run rnd noise rasterize steps s)
  = (builds s + rebuilds_of (width s, height s) steps)%nat.
Proof.
  unfold run. induction steps as [| st steps IH]; intros s Hs;
    cbn [fold_left rebuilds_of]; [lia |].
  destruct (step_builds st s Hs) as [Hb Hsz].
  rewrite IH.
  - rewrite Hb, Hsz. lia.
  - destruct st as [ms ms' | e]; cbn [step].
    + apply (draw_frame rnd noise rasterize ms ms' s Hs).
    + apply handle_ready. exact Hs.
Qed.

End RebuildCount.

(** X7: however frames and events follow [setup], the particles are built
    once by [setup], once more for every 'r' key, once more by the handler
    of every resize and yet once more, inside the frame that [resizeCanvas]
    draws, for every resize that changes the canvas size; a frame of the
    animation loop never rebuilds, because the rebuild test at the head of
    [draw] finds the cached key current after every whole step. *)
Theorem X7_builds_counted :
  forall (rnd : nat -> R) (noise : R -> R -> R -> R)
         (rasterize : string -> nat -> nat -> list Z)
         (n d b : option string) (w h : nat) (ms0 : R) (steps : list Step),
  let s := run rnd noise rasterize steps (setup rnd rasterize n d b w h ms0) in
  builds s = (1 + rebuilds_of (w, h) steps)%nat
  /\ lastBuildKey s = currentKey s
  /\ (forall ms ms',
        builds (fst (draw rnd noise rasterize ms ms' s)) = builds s).
Proof.
  intros rnd noise rasterize n d b w h ms0 steps. cbv zeta.
  assert (Hs : frame_ready (run rnd noise rasterize steps
                              (setup rnd rasterize n d b w h ms0)))
    by apply run_ready, setup_ready.
  split; [| split].
  - rewrite run_builds by apply setup_ready.
    pose proof (setup_fields rnd rasterize n d b w h ms0) as H.
    cbv zeta in H. destruct H as (_ & Hw & Hh & _ & H).
    rewrite H, Hw, Hh. reflexivity.
  - apply Hs.
  - intros ms ms'. apply (draw_frame rnd noise rasterize ms ms' _ Hs).
Qed.

(** ** The particle set and the raster *)

Section SamplerShape.

Variable rnd : nat -> R.

(** What [build_from] leaves in the store, whatever the random source
    returns: homes at the points, positions off them by the first of four
    consecutive random values, and the store it started from untouched. *)
Lemma build_from_shape (pts : list (nat * nat)) :
  forall (h : Heap) (sd : nat),
  let ps := fst (build_from rnd pts (mkWorld h sd)) in
  let w' := snd (build_from rnd pts (mkWorld h sd)) in
  Forall2 (fun pt p =>
             deref (heap w') (home p) = mkVec (INR (fst pt)) (INR (snd pt))
             /\ exists k,
                  deref (heap w') (pos p)
                  = mkVec (INR (fst pt) + (rnd k * (2 - - 2) + - 2))
                          (INR (snd pt) + (rnd k * (2 - - 2) + - 2))
                  /\ size p = rnd (S k) * (24 / 10 - 16 / 10) + 16 / 10
                  /\ theta p = rnd (S (S k)) * TWO_PI
                  /\ rand p = rnd (S (S (S k))))
          pts ps
  /\ (exists ext, heap w' = h ++ ext).
Proof.
  induction pts as [| [x y] pts IH]; intros h sd; cbv zeta.
  - cbn [build_from]. unfold ret. cbn [fst snd heap].
    split; [constructor | exists []; symmetry; apply app_nil_r].
  - cbn [build_from]. unfold bind. rewrite makeParticle_eq. cbv zeta.
    set (jitter := rnd sd * (2 - - 2) + - 2).
    set (h1 := h ++ [mkVec (INR x) (INR y);
                     mkVec (INR x + jitter) (INR y + jitter)]).
    specialize (IH h1 (S (S (S (S sd))))). cbv zeta in IH.
    destruct (build_from rnd pts (mkWorld h1 (S (S (S (S sd)))))) as [ps w'].
    unfold ret. cbn [fst snd] in *.
    destruct IH as (Hall & ext & Hheap).
    split.
    + constructor; [| exact Hall].
      cbn [fst snd home pos size theta rand].
      rewrite Hheap. unfold h1. rewrite <- app_assoc. cbn [app].
      split.
      { rewrite <- (Nat.add_0_r (length h)).
        rewrite deref_app_at. reflexivity. }
      exists sd. fold jitter.
      replace (S (length h)) with (length h + 1)%nat by lia.
      rewrite deref_app_at. repeat split; reflexivity.
    + exists ([mkVec (INR x) (INR y); mkVec (INR x + jitter) (INR y + jitter)]
              ++ ext).
      rewrite Hheap. unfold h1. rewrite <- app_assoc. reflexivity.
Qed.

Lemma flat_map_length_le {A B : Type} (f : A -> list B) (l : list A)
    (m : nat) :
  (forall a, In a l -> (length (f a) <= m)%nat) ->
  (length (flat_map f l) <= length l * m)%nat.
Proof.
  induction l as [| a l IH]; intros H; cbn [flat_map length]; [lia |].
  rewrite length_app.
  pose proof (H a (or_introl eq_refl)).
  assert (length (flat_map f l) <= length l * m)%nat
    by (apply IH; intros a' Ha'; apply H; right; exact Ha').
  lia.
Qed.

Lemma grid_length (n : nat) : length (grid n) = ((n + 5) / SAMPLE_STEP)%nat.
Proof. unfold grid. rewrite length_map, length_seq. reflexivity. Qed.

Lemma sample_points_length (pixels : list Z) (pw ph : nat) :
  (length (sample_points pixels pw ph)
   <= ((ph + 5) / SAMPLE_STEP) * ((pw + 5) / SAMPLE_STEP))%nat.
Proof.
  unfold sample_points. rewrite <- !grid_length.
  apply flat_map_length_le. intros y _. unfold row_points.
  rewrite length_map. apply filter_length_le.
Qed.

(** X9: the Particle Sampler builds as many particles as there are lit
    pixels on the sampling grid, at most [ceil(pw/6) * ceil(ph/6)]; for each
    it draws four random numbers and allocates two vectors, and it changes
    no vector that was in the store before. *)
Theorem X9_sampler_size_and_resources
    (pixels : list Z) (pw ph : nat) (w : World) :
  let ps := fst (sampleParticles rnd pixels pw ph w) in
  let w' := snd (sampleParticles rnd pixels pw ph w) in
  length ps = length (sample_points pixels pw ph)
  /\ (length ps <= ((pw + 5) / 6) * ((ph + 5) / 6))%nat
  /\ seed w' = (seed w + 4 * length ps)%nat
  /\ length (heap w') = (length (heap w) + 2 * length ps)%nat
  /\ (forall r, (r < length (heap w))%nat ->
        deref (heap w') r = deref (heap w) r).
Proof.
  cbv zeta. rewrite sampleParticles_build. destruct w as [h sd].
  pose proof (build_from_shape (sample_points pixels pw ph) h sd) as Hs.
  pose proof (build_from_layout rnd (sample_points pixels pw ph) h sd) as Hl.
  cbv zeta in Hs, Hl. destruct Hs as (Hall & ext & Hheap).
  destruct Hl as (_ & Hlen & Hseed).
  apply Forall2_length in Hall. cbn [heap seed].
  rewrite <- Hall in *.
  split; [reflexivity |]. split.
  - rewrite Hall. pose proof (sample_points_length pixels pw ph) as H.
    unfold SAMPLE_STEP in H. lia.
  - split; [exact Hseed |]. split; [exact Hlen |].
    intros r Hr. rewrite Hheap. apply deref_app_old. exact Hr.
Qed.

End SamplerShape.

(** X10: on a pixel array that holds four channels for each of the [pw] by
    [ph] pixels, every read of the sampling loops is inside the array, so
    whether a particle is built at a grid pixel is decided by that pixel's
    own four channel values. *)
Theorem X10_sampler_reads_in_range (pixels : list Z) (pw ph x y : nat)
    (Hlen : length pixels = (4 * pw * ph)%nat)
    (Hx : In x (grid pw)) (Hy : In y (grid ph)) :
  let idx := (4 * (y * pw + x))%nat in
  (idx + 3 < length pixels)%nat
  /\ exists r g b a,
       nth_error pixels idx = Some r
       /\ nth_error pixels (idx + 1) = Some g
       /\ nth_error pixels (idx + 2) = Some b
       /\ nth_error pixels (idx + 3) = Some a
       /\ lit pixels idx = ((10 <? a) && (500 <? r + g + b))%Z.
Proof.
  cbv zeta. apply grid_spec in Hx as [_ Hx]. apply grid_spec in Hy as [_ Hy].
  assert (Hin : (4 * (y * pw + x) + 3 < length pixels)%nat).
  { rewrite Hlen. nia. }
  split; [exact Hin |].
  assert (Hsome : forall k, (k < 4)%nat ->
            exists v, nth_error pixels (4 * (y * pw + x) + k) = Some v).
  { intros k Hk.
    destruct (nth_error pixels (4 * (y * pw + x) + k)) as [v |] eqn:E;
      [exists v; reflexivity |].
    apply nth_error_None in E. lia. }
  destruct (Hsome 0%nat ltac:(lia)) as [r Hr].
  destruct (Hsome 1%nat ltac:(lia)) as [g Hg].
  destruct (Hsome 2%nat ltac:(lia)) as [b Hb].
  destruct (Hsome 3%nat ltac:(lia)) as [a Ha].
  exists r, g, b, a. unfold lit. rewrite Hr, Hg, Hb, Ha.
  rewrite Nat.add_0_r in Hr. repeat split; try assumption.
Qed.

(** The lit corner of a 7 by 1 buffer. *)
Lemma X10_sampler_reads_in_range_witness :
  let white := [255; 255; 255; 255]%Z in
  let black := [0; 0; 0; 255]%Z in
  let pixels := white ++ black ++ black ++ black ++ black ++ black ++ white in
  let idx := (4 * (0 * 7 + 6))%nat in
  (idx + 3 < length pixels)%nat
  /\ exists r g b a,
       nth_error pixels idx = Some r
       /\ nth_error pixels (idx + 1) = Some g
       /\ nth_error pixels (idx + 2) = Some b
       /\ nth_error pixels (idx + 3) = Some a
       /\ lit pixels idx = ((10 <? a) && (500 <? r + g + b))%Z.
Proof.
  apply (X10_sampler_reads_in_range _ 7 1 6 0).
  - reflexivity.
  - right. left. reflexivity.
  - left. reflexivity.
Defined.

Lemma Forall2_Forall_l {A B : Type} (P : A -> B -> Prop) (Q : A -> Prop)
    (l1 : list A) (l2 : list B) :
  Forall2 P l1 l2 -> (forall a b, In a l1 -> P a b -> Q a) -> Forall Q l1.
Proof.
  induction 1 as [| a b l1 l2 Hab _ IH]; intros HPQ; constructor.
  - apply (HPQ a b); [left; reflexivity | exact Hab].
  - apply IH. intros a' b' Hin. apply HPQ. right. exact Hin.
Qed.

Lemma Forall2_impl_In_both {A B : Type} (P Q : A -> B -> Prop)
    (l1 : list A) (l2 : list B) :
  Forall2 P l1 l2 ->
  (forall a b, In a l1 -> In b l2 -> P a b -> Q a b) ->
  Forall2 Q l1 l2.
Proof.
  induction 1 as [| a b l1 l2 Hab _ IH]; intros HPQ; constructor.
  - apply HPQ; [left; reflexivity | left; reflexivity | exact Hab].
  - apply IH. intros a' b' Ha Hb HP.
    apply HPQ; [right; exact Ha | right; exact Hb | exact HP].
Qed.

Section RunInvariants.

Variable rnd : nat -> R.
Variable noise : R -> R -> R -> R.
Variable rasterize : string -> nat -> nat -> list Z.

(** A property that frames and event handlers keep holds after every run. *)
Lemma run_invariant (J : Sketch -> Prop) (ok : Step -> Prop) :
  (forall s ms ms', ok (Frame_at ms ms') -> J s ->
     J (fst (draw rnd noise rasterize ms ms' s))) ->
  (forall s e, J s -> J (handle rnd noise rasterize e s)) ->
  forall (steps : list Step) (s : Sketch),
  J s -> Forall ok steps -> J (run rnd noise rasterize steps s).
Proof.
  intros Hdraw Hev. unfold run.
  induction steps as [| st steps IH]; intros s Hs Hok; cbn [fold_left];
    [exact Hs |].
  inversion Hok as [| ? ? Hst Hrest]; subst.
  apply IH; [| exact Hrest].
  destruct st as [ms ms' | e]; cbn [step]; [apply Hdraw | apply Hev]; assumption.
Qed.

Lemma buildTextParticles_sample (s : Sketch) :
  let s' := buildTextParticles rnd rasterize s in
  let pixels := rasterize (DISPLAY_TEXT (config s)) (width s) (height s) in
  particles s' = fst (sampleParticles rnd pixels (width s) (height s) (world s))
  /\ world s' = snd (sampleParticles rnd pixels (width s) (height s) (world s)).
Proof.
  cbv zeta. unfold buildTextParticles.
  destruct (sampleParticles rnd _ _ _ _) as [ps w']. split; reflexivity.
Qed.

(** Every event handler either leaves the state alone or ends in
    [buildTextParticles]. *)
Lemma handle_cases (e : Event) (s : Sketch) :
  handle rnd noise rasterize e s = s
  \/ exists s0,
       handle rnd noise rasterize e s = buildTextParticles rnd rasterize s0
       /\ RUN_SECONDS (config s0) = RUN_SECONDS (config s)
       /\ BREATH_SECONDS (config s0) = BREATH_SECONDS (config s)
       /\ startMillis s0 = startMillis s.
Proof.
  destruct e as [key | w h ms ms']; cbn [handle].
  - unfold keyTyped. destruct (String.eqb key "r"); [| left; reflexivity].
    destruct (random_range rnd 1 9999 (world s)) as [v w'].
    right. eexists. split; [reflexivity |]. repeat split; reflexivity.
  - right. exists (fst (resizeCanvas rnd noise rasterize w h ms ms' s)).
    split; [reflexivity |].
    pose proof (resizeCanvas_synced rnd noise rasterize w h ms ms' s) as H.
    cbv zeta in H. destruct H as (_ & _ & Hc & _ & _ & Hm & _).
    rewrite Hc. repeat split; try reflexivity. exact Hm.
Qed.

(** The homes of a freshly built particle set are the lit grid pixels of the
    raster of the text and canvas size it was built for. *)
Lemma buildTextParticles_homes (s : Sketch) :
  let s' := buildTextParticles rnd rasterize s in
  Forall2 (fun pt p =>
             deref (heap (world s')) (home p)
             = mkVec (INR (fst pt)) (INR (snd pt)))
          (sample_points
             (rasterize (DISPLAY_TEXT (config s')) (width s') (height s'))
             (width s') (height s'))
          (particles s').
Proof.
  cbv zeta.
  pose proof (buildTextParticles_fields rnd rasterize s) as Hf.
  pose proof (buildTextParticles_sample s) as Hs.
  cbv zeta in Hf, Hs. destruct Hf as (Hc & Hw & Hh & _).
  destruct Hs as [Hp Hwd]. rewrite Hc, Hw, Hh, Hp, Hwd.
  rewrite sampleParticles_build. destruct (world s) as [h sd].
  pose proof (build_from_shape rnd
    (sample_points (rasterize (DISPLAY_TEXT (config s)) (width s) (height s))
                   (width s) (height s)) h sd) as H.
  cbv zeta in H. destruct H as [H _].
  eapply Forall2_impl_In; [exact H |]. intros pt p _ [Hhome _]. exact Hhome.
Qed.

(** In every state of a run there are as many particles as lit pixels on
    the sampling grid of the current raster. *)
Lemma buildTextParticles_count (s : Sketch) :
  let s' := buildTextParticles rnd rasterize s in
  length (particles s')
  = length (sample_points
              (rasterize (DISPLAY_TEXT (config s)) (width s) (height s))
              (width s) (height s)).
Proof.
  cbv zeta. pose proof (buildTextParticles_homes s) as H. cbv zeta in H.
  pose proof (buildTextParticles_fields rnd rasterize s) as Hf.
  cbv zeta in Hf. destruct Hf as (Hc & Hw & Hh & _).
  rewrite Hc, Hw, Hh in H. symmetry. apply (Forall2_length H).
Qed.

Lemma run_particle_count (n d b : option string) (w h : nat) (ms0 : R)
    (steps : list Step) :
  let s := run rnd noise rasterize steps (setup rnd rasterize n d b w h ms0) in
  length (particles s)
  = length (sample_points
              (rasterize (DISPLAY_TEXT (config s)) (width s) (height s))
              (width s) (height s)).
Proof.
  cbv zeta.
  set (J := fun s : Sketch =>
              frame_ready s
              /\ length (particles s)
                 = length (sample_points
                             (rasterize (DISPLAY_TEXT (config s)) (width s)
                                        (height s))
                             (width s) (height s))).
  assert (Hbuild : forall s0, J (buildTextParticles rnd rasterize s0)).
  { intros s0. split; [apply buildTextParticles_ready |].
    rewrite buildTextParticles_count.
    pose proof (buildTextParticles_fields rnd rasterize s0) as Hf.
    cbv zeta in Hf. destruct Hf as (Hc & Hw & Hh & _).
    rewrite Hc, Hw, Hh. reflexivity. }
  assert (HJ : J (run rnd noise rasterize steps
                      (setup rnd rasterize n d b w h ms0))).
  { apply (run_invariant J (fun _ => True)).
    - intros s ms ms' _ [Hs Hlen].
      split; [apply (draw_frame rnd noise rasterize ms ms' s Hs) |].
      rewrite (draw_ready_eq rnd noise rasterize ms ms' s Hs).
      cbn [fst particles config width height]. exact Hlen.
    - intros s e Hs.
      destruct (handle_cases e s) as [E | (s0 & E & _)];
        rewrite E; [exact Hs | apply Hbuild].
    - apply Hbuild.
    - apply Forall_forall. intros; exact I. }
  apply HJ.
Qed.

End RunInvariants.

(** X8: in every state the sketch reaches after [setup], through frames and
    events in any order, the particle set is the one sampled from the raster
    of the current display text at the current canvas size: the particles'
    homes are exactly the lit pixels of the sampling grid, in row order, and
    so every home lies inside the current canvas. *)
Theorem X8_particles_match_current_raster :
  forall (rnd : nat -> R) (noise : R -> R -> R -> R)
         (rasterize : string -> nat -> nat -> list Z)
         (n d b : option string) (w h : nat) (ms0 : R) (steps : list Step),
  let s := run rnd noise rasterize steps (setup rnd rasterize n d b w h ms0) in
  let pixels := rasterize (DISPLAY_TEXT (config s)) (width s) (height s) in
  Forall2 (fun pt p =>
             deref (heap (world s)) (home p)
             = mkVec (INR (fst pt)) (INR (snd pt)))
          (sample_points pixels (width s) (height s)) (particles s)
  /\ Forall (fun p =>
               0 <= vx (deref (heap (world s)) (home p)) < INR (width s)
               /\ 0 <= vy (deref (heap (world s)) (home p)) < INR (height s))
            (particles s).
Proof.
  intros rnd noise rasterize n d b w h ms0 steps. cbv zeta.
  set (J := fun s : Sketch =>
              frame_ready s
              /\ Forall2 (fun pt p =>
                            deref (heap (world s)) (home p)
                            = mkVec (INR (fst pt)) (INR (snd pt)))
                   (sample_points
                      (rasterize (DISPLAY_TEXT (config s)) (width s) (height s))
                      (width s) (height s))
                   (particles s)).
  assert (Hbuild : forall s0, J (buildTextParticles rnd rasterize s0)).
  { intros s0. split; [apply buildTextParticles_ready |].
    apply buildTextParticles_homes. }
  assert (HJ : J (run rnd noise rasterize steps
                      (setup rnd rasterize n d b w h ms0))).
  { apply (run_invariant rnd noise rasterize J (fun _ => True)).
    - intros s ms ms' _ [Hs Hall].
      destruct (draw_frame rnd noise rasterize ms ms' s Hs)
        as (Hs' & Hp & _ & _ & Hframe).
      split; [exact Hs' |].
      pose proof (draw_fields rnd noise rasterize ms ms' s) as Hf.
      cbv zeta in Hf. destruct Hs as [[Hnd Hfa] Hkey].
      rewrite <- Hkey, String.eqb_refl in Hf.
      destruct Hf as (Hc & Hw & Hh & _).
      rewrite Hc, Hw, Hh, Hp.
      eapply Forall2_impl_In_both; [exact Hall |].
      intros pt p _ Hin Hhome. cbv beta in *.
      assert (E : deref (heap (world (fst (draw rnd noise rasterize ms ms' s))))
                        (home p)
                  = deref (heap (world s)) (home p)).
      { apply Hframe.
        - rewrite Forall_forall in Hfa. apply Hfa.
          apply (particle_refs_home_pos _ p Hin).
        - apply home_not_pos; assumption. }
      rewrite E. exact Hhome.
    - intros s e Hs.
      destruct (handle_cases rnd noise rasterize e s) as [E | (s0 & E & _)];
        rewrite E; [exact Hs | apply Hbuild].
    - apply Hbuild.
    - apply Forall_forall. intros; exact I. }
  destruct HJ as [_ Hall]. split; [exact Hall |].
  eapply Forall2_Forall_r; [exact Hall |].
  intros [x y] p Hin Hhome. cbn [fst snd] in Hhome.
  apply sample_points_spec in Hin as ((_ & _ & Hx & Hy) & _).
  rewrite Hhome. cbn [vx vy].
  split; (split; [apply pos_INR | apply lt_INR; assumption]).
Qed.

(** ** Particles stay near home *)

(** A point between two points of a disc is in the disc. *)
Lemma convex_sq (ux uy wx wy e B : R) :
  0 <= e <= 1 ->
  ux * ux + uy * uy <= B * B -> wx * wx + wy * wy <= B * B ->
  ((1 - e) * ux + e * wx) * ((1 - e) * ux + e * wx)
  + ((1 - e) * uy + e * wy) * ((1 - e) * uy + e * wy) <= B * B.
Proof.
  intros He HU HW.
  set (U := ux * ux + uy * uy) in *. set (W := wx * wx + wy * wy) in *.
  set (D := ux * wx + uy * wy).
  assert (HD : 2 * D <= U + W).
  { pose proof (sum_sq_nonneg (ux - wx) (uy - wy)) as H. unfold D, U, W. lra. }
  assert (H1 : (1 - e) * (1 - e) * U <= (1 - e) * (1 - e) * (B * B))
    by (apply Rmult_le_compat_l; [nra | exact HU]).
  assert (H2 : e * e * W <= e * e * (B * B))
    by (apply Rmult_le_compat_l; [nra | exact HW]).
  assert (H3 : e * (1 - e) * (2 * D) <= e * (1 - e) * (2 * (B * B)))
    by (apply Rmult_le_compat_l; [nra | lra]).
  replace (((1 - e) * ux + e * wx) * ((1 - e) * ux + e * wx)
           + ((1 - e) * uy + e * wy) * ((1 - e) * uy + e * wy))
    with ((1 - e) * (1 - e) * U + e * e * W + e * (1 - e) * (2 * D))
    by (unfold U, W, D; ring).
  replace (B * B)
    with ((1 - e) * (1 - e) * (B * B) + e * e * (B * B)
          + e * (1 - e) * (2 * (B * B))) at 3 by ring.
  lra.
Qed.

Lemma getParams_breath_min (n d b : option string) :
  (1 # 2 < BREATH_SECONDS (getParams n d b default_config))%Q.
Proof.
  unfold getParams. cbn [BREATH_SECONDS default_config].
  destruct b as [s |]; [| reflexivity].
  destruct (parseFloat s) as [| neg | sec]; try reflexivity.
  cbn [isFinite number_gtb finite_value andb].
  destruct (Qltb (1 # 2) sec) eqn:E; [apply Qltb_lt; exact E | reflexivity].
Qed.

Lemma breath_positive (q : Q) : (1 # 2 < q)%Q -> 0 < Q2R q.
Proof.
  intros H. rewrite <- RMicromega.Q2R_0. apply Qlt_Rlt.
  apply Qlt_trans with (1 # 2)%Q; [reflexivity | exact H].
Qed.

Section NearHome.

Variable rnd : nat -> R.
Variable noise : R -> R -> R -> R.
Variable rasterize : string -> nat -> nat -> list Z.
Hypothesis rnd_range : forall k, 0 <= rnd k < 1.
Hypothesis noise_range : forall x y z, 0 <= noise x y z <= 1.

(** A freshly built particle is within 2 pixels of its home in each axis. *)
Lemma buildTextParticles_within (s : Sketch) :
  let s' := buildTextParticles rnd rasterize s in
  Forall (within_reach (heap (world s'))) (particles s').
Proof.
  cbv zeta.
  pose proof (buildTextParticles_sample rnd rasterize s) as Hs.
  cbv zeta in Hs. destruct Hs as [Hp Hw]. rewrite Hp, Hw.
  rewrite sampleParticles_build. destruct (world s) as [h sd].
  pose proof (build_from_shape rnd
    (sample_points (rasterize (DISPLAY_TEXT (config s)) (width s) (height s))
                   (width s) (height s)) h sd) as H.
  cbv zeta in H. destruct H as [H _].
  eapply Forall2_Forall_r; [exact H |].
  intros pt p _ (Hhome & k & Hpos & _ & _ & Hrand).
  unfold within_reach. split.
  - rewrite Hrand. pose proof (rnd_range (S (S (S k)))). lra.
  - rewrite Hhome, Hpos. rewrite DRIFT_REACH_value.
    apply dist_le_bound; [lra |]. cbn [vx vy].
    pose proof (rnd_range k) as Hk.
    set (j := rnd k * (2 - - 2) + - 2).
    assert (Hj : - 2 <= j < 2) by (unfold j; lra).
    replace (INR (fst pt) + j - INR (fst pt)) with j by ring.
    replace (INR (snd pt) + j - INR (snd pt)) with j by ring.
    nra.
Qed.

(** One step keeps a particle within reach. *)
Lemma integrate_within (hm ps : Vec) (th rd t exhale : R) :
  0 <= rd <= 1 -> 0 <= exhale <= 1 ->
  dist ps hm <= DRIFT_REACH ->
  dist (integrate noise hm ps th rd t exhale) hm <= DRIFT_REACH.
Proof.
  intros Hrd He Hd.
  pose proof (target_offset_bounds noise noise_range hm th rd t exhale Hrd He)
    as [_ Htg].
  pose proof (easing_range exhale He) as Hrange.
  pose proof (dist_nonneg ps hm) as Hnn.
  pose proof (dist_sq ps hm) as Hsq.
  assert (HR : 0 <= DRIFT_REACH) by (rewrite DRIFT_REACH_value; lra).
  apply dist_le_bound; [exact HR |].
  unfold integrate. cbn [vx vy]. unfold lerp.
  set (tg := target noise hm th rd t exhale) in *.
  set (e := easing exhale) in *.
  replace (e * (vx tg - vx ps) + vx ps - vx hm)
    with ((1 - e) * (vx ps - vx hm) + e * (vx tg - vx hm)) by ring.
  replace (e * (vy tg - vy ps) + vy ps - vy hm)
    with ((1 - e) * (vy ps - vy hm) + e * (vy tg - vy hm)) by ring.
  apply convex_sq; [lra | rewrite <- Hsq; nra |].
  apply Rle_trans with (DRIFT_REACH * exhale * (DRIFT_REACH * exhale));
    [exact Htg |].
  assert (Hx : DRIFT_REACH * exhale <= DRIFT_REACH)
    by (rewrite <- (Rmult_1_r DRIFT_REACH) at 2;
        apply Rmult_le_compat_l; [exact HR | lra]).
  assert (H0 : 0 <= DRIFT_REACH * exhale)
    by (apply Rmult_le_pos; [exact HR | lra]).
  apply Rmult_le_compat; assumption.
Qed.

Lemma draw_within (ms ms' : R) (s : Sketch) :
  frame_ready s -> 0 < Q2R (BREATH_SECONDS (config s)) -> 0 <= ms ->
  Forall (within_reach (heap (world s))) (particles s) ->
  let s' := fst (draw rnd noise rasterize ms ms' s) in
  Forall (within_reach (heap (world s'))) (particles s').
Proof.
  intros Hs Hb Hms Hall. cbv zeta.
  rewrite (draw_ready_eq rnd noise rasterize ms ms' s Hs).
  cbn [fst particles world].
  set (t := ms / 1000). set (h := Q2R (BREATH_SECONDS (config s))).
  assert (Ht : 0 <= t) by (unfold t; lra).
  pose proof (tri_range h t Hb Ht) as Htri.
  assert (He : 0 <= Breath.exhale h t <= 1) by (unfold Breath.exhale; lra).
  pose proof (update_all_positions noise t (Breath.tri h t) (Breath.exhale h t)
                (particles s) (world s) (proj1 Hs)) as Hpos.
  pose proof (update_all_frame noise t (Breath.tri h t) (Breath.exhale h t)
                (particles s) (world s) (proj1 Hs)) as Hfr.
  cbv zeta in Hpos, Hfr. destruct Hfr as (_ & _ & Hframe).
  destruct Hs as [[Hnd Hfa] _]. rewrite Forall_forall in Hall, Hfa.
  eapply Forall2_Forall_l; [exact Hpos |].
  intros p c Hin [_ Hnew]. destruct (Hall p Hin) as [Hrand Hd].
  split; [exact Hrand |].
  rewrite Hnew. rewrite Hframe.
  - apply integrate_within; assumption.
  - apply Hfa. apply (particle_refs_home_pos _ p Hin).
  - apply home_not_pos; assumption.
Qed.

End NearHome.

(** X4: with random values in [[0,1)], noise values in [[0,1]] and clock
    readings that are not negative, in every state the sketch reaches after
    [setup], through frames and events in any order, every particle is within
    37.3 pixels of its home. *)
Theorem X4_particles_stay_near_home
    (rnd : nat -> R) (noise : R -> R -> R -> R)
    (rasterize : string -> nat -> nat -> list Z)
    (n d b : option string) (w h : nat) (ms0 : R) (steps : list Step)
    (Hrnd : forall k, 0 <= rnd k < 1)
    (Hnoise : forall x y z, 0 <= noise x y z <= 1)
    (Hclock : Forall clock_ok steps) :
  let s := run rnd noise rasterize steps (setup rnd rasterize n d b w h ms0) in
  Forall (fun p =>
            dist (deref (heap (world s)) (pos p))
                 (deref (heap (world s)) (home p)) <= 373 / 10)
         (particles s).
Proof.
  cbv zeta.
  set (J := fun s : Sketch =>
              frame_ready s
              /\ (1 # 2 < BREATH_SECONDS (config s))%Q
              /\ Forall (within_reach (heap (world s))) (particles s)).
  assert (Hbuild : forall s0, (1 # 2 < BREATH_SECONDS (config s0))%Q ->
                              J (buildTextParticles rnd rasterize s0)).
  { intros s0 Hb. split; [apply buildTextParticles_ready |]. split.
    - pose proof (buildTextParticles_fields rnd rasterize s0) as Hf.
      cbv zeta in Hf. destruct Hf as (Hc & _). rewrite Hc. exact Hb.
    - apply buildTextParticles_within. exact Hrnd. }
  assert (HJ : J (run rnd noise rasterize steps
                      (setup rnd rasterize n d b w h ms0))).
  { apply (run_invariant rnd noise rasterize J clock_ok).
    - intros s ms ms' Hms (Hs & Hb & Hall).
      destruct (draw_frame rnd noise rasterize ms ms' s Hs) as (Hs' & _).
      split; [exact Hs' |]. split.
      + rewrite (draw_ready_eq rnd noise rasterize ms ms' s Hs).
        cbn [fst config]. exact Hb.
      + apply draw_within; try assumption. apply breath_positive. exact Hb.
    - intros s e Hs.
      destruct (handle_cases rnd noise rasterize e s) as [E | (s0 & E & _ & Eb & _)];
        rewrite E; [exact Hs |].
      apply Hbuild. rewrite Eb. apply Hs.
    - apply Hbuild. cbn [config]. apply getParams_breath_min.
    - exact Hclock. }
  destruct HJ as (_ & _ & Hall).
  eapply Forall_impl; [| exact Hall].
  intros p [_ Hd]. rewrite DRIFT_REACH_value in Hd. exact Hd.
Qed.

(** ** The text layout *)

Lemma layout_availW_bounds (w h : nat) :
  76 / 100 * INR w <= layout_availW w h <= INR w.
Proof.
  unfold layout_availW, MARGIN_FRAC. cbv zeta.
  pose proof (pos_INR w) as Hw. pose proof (pos_INR h) as Hh.
  pose proof (Rmin_l (INR w) (INR h)) as Hl.
  assert (Hm : 0 <= Rmin (INR w) (INR h)) by (apply Rmin_glb; assumption).
  lra.
Qed.

(** X11: the text size [buildTextParticles] settles on is at least 12 and at
    most [max(12, 0.78 * min(width, height))], whatever the font reports as
    the text width; the width left between the margins is at least 0.76 of
    the canvas width and at most the canvas width, so never negative; and
    when the text fits at the first size, that size is kept. *)
Theorem X11_text_size_bounds (textWidth : R -> R) (w h : nat) :
  let minDim := Rmin (INR w) (INR h) in
  let ts := layout_textSize textWidth w h in
  12 <= ts <= Rmax 12 (minDim * 78 / 100)
  /\ 76 / 100 * INR w <= layout_availW w h <= INR w
  /\ 0 <= layout_availW w h
  /\ (textWidth (Rmax 12 (minDim * 78 / 100)) <= layout_availW w h ->
      ts = Rmax 12 (minDim * 78 / 100)).
Proof.
  cbv zeta.
  pose proof (layout_availW_bounds w h) as Hav. pose proof (pos_INR w) as Hw.
  replace (Rmin (INR w) (INR h) * 78 / 100)
    with (Rmin (INR w) (INR h) * TARGET_SCALE) by (unfold TARGET_SCALE; lra).
  unfold layout_textSize. cbv zeta. fold (layout_availW w h).
  unfold layout_availW in *. cbv zeta in *.
  set (minDim := Rmin (INR w) (INR h)) in *.
  set (avail := INR w - minDim * MARGIN_FRAC * 2) in *.
  set (ts := Rmax 12 (minDim * TARGET_SCALE)).
  assert (Hts : 12 <= ts) by apply Rmax_l.
  split; [| split; [exact Hav | split; [lra |]]].
  - destruct (Rlt_dec avail (textWidth ts)) as [Hlt | Hge]; [| lra].
    split; [apply Rmax_l |].
    apply Rmax_lub; [exact Hts |].
    assert (Hq : 0 <= avail / textWidth ts <= 1).
    { split.
      - apply Rmult_le_pos; [lra | left; apply Rinv_0_lt_compat; lra].
      - apply (Rmult_le_reg_r (textWidth ts)); [lra |].
        unfold Rdiv. rewrite Rmult_assoc, Rinv_l by lra. lra. }
    apply Rle_trans with (ts * 1); [| lra].
    apply Rmult_le_compat_l; lra.
  - intros Hfit.
    destruct (Rlt_dec avail (textWidth ts)) as [Hlt | Hge]; [lra | reflexivity].
Qed.

(** X12: when the width of the text is proportional to the text size, the
    size [buildTextParticles] settles on makes the text fit between the
    margins, unless the size was stopped at the floor of 12. *)
Theorem X12_text_fits_under_linear_metrics
    (textWidth : R -> R) (k : R) (w h : nat)
    (Hk : 0 < k) (Hlin : forall size, textWidth size = k * size) :
  let ts := layout_textSize textWidth w h in
  textWidth ts <= layout_availW w h \/ ts = 12.
Proof.
  cbv zeta.
  pose proof (layout_availW_bounds w h) as Hav. pose proof (pos_INR w) as Hw.
  unfold layout_textSize. cbv zeta. fold (layout_availW w h).
  unfold layout_availW in *. cbv zeta in *.
  set (minDim := Rmin (INR w) (INR h)) in *.
  set (avail := INR w - minDim * MARGIN_FRAC * 2) in *.
  set (ts := Rmax 12 (minDim * TARGET_SCALE)).
  assert (Hts : 12 <= ts) by apply Rmax_l.
  destruct (Rlt_dec avail (textWidth ts)) as [Hlt | Hge]; [| left; lra].
  rewrite (Hlin ts).
  replace (ts * (avail / (k * ts))) with (avail / k) by (field; lra).
  unfold Rmax at 1 2. destruct (Rle_dec 12 (avail / k)) as [Hle | Hgt].
  - left. rewrite Hlin. right. field. lra.
  - right. reflexivity.
Qed.

(** A font twice as wide as tall on an 800 by 600 canvas. *)
Lemma X12_text_fits_under_linear_metrics_witness :
  let textWidth := fun size : R => 2 * size in
  let ts := layout_textSize textWidth 800 600 in
  textWidth ts <= layout_availW 800 600 \/ ts = 12.
Proof.
  apply (X12_text_fits_under_linear_metrics (fun size => 2 * size) 2 800 600).
  - lra.
  - intros size. reflexivity.
Defined.

(** ** The 'r' key *)

(** X13: with random values in [[0,1)], the 'r' key sets the display text to
    the decimal digits of an integer from 1 to 9998, and leaves the run
    duration, the breath half-period, the canvas size and the start time as
    they were. *)
Theorem X13_random_number_key
    (rnd : nat -> R) (rasterize : string -> nat -> nat -> list Z) (s : Sketch)
    (Hrnd : forall k, 0 <= rnd k < 1) :
  let s' := keyTyped rnd rasterize "r" s in
  (exists k : Z,
      (1 <= k <= 9998)%Z
      /\ DISPLAY_TEXT (config s') = String_of_nat (Z.to_nat k))
  /\ all_digits (DISPLAY_TEXT (config s')) = true
  /\ RUN_SECONDS (config s') = RUN_SECONDS (config s)
  /\ BREATH_SECONDS (config s') = BREATH_SECONDS (config s)
  /\ width s' = width s /\ height s' = height s
  /\ startMillis s' = startMillis s.
Proof.
  cbv zeta.
  pose proof (keyTyped_r_text rnd rasterize s) as Ht. cbv zeta in Ht.
  destruct Ht as [Ht _].
  pose proof (Hrnd (seed (world s))) as Hr.
  set (v := rnd (seed (world s)) * (9999 - 1) + 1) in *.
  assert (Hv : 1 <= v < 9999) by (unfold v; lra).
  assert (Hlo : (1 <= floor v)%Z) by (apply (Zfloor_lub 1); lra).
  assert (Hhi : (floor v < 9999)%Z) by (apply floor_lt; lra).
  assert (Hk : DISPLAY_TEXT (config (keyTyped rnd rasterize "r" s))
               = String_of_nat (Z.to_nat (floor v))).
  { rewrite Ht. unfold String_of_Z.
    destruct (floor v <? 0)%Z eqn:E; [apply Z.ltb_lt in E; lia | reflexivity]. }
  split; [exists (floor v); split; [lia | exact Hk] |].
  split; [rewrite Hk; apply String_of_nat_digits |].
  unfold keyTyped. cbn [String.eqb Ascii.eqb Bool.eqb].
  unfold random_range, random01, bind, ret.
  match goal with
  | |- context [buildTextParticles rnd rasterize ?s0] =>
      pose proof (buildTextParticles_fields rnd rasterize s0) as H
  end.
  cbv zeta in H. destruct H as (Hc & Hw & Hh & Hm & _).
  rewrite Hc, Hw, Hh, Hm.
  cbn [config width height startMillis RUN_SECONDS BREATH_SECONDS].
  repeat split; reflexivity.
Qed.

(** The 'r' key right after [setup] on an 8 by 8 canvas. *)
Lemma X13_random_number_key_witness :
  let rnd := fun _ : nat => 1 / 2 in
  let rasterize := fun (_ : string) (w h : nat) => background_pixels w h in
  let s := setup rnd rasterize None None None 8 8 0 in
  let s' := keyTyped rnd rasterize "r" s in
  (exists k : Z,
      (1 <= k <= 9998)%Z
      /\ DISPLAY_TEXT (config s') = String_of_nat (Z.to_nat k))
  /\ all_digits (DISPLAY_TEXT (config s')) = true
  /\ RUN_SECONDS (config s') = RUN_SECONDS (config s)
  /\ BREATH_SECONDS (config s') = BREATH_SECONDS (config s)
  /\ width s' = width s /\ height s' = height s
  /\ startMillis s' = startMillis s.
Proof.
  apply (X13_random_number_key (fun _ => 1 / 2)
           (fun (_ : string) (w h : nat) => background_pixels w h)).
  intros _. lra.
Defined.

(** ** The countdown *)

Lemma floor_sub_IZR (r : R) (m : Z) : floor (r - IZR m) = (floor r - m)%Z.
Proof.
  unfold floor. pose proof (Zfloor_bound r) as [Hlo Hhi].
  apply Zfloor_eq. rewrite minus_IZR. lra.
Qed.

Lemma floor_div_60 (r : R) :
  0 <= r -> floor (r / 60) = (floor r / 60)%Z.
Proof.
  intros Hr. pose proof (Zfloor_bound r) as [Hlo Hhi].
  pose proof (floor_nonneg r Hr) as Hnn. unfold floor in *.
  set (f := Zfloor r) in *.
  pose proof (Z.div_mod f 60 ltac:(lia)) as Hdm.
  pose proof (Z.mod_pos_bound f 60 ltac:(lia)) as Hmod.
  apply Zfloor_eq.
  assert (E : IZR f = 60 * IZR (f / 60) + IZR (f mod 60)).
  { rewrite Hdm at 1. rewrite plus_IZR, mult_IZR. reflexivity. }
  assert (H0 : 0 <= IZR (f mod 60)) by (apply IZR_le; lia).
  assert (H59 : IZR (f mod 60) <= 59) by (apply IZR_le; lia).
  lra.
Qed.

Lemma nf2_length_small (k : Z) :
  (0 <= k < 100)%Z -> String.length (nf k 2) = 2%nat.
Proof.
  intros Hk.
  assert (Hall : forallb (fun n => Nat.eqb (String.length (nf (Z.of_nat n) 2)) 2)
                         (seq 0 100) = true) by (vm_compute; reflexivity).
  rewrite forallb_forall in Hall.
  specialize (Hall (Z.to_nat k)). rewrite Z2Nat.id in Hall by lia.
  apply Nat.eqb_eq. apply Hall. apply in_seq. lia.
Qed.

(** X14: for every run duration and elapsed time, the minutes and seconds of
    the countdown are the quotient and remainder by 60 of the whole seconds
    remaining, so [60 * mm + ss] is the remaining time rounded down; the text
    is "00:00" from one second before the end on, and it has 5 characters
    while less than 100 minutes remain. *)
Theorem X14_countdown_minutes_seconds (run : Q) (elapsed : R) (w h : nat) :
  let remaining := Rmax 0 (Q2R run - elapsed) in
  let mm := floor (remaining / 60) in
  let ss := floor (fmod remaining 60) in
  let shown := option_map hud_text (countdown (Some run) elapsed w h) in
  (mm = floor remaining / 60)%Z /\ (ss = floor remaining mod 60)%Z
  /\ (60 * mm + ss = floor remaining)%Z
  /\ shown = Some (nf mm 2 ++ ":" ++ nf ss 2)%string
  /\ (Q2R run - elapsed < 1 -> shown = Some "00:00"%string)
  /\ (Q2R run - elapsed < 6000 ->
      option_map String.length shown = Some 5%nat).
Proof.
  cbv zeta.
  set (remaining := Rmax 0 (Q2R run - elapsed)).
  assert (Hr : 0 <= remaining) by apply Rmax_l.
  assert (Hmm : floor (remaining / 60) = (floor remaining / 60)%Z)
    by (apply floor_div_60; exact Hr).
  assert (Hss : floor (fmod remaining 60) = (floor remaining mod 60)%Z).
  { unfold fmod.
    assert (Hq : 0 <= remaining / 60) by lra.
    rewrite (Rtrunc_nonneg _ Hq). fold (floor (remaining / 60)). rewrite Hmm.
    rewrite <- mult_IZR. rewrite floor_sub_IZR.
    pose proof (Z.div_mod (floor remaining) 60 ltac:(lia)). lia. }
  pose proof (floor_nonneg remaining Hr) as Hnn.
  split; [exact Hmm |]. split; [exact Hss |].
  split.
  { rewrite Hmm, Hss.
    pose proof (Z.div_mod (floor remaining) 60 ltac:(lia)). lia. }
  split; [reflexivity |].
  cbn [countdown option_map]. fold remaining.
  unfold drawCountdown. cbv zeta. cbn [hud_text].
  split.
  - intros Hlt.
    assert (H1 : remaining < 1) by (unfold remaining; apply Rmax_lub_lt; lra).
    assert (Hf : floor remaining = 0%Z) by (apply Zfloor_eq; simpl; lra).
    rewrite Hmm, Hss, Hf. reflexivity.
  - intros Hlt.
    assert (H1 : remaining < 6000)
      by (unfold remaining; apply Rmax_lub_lt; lra).
    assert (Hf : (floor remaining < 6000)%Z) by (apply floor_lt; exact H1).
    f_equal. rewrite !length_append. cbn [String.length].
    rewrite Hmm, Hss.
    pose proof (Z.mod_pos_bound (floor remaining) 60 ltac:(lia)) as Hmod.
    rewrite !nf2_length_small; [reflexivity | lia |].
    split; [apply Z.div_pos; lia | apply Z.div_lt_upper_bound; lia].
Qed.

(** ** Trimming the display text *)

Lemma trimStart_no_lead (s : string) : starts_with_space (trimStart s) = false.
Proof.
  induction s as [| c s IH]; [reflexivity |].
  cbn [trimStart]. destruct (isWhiteSpace c) eqn:E; [exact IH |].
  cbn [starts_with_space]. exact E.
Qed.

Lemma trimStart_fixed (s : string) :
  starts_with_space s = false -> trimStart s = s.
Proof.
  destruct s as [| c s]; [reflexivity |].
  cbn [starts_with_space trimStart]. intros E. rewrite E. reflexivity.
Qed.

Lemma trimEnd_no_trail (s : string) : ends_with_space (trimEnd s) = false.
Proof.
  induction s as [| c s IH]; [reflexivity |].
  cbn [trimEnd]. destruct (trimEnd s) as [| c' r] eqn:E.
  - destruct (isWhiteSpace c) eqn:Ec; [reflexivity |].
    cbn [ends_with_space]. exact Ec.
  - exact IH.
Qed.

Lemma trimEnd_fixed (s : string) :
  ends_with_space s = false -> trimEnd s = s.
Proof.
  induction s as [| c s IH]; [reflexivity |].
  destruct s as [| c' r].
  - cbn [ends_with_space trimEnd]. intros E. rewrite E. reflexivity.
  - intros E. change (ends_with_space (String c' r) = false) in E.
    specialize (IH E).
    change (trimEnd (String c (String c' r)))
      with (match trimEnd (String c' r) with
            | EmptyString =>
                if isWhiteSpace c then EmptyString else String c EmptyString
            | r0 => String c r0
            end).
    rewrite IH. reflexivity.
Qed.

Lemma trimEnd_keeps_start (s : string) :
  starts_with_space s = false -> starts_with_space (trimEnd s) = false.
Proof.
  destruct s as [| c s]; [reflexivity |].
  cbn [starts_with_space trimEnd]. intros E.
  destruct (trimEnd s); [rewrite E |]; cbn [starts_with_space]; exact E.
Qed.

Lemma trim_clean (s : string) :
  starts_with_space (trim s) = false /\ ends_with_space (trim s) = false
  /\ trim (trim s) = trim s.
Proof.
  assert (H1 : starts_with_space (trim s) = false)
    by (apply trimEnd_keeps_start, trimStart_no_lead).
  assert (H2 : ends_with_space (trim s) = false) by apply trimEnd_no_trail.
  split; [exact H1 |]. split; [exact H2 |].
  unfold trim at 1. rewrite (trimStart_fixed _ H1). apply trimEnd_fixed, H2.
Qed.

Lemma trim_all_space (s : string) :
  all_space s = true -> trim s = EmptyString.
Proof.
  unfold trim. induction s as [| c s IH]; [reflexivity |].
  cbn [all_space trimStart]. intros H. apply andb_prop in H as [Hc Hs].
  rewrite Hc. apply IH, Hs.
Qed.

Lemma trimStart_skip (ws s : string) :
  all_space ws = true -> trimStart (ws ++ s) = trimStart s.
Proof.
  induction ws as [| c ws IH]; [reflexivity |].
  cbn [all_space append trimStart]. intros H.
  apply andb_prop in H as [Hc Hs]. rewrite Hc. apply IH, Hs.
Qed.

Lemma trimEnd_nonempty (s : string) :
  trimEnd s = EmptyString -> all_space s = true.
Proof.
  induction s as [| c s IH]; [reflexivity |].
  cbn [trimEnd all_space]. destruct (trimEnd s) as [| c' r].
  - destruct (isWhiteSpace c); [intros _; rewrite IH; reflexivity | discriminate].
  - discriminate.
Qed.

Lemma trim_empty_all_space (s : string) :
  trim s = EmptyString -> all_space s = true.
Proof.
  unfold trim. induction s as [| c s IH]; [reflexivity |].
  cbn [trimStart all_space]. destruct (isWhiteSpace c) eqn:E.
  - intros H. rewrite (IH H). reflexivity.
  - intros H. apply trimEnd_nonempty in H. cbn [all_space] in H.
    rewrite E in H. discriminate.
Qed.

(** X15: the display text [getParams] leaves is never empty, has no white
    space at either end and is unchanged by another [trim]; a parameter made
    of white space only keeps the default, any other gives its trimmed value;
    and passing the resulting text as the parameter gives the same text. *)
Theorem X15_display_text_is_trimmed (n d b : option string) :
  let text := DISPLAY_TEXT (getParams n d b default_config) in
  text <> EmptyString
  /\ starts_with_space text = false /\ ends_with_space text = false
  /\ trim text = text
  /\ (forall s, n = Some s -> all_space s = true -> text = "56"%string)
  /\ (forall s, n = Some s -> all_space s = false ->
        text = trim s /\ trim s <> EmptyString)
  /\ DISPLAY_TEXT (getParams (Some text) d b default_config) = text.
Proof.
  cbv zeta.
  assert (Hcases :
    DISPLAY_TEXT (getParams n d b default_config) = "56"%string
    /\ (forall s, n = Some s -> trim s = EmptyString)
    \/ exists s, n = Some s /\ trim s <> EmptyString
                 /\ DISPLAY_TEXT (getParams n d b default_config) = trim s).
  { unfold getParams. cbn [DISPLAY_TEXT default_config].
    destruct n as [s |]; [| left; split; [reflexivity | discriminate]].
    destruct (String.eqb (trim s) "") eqn:E; cbn [negb].
    - left. split; [reflexivity |]. intros s' [= <-].
      apply String.eqb_eq. exact E.
    - right. exists s. split; [reflexivity |]. split; [| reflexivity].
      apply String.eqb_neq. exact E. }
  assert (Hclean : forall text,
             text <> EmptyString -> trim text = text ->
             DISPLAY_TEXT (getParams (Some text) d b default_config) = text).
  { intros text Hne Htr. unfold getParams. cbn [DISPLAY_TEXT default_config].
    rewrite Htr. apply String.eqb_neq in Hne. rewrite Hne. reflexivity. }
  destruct Hcases as [[E Hblank] | (s & -> & Hne & E)]; rewrite E.
  - split; [discriminate |]. split; [reflexivity |]. split; [reflexivity |].
    split; [reflexivity |]. split; [| split].
    + intros; reflexivity.
    + intros s Hs Hall. pose proof (trim_empty_all_space s (Hblank s Hs)) as H.
      rewrite H in Hall. discriminate.
    + apply Hclean; [discriminate | reflexivity].
  - destruct (trim_clean s) as (H1 & H2 & H3).
    split; [exact Hne |]. split; [exact H1 |]. split; [exact H2 |].
    split; [exact H3 |]. split; [| split].
    + intros s' [= <-] Hall. apply trim_all_space in Hall. contradiction.
    + intros s' [= <-] _. split; [reflexivity | exact Hne].
    + apply Hclean; assumption.
Qed.

(** ** Reading numbers: white space, signs and literals *)

Lemma head_of_literal (body : string) :
  starts_with_digit body = true \/ starts_with_dot body = true ->
  trimStart body = body /\ strip_sign body = (false, body)
  /\ String.prefix "Infinity" body = false.
Proof.
  destruct body as [| c r]; [intros [H | H]; discriminate H |].
  cbn [starts_with_digit starts_with_dot]. intros [H | H].
  - cbn [trimStart]. rewrite (isDigit_not_space c H).
    rewrite (strip_sign_digit c r H), (prefix_Infinity_digit c r H).
    repeat split; reflexivity.
  - destruct c as [[] [] [] [] [] [] [] []]; try discriminate H.
    repeat split; reflexivity.
Qed.

Lemma sign_of_literal (sg body : string) :
  is_sign sg ->
  starts_with_digit body = true \/ starts_with_dot body = true ->
  trimStart (sg ++ body) = (sg ++ body)%string
  /\ strip_sign (sg ++ body) = (String.eqb sg "-", body).
Proof.
  intros [-> | [-> | ->]] Hb.
  - destruct (head_of_literal body Hb) as (H1 & H2 & _).
    cbn [append String.eqb]. split; assumption.
  - split; reflexivity.
  - split; reflexivity.
Qed.

Lemma digits_head (ds rest : string) :
  all_digits ds = true -> ds <> EmptyString ->
  starts_with_digit (ds ++ rest) = true.
Proof.
  destruct ds as [| c ds]; [intros _ H; contradiction H; reflexivity |].
  cbn [all_digits append starts_with_digit]. intros H _.
  apply andb_prop in H as [H _]. exact H.
Qed.

(** [parseInt] on white space, an optional sign, digits and anything that
    does not start with a digit. *)
Lemma parseInt_literal (ws sg ds rest : string) :
  all_space ws = true -> is_sign sg ->
  all_digits ds = true -> ds <> EmptyString ->
  starts_with_digit rest = false ->
  parseInt (ws ++ sg ++ ds ++ rest)
  = to_number (apply_sign (String.eqb sg "-") (inject_Z (digits_value ds))).
Proof.
  intros Hws Hsg Hds Hne Hrest. unfold parseInt.
  rewrite (trimStart_skip ws _ Hws).
  destruct (sign_of_literal sg (ds ++ rest) Hsg
              (or_introl (digits_head ds rest Hds Hne))) as [H1 H2].
  rewrite H1, H2, (span_digits_app ds rest Hds Hrest).
  destruct ds; [contradiction Hne; reflexivity | reflexivity].
Qed.

Lemma parseInt_skip_space (ws s : string) :
  all_space ws = true -> parseInt (ws ++ s) = parseInt s.
Proof.
  intros Hws. unfold parseInt. rewrite (trimStart_skip ws s Hws).
  reflexivity.
Qed.

(** [parseFloat] on white space, an optional sign, digits with a fraction,
    and anything that does not start with a digit. *)
Lemma parseFloat_fraction (ws sg ip fp rest : string) :
  all_space ws = true -> is_sign sg ->
  all_digits ip = true -> all_digits fp = true ->
  (ip ++ fp)%string <> EmptyString ->
  starts_with_digit rest = false ->
  parseFloat (ws ++ sg ++ ip ++ "." ++ fp ++ rest)
  = to_number (apply_sign (String.eqb sg "-")
                          (decimal_value ip fp (exponent_part rest))).
Proof.
  intros Hws Hsg Hip Hfp Hne Hrest. unfold parseFloat.
  rewrite (trimStart_skip ws _ Hws).
  assert (Hhead : starts_with_digit (ip ++ "." ++ fp ++ rest) = true
                  \/ starts_with_dot (ip ++ "." ++ fp ++ rest) = true).
  { destruct ip as [| c ip]; [right; reflexivity | left].
    apply (digits_head (String c ip)); [exact Hip | discriminate]. }
  destruct (sign_of_literal sg _ Hsg Hhead) as [H1 H2].
  destruct (head_of_literal _ Hhead) as (_ & _ & H3).
  rewrite H1, H2, H3.
  rewrite (span_digits_app ip ("." ++ fp ++ rest) Hip) by reflexivity.
  cbn [append]. rewrite (span_digits_app fp rest Hfp Hrest).
  unfold decimal_value.
  destruct (ip ++ fp)%string; [contradiction Hne; reflexivity | reflexivity].
Qed.

(** [parseFloat] on white space, an optional sign, digits without a
    fraction, and anything that starts with neither a digit nor a dot. *)
Lemma parseFloat_integer (ws sg ip rest : string) :
  all_space ws = true -> is_sign sg ->
  all_digits ip = true -> ip <> EmptyString ->
  starts_with_digit rest = false -> starts_with_dot rest = false ->
  parseFloat (ws ++ sg ++ ip ++ rest)
  = to_number (apply_sign (String.eqb sg "-")
                          (decimal_value ip "" (exponent_part rest))).
Proof.
  intros Hws Hsg Hip Hne Hrest Hdot. unfold parseFloat.
  rewrite (trimStart_skip ws _ Hws).
  pose proof (or_introl (starts_with_dot (ip ++ rest) = true)
                (digits_head ip rest Hip Hne)) as Hhead.
  destruct (sign_of_literal sg _ Hsg Hhead) as [H1 H2].
  destruct (head_of_literal _ Hhead) as (_ & _ & H3).
  rewrite H1, H2, H3, (span_digits_app ip rest Hip Hrest).
  assert (Hr : match rest with
               | String "." r => span_digits r
               | _ => (EmptyString, rest)
               end = (EmptyString, rest)).
  { destruct rest as [| c r]; [reflexivity |].
    destruct c as [[] [] [] [] [] [] [] []]; try reflexivity.
    discriminate Hdot. }
  rewrite Hr. unfold decimal_value. rewrite !append_nil.
  destruct ip; [contradiction Hne; reflexivity | reflexivity].
Qed.

(** [parseFloat] without a literal to read. *)
Lemma parseFloat_none (s : string) :
  let body := snd (strip_sign (trimStart s)) in
  String.prefix "Infinity" body = true
  \/ starts_with_digit body = false /\ starts_with_fraction body = false ->
  isFinite (parseFloat s) = false.
Proof.
  cbv zeta. unfold parseFloat.
  destruct (strip_sign (trimStart s)) as [neg body]. cbn [snd].
  intros [H | [Hd Hf]]; [rewrite H; reflexivity |].
  destruct (String.prefix "Infinity" body); [reflexivity |].
  rewrite (span_digits_none body Hd).
  destruct body as [| c r]; [reflexivity |].
  destruct c as [[] [] [] [] [] [] [] []]; try reflexivity.
  cbn [starts_with_fraction] in Hf. rewrite (span_digits_none r Hf).
  reflexivity.
Qed.

(** The exponent part: none, or an indicator, an optional sign and
    digits. *)
Lemma exponent_part_none (rest : string) :
  starts_with_exponent rest = false -> exponent_part rest = 0%Z.
Proof.
  destruct rest as [| c r]; [reflexivity |].
  cbn [starts_with_exponent exponent_part]. intros ->. reflexivity.
Qed.

Lemma exponent_part_digits (c : ascii) (sg ds rest : string) :
  isExponentIndicator c = true -> is_sign sg ->
  all_digits ds = true -> ds <> EmptyString ->
  starts_with_digit rest = false ->
  exponent_part (String c (sg ++ ds ++ rest))
  = (if String.eqb sg "-" then - digits_value ds else digits_value ds)%Z.
Proof.
  intros Hc Hsg Hds Hne Hrest. cbn [exponent_part]. rewrite Hc.
  destruct (sign_of_literal sg (ds ++ rest) Hsg
              (or_introl (digits_head ds rest Hds Hne))) as [_ H2].
  rewrite H2, (span_digits_app ds rest Hds Hrest).
  destruct ds; [contradiction Hne; reflexivity | reflexivity].
Qed.

(** What [getParams] makes of a duration and of a breath value. *)
Lemma run_of_value (z : Z) :
  (let sec := to_number (inject_Z z) in
   if isFinite sec && number_gtb sec 0 then Some (finite_value sec) else None)
  = if ((0 <? z) && (z <? overflow_threshold))%Z
    then Some (Qred (round_double (inject_Z z))) else None.
Proof.
  cbv zeta. unfold to_number.
  change (Qabs (inject_Z z)) with (inject_Z (Z.abs z)).
  destruct (Z.ltb_spec 0 z) as [Hpos | Hneg]; cbn [andb].
  - assert (Hr : (0 < Qred (round_double (inject_Z z)))%Q).
    { rewrite Qred_correct.
      apply Qlt_le_trans with (2 ^ 0)%Q; [reflexivity |].
      apply round_double_ge_pow2; [lia |].
      change (2 ^ 0)%Q with (inject_Z 1). rewrite <- Zle_Qle. lia. }
    apply Qltb_lt in Hr.
    destruct (Z.ltb_spec z overflow_threshold) as [Ht | Ht].
    + assert (E : Qltb (inject_Z (Z.abs z)) (inject_Z overflow_threshold)
                  = true) by (apply Qltb_lt; rewrite <- Zlt_Qlt; lia).
      rewrite E. cbn [isFinite number_gtb finite_value andb]. rewrite Hr.
      reflexivity.
    + assert (E : Qltb (inject_Z (Z.abs z)) (inject_Z overflow_threshold)
                  = false).
      { apply not_true_iff_false. intros H. apply Qltb_lt in H.
        rewrite <- Zlt_Qlt in H. lia. }
      rewrite E. reflexivity.
  - destruct (Qltb (inject_Z (Z.abs z)) (inject_Z overflow_threshold));
      [| reflexivity].
    cbn [isFinite number_gtb finite_value andb].
    assert (E : Qltb 0 (Qred (round_double (inject_Z z))) = false).
    { apply not_true_iff_false. intros H. apply Qltb_lt in H.
      rewrite Qred_correct in H.
      assert (Hz : (inject_Z z <= 0)%Q)
        by (change 0%Q with (inject_Z 0); rewrite <- Zle_Qle; exact Hneg).
      pose proof (round_double_nonpos _ Hz) as Hn.
      apply (Qlt_irrefl 0). eapply Qlt_le_trans; eassumption. }
    rewrite E. reflexivity.
Qed.

Lemma breath_of_value (v : Q) :
  (let sec := to_number v in
   if isFinite sec && number_gtb sec (1 # 2) then finite_value sec else 8%Q)
  = if Qltb ((1 # 2) + 2 ^ (- 54)) v && Qltb v (inject_Z overflow_threshold)
    then Qred (round_double v) else 8%Q.
Proof.
  cbv zeta. unfold to_number.
  destruct (Qltb ((1 # 2) + 2 ^ (- 54)) v) eqn:Ev; cbn [andb].
  - pose proof Ev as Hv. apply Qltb_lt in Hv.
    assert (Habs : (Qabs v == v)%Q).
    { apply Qabs_pos. apply Qlt_le_weak.
      eapply Qlt_trans; [| exact Hv]. reflexivity. }
    assert (Et : Qltb (Qabs v) (inject_Z overflow_threshold)
                 = Qltb v (inject_Z overflow_threshold)).
    { unfold Qltb. f_equal. apply Qleb_comp; [reflexivity | exact Habs]. }
    rewrite Et. destruct (Qltb v (inject_Z overflow_threshold));
      [| reflexivity].
    cbn [isFinite number_gtb finite_value andb].
    assert (E : Qltb (1 # 2) (Qred (round_double v)) = true).
    { apply Qltb_lt. rewrite Qred_correct. apply round_double_half. exact Hv. }
    rewrite E. reflexivity.
  - destruct (Qltb (Qabs v) (inject_Z overflow_threshold)); [| reflexivity].
    cbn [isFinite number_gtb finite_value andb].
    assert (E : Qltb (1 # 2) (Qred (round_double v)) = false).
    { apply not_true_iff_false. intros H. apply Qltb_lt in H.
      rewrite Qred_correct in H. apply round_double_half in H.
      apply Qltb_lt in H. congruence. }
    rewrite E. reflexivity.
Qed.

(** C8 (amended): [getParams] is total.  A missing, empty or blank display
    text keeps the default, any other is used trimmed.  The run stays
    unbounded unless the duration string, read as [parseInt] reads it (leading
    white space, an optional sign, then the longest run of digits, the rest
    ignored), gives a positive integer below the overflow threshold
    [2^1024 - 2^970], and then the run duration is the double nearest to that
    integer, the integer itself up to [2^53].  The breath half-period keeps
    its default unless the breath string, read as [parseFloat] reads it
    (leading white space, an optional sign, then the longest decimal literal:
    digits, an optional fraction, an optional exponent), gives a value above
    [0.5 + 2^-54], the values that round above 0.5, and below the overflow
    threshold, and then it is the double nearest to that value; it is above
    0.5 in every case.  The nearest double is within half a unit in the last
    place of the value read and has a significand of at most 53 bits. *)
Theorem C8_getParams (n d b : option string) :
  let c := getParams n d b default_config in
  ((n = None \/ exists s, n = Some s /\ trim s = EmptyString) ->
     DISPLAY_TEXT c = "56"%string)
  /\ (forall s, n = Some s -> trim s <> EmptyString -> DISPLAY_TEXT c = trim s)
  /\ (RUN_SECONDS c = None
      \/ exists k : Z, (0 < k < overflow_threshold)%Z
           /\ RUN_SECONDS c = Some (Qred (round_double (inject_Z k))))
  /\ (d = None -> RUN_SECONDS c = None)
  /\ (forall s, d = Some s ->
        starts_with_digit (snd (strip_sign (trimStart s))) = false ->
        RUN_SECONDS c = None)
  /\ (forall ws sg ds rest : string,
        d = Some (ws ++ sg ++ ds ++ rest)%string ->
        all_space ws = true -> is_sign sg ->
        all_digits ds = true -> ds <> EmptyString ->
        starts_with_digit rest = false ->
        let k := digits_value ds in
        RUN_SECONDS c
        = if (negb (String.eqb sg "-")
              && ((0 <? k) && (k <? overflow_threshold))%Z)
          then Some (Qred (round_double (inject_Z k))) else None)
  /\ (1 # 2 < BREATH_SECONDS c)%Q
  /\ (b = None -> BREATH_SECONDS c = 8%Q)
  /\ (forall s, b = Some s ->
        let body := snd (strip_sign (trimStart s)) in
        String.prefix "Infinity" body = true
        \/ starts_with_digit body = false /\ starts_with_fraction body = false ->
        BREATH_SECONDS c = 8%Q)
  /\ (forall ws sg ip fp rest : string,
        b = Some (ws ++ sg ++ ip ++ "." ++ fp ++ rest)%string ->
        all_space ws = true -> is_sign sg ->
        all_digits ip = true -> all_digits fp = true ->
        (ip ++ fp)%string <> EmptyString ->
        starts_with_digit rest = false ->
        let v := apply_sign (String.eqb sg "-")
                            (decimal_value ip fp (exponent_part rest)) in
        BREATH_SECONDS c
        = if Qltb ((1 # 2) + 2 ^ (- 54)) v
             && Qltb v (inject_Z overflow_threshold)
          then Qred (round_double v) else 8%Q)
  /\ (forall ws sg ip rest : string,
        b = Some (ws ++ sg ++ ip ++ rest)%string ->
        all_space ws = true -> is_sign sg ->
        all_digits ip = true -> ip <> EmptyString ->
        starts_with_digit rest = false -> starts_with_dot rest = false ->
        let v := apply_sign (String.eqb sg "-")
                            (decimal_value ip "" (exponent_part rest)) in
        BREATH_SECONDS c
        = if Qltb ((1 # 2) + 2 ^ (- 54)) v
             && Qltb v (inject_Z overflow_threshold)
          then Qred (round_double v) else 8%Q)
  /\ (forall rest, starts_with_exponent rest = false ->
        exponent_part rest = 0%Z)
  /\ (forall (e : ascii) (sg ds rest : string),
        isExponentIndicator e = true -> is_sign sg ->
        all_digits ds = true -> ds <> EmptyString ->
        starts_with_digit rest = false ->
        exponent_part (String e (sg ++ ds ++ rest))
        = (if String.eqb sg "-" then - digits_value ds
           else digits_value ds)%Z)
  /\ (forall z : Z, (Z.abs z <= 2 ^ 53)%Z ->
        Qred (round_double (inject_Z z)) = inject_Z z)
  /\ (forall q : Q, (Qabs (round_double q - q) <= (1 # 2) * ulp q)%Q)
  /\ (forall q : Q, ~ (q == 0)%Q ->
        exists m : Z, round_double q = (inject_Z m * ulp q)%Q
                      /\ (Z.abs m <= 2 ^ 53)%Z).
Proof.
  cbv zeta.
  assert (Hrun : forall s,
             RUN_SECONDS (getParams n (Some s) b default_config)
             = (let sec := parseInt s in
                if isFinite sec && number_gtb sec 0
                then Some (finite_value sec) else None)) by reflexivity.
  assert (Hbreath : forall s,
             BREATH_SECONDS (getParams n d (Some s) default_config)
             = (let sec := parseFloat s in
                if isFinite sec && number_gtb sec (1 # 2)
                then finite_value sec else 8%Q)) by reflexivity.
  repeat apply conj.
  - unfold getParams. cbn [DISPLAY_TEXT default_config].
    intros [-> | (s & -> & Hs)]; [reflexivity |]. rewrite Hs. reflexivity.
  - unfold getParams. cbn [DISPLAY_TEXT default_config].
    intros s -> Hs. destruct (String.eqb_spec (trim s) ""); [contradiction |].
    reflexivity.
  - destruct d as [s |]; [| left; reflexivity]. rewrite Hrun. cbv zeta.
    destruct (parseInt s) as [| neg | sec] eqn:E; try (left; reflexivity).
    cbn [isFinite number_gtb finite_value andb].
    destruct (Qltb 0 sec) eqn:Hpos; [| left; reflexivity].
    right. apply parseInt_Finite in E as (z & -> & Hz).
    exists z. split; [| reflexivity]. split; [| lia].
    apply Qltb_lt in Hpos. rewrite Qred_correct in Hpos.
    destruct (Z_lt_le_dec 0 z) as [H | H]; [exact H | exfalso].
    assert (Hq : (inject_Z z <= 0)%Q)
      by (change 0%Q with (inject_Z 0); rewrite <- Zle_Qle; exact H).
    pose proof (round_double_nonpos _ Hq) as Hn.
    apply (Qlt_irrefl 0). eapply Qlt_le_trans; eassumption.
  - intros ->. reflexivity.
  - intros s -> Hs. rewrite Hrun, (parseInt_no_digit s Hs). reflexivity.
  - intros ws sg ds rest -> Hws Hsg Hds Hne Hrest. cbv zeta.
    rewrite Hrun, (parseInt_literal ws sg ds rest Hws Hsg Hds Hne Hrest).
    destruct (String.eqb sg "-"); cbn [apply_sign negb andb].
    + change (- inject_Z (digits_value ds))%Q
        with (inject_Z (- digits_value ds)).
      rewrite run_of_value.
      assert (H0 : (0 <= digits_value ds)%Z).
      { unfold digits_value.
        assert (G : forall s acc, (0 <= acc)%Z -> all_digits s = true ->
                                  (0 <= digits_value_acc acc s)%Z).
        { induction s as [| c s IH]; intros acc Hacc Hall;
            cbn [digits_value_acc]; [exact Hacc |].
          cbn [all_digits] in Hall. apply andb_prop in Hall as [Hc Hs].
          apply IH; [| exact Hs].
          unfold isDigit in Hc. apply andb_prop in Hc as [Hc1 _].
          apply Nat.leb_le in Hc1. unfold digit_value. lia. }
        apply G; [lia | exact Hds]. }
      destruct (Z.ltb_spec 0 (- digits_value ds)); [lia | reflexivity].
    + apply run_of_value.
  - destruct b as [s |]; [| reflexivity]. rewrite Hbreath. cbv zeta.
    destruct (parseFloat s) as [| neg | sec]; try reflexivity.
    cbn [isFinite number_gtb finite_value andb].
    destruct (Qltb (1 # 2) sec) eqn:E; [apply Qltb_lt; exact E | reflexivity].
  - intros ->. reflexivity.
  - intros s -> Hs. rewrite Hbreath. cbv zeta.
    rewrite (parseFloat_none s Hs). reflexivity.
  - intros ws sg ip fp rest -> Hws Hsg Hip Hfp Hne Hrest. cbv zeta.
    rewrite Hbreath,
      (parseFloat_fraction ws sg ip fp rest Hws Hsg Hip Hfp Hne Hrest).
    apply breath_of_value.
  - intros ws sg ip rest -> Hws Hsg Hip Hne Hrest Hdot. cbv zeta.
    rewrite Hbreath,
      (parseFloat_integer ws sg ip rest Hws Hsg Hip Hne Hrest Hdot).
    apply breath_of_value.
  - apply exponent_part_none.
  - apply exponent_part_digits.
  - apply Qred_round_double_int.
  - apply round_double_error.
  - intros q Hq. exists (round_half_even (q / ulp q)).
    split; [apply round_double_eq; exact Hq |].
    apply round_double_significand. exact Hq.
Qed.

(** C8 fails as stated: the duration string "12.5" is not an integer and the
    run is bounded to 12 seconds all the same; "1e3" is used as 1, the breath
    string "7px" as 7, and the display text " 7 " as "7"; the duration
    9007199254740993 is accepted and used as 9007199254740992, the breath
    value 0.5000000000000001 as 0.50000000000000011102230246251565404. *)
Lemma C8_counterexample :
  RUN_SECONDS (getParams None (Some "12.5"%string) None default_config)
  = Some 12%Q
  /\ RUN_SECONDS (getParams None (Some "1e3"%string) None default_config)
     = Some 1%Q
  /\ BREATH_SECONDS (getParams None None (Some "7px"%string) default_config)
     = 7%Q
  /\ DISPLAY_TEXT (getParams (Some " 7 "%string) None None default_config)
     = "7"%string
  /\ RUN_SECONDS (getParams None (Some "9007199254740993"%string) None
                            default_config)
     = Some 9007199254740992%Q
  /\ BREATH_SECONDS (getParams None None (Some "0.5000000000000001"%string)
                               default_config)
     = (4503599627370497 # 9007199254740992)%Q.
Proof. vm_compute. repeat split; reflexivity. Qed.

(** The parsers round as the language does. *)
Example rounding_examples :
  parseFloat "0.50000000000000001" = Finite (1 # 2)%Q
  /\ parseFloat "0.1" = Finite (3602879701896397 # 36028797018963968)%Q
  /\ parseInt "9007199254740993" = Finite 9007199254740992%Q
  /\ parseInt "9007199254740995" = Finite 9007199254740996%Q
  /\ parseFloat "2.5e-324" = Finite (1 # 2 ^ 1074)%Q
  /\ parseFloat "2e-324" = Finite 0%Q
  /\ BREATH_SECONDS (getParams None None (Some "0.50000000000000001"%string)
                               default_config) = 8%Q.
Proof. vm_compute. repeat split; reflexivity. Qed.

(** X16: in the duration parameter, leading white space is skipped and
    whatever follows the digits is ignored; a minus sign before the digits
    leaves the run unbounded, a plus sign changes nothing; and the run
    duration read from the digits of [k] alone is none unless [k] is positive
    and below the overflow threshold, and then it is the double nearest to
    [k], which is [k] itself up to [2^53]. *)
Theorem X16_duration_sign_and_space
    (n b : option string) (ws rest : string) (k : nat)
    (Hws : all_space ws = true) (Hrest : starts_with_digit rest = false) :
  let run := fun d => RUN_SECONDS (getParams n (Some d) b default_config) in
  run (ws ++ "-" ++ String_of_nat k ++ rest)%string = None
  /\ run (ws ++ "+" ++ String_of_nat k ++ rest)%string = run (String_of_nat k)
  /\ run (ws ++ String_of_nat k ++ rest)%string = run (String_of_nat k)
  /\ run (String_of_nat k)
     = (if ((0 <? Z.of_nat k) && (Z.of_nat k <? overflow_threshold))%Z
        then Some (Qred (round_double (inject_Z (Z.of_nat k)))) else None)
  /\ ((Z.of_nat k <= 2 ^ 53)%Z ->
      Qred (round_double (inject_Z (Z.of_nat k))) = inject_Z (Z.of_nat k)).
Proof.
  cbv zeta.
  assert (Hrun : forall s,
             RUN_SECONDS (getParams n (Some s) b default_config)
             = (let sec := parseInt s in
                if isFinite sec && number_gtb sec 0
                then Some (finite_value sec) else None)) by reflexivity.
  pose proof (String_of_nat_digits k) as Hds.
  pose proof (String_of_nat_nonempty k) as Hne.
  pose proof (digits_value_String_of_nat k) as Hv.
  assert (Eplain : parseInt (String_of_nat k)
                   = to_number (inject_Z (Z.of_nat k))).
  { rewrite <- (parseInt_decimal k EmptyString) by reflexivity.
    rewrite append_nil. reflexivity. }
  assert (Hplain : RUN_SECONDS (getParams n (Some (String_of_nat k)) b
                                          default_config)
                   = (if ((0 <? Z.of_nat k)
                          && (Z.of_nat k <? overflow_threshold))%Z
                      then Some (Qred (round_double (inject_Z (Z.of_nat k))))
                      else None)).
  { rewrite Hrun, Eplain. apply run_of_value. }
  split; [| split; [| split; [| split]]].
  - rewrite Hrun.
    rewrite (parseInt_literal ws "-" _ rest Hws
               (or_intror (or_intror eq_refl)) Hds Hne Hrest).
    rewrite Hv. cbn [String.eqb Ascii.eqb Bool.eqb apply_sign].
    change (- inject_Z (Z.of_nat k))%Q with (inject_Z (- Z.of_nat k)).
    rewrite run_of_value.
    destruct (Z.ltb_spec 0 (- Z.of_nat k)); [lia | reflexivity].
  - rewrite Hplain, Hrun.
    rewrite (parseInt_literal ws "+" _ rest Hws
               (or_intror (or_introl eq_refl)) Hds Hne Hrest).
    rewrite Hv. cbn [String.eqb Ascii.eqb Bool.eqb apply_sign].
    apply run_of_value.
  - rewrite Hplain, Hrun.
    rewrite (parseInt_skip_space ws _ Hws).
    rewrite (parseInt_decimal k rest Hrest). apply run_of_value.
  - exact Hplain.
  - intros Hk. apply Qred_round_double_int. lia.
Qed.

(** The durations " -90s", " +90s" and " 90s". *)
Lemma X16_duration_sign_and_space_witness :
  let run := fun d => RUN_SECONDS (getParams None (Some d) None default_config) in
  run (" " ++ "-" ++ String_of_nat 90 ++ "s")%string = None
  /\ run (" " ++ "+" ++ String_of_nat 90 ++ "s")%string = run (String_of_nat 90)
  /\ run (" " ++ String_of_nat 90 ++ "s")%string = run (String_of_nat 90)
  /\ run (String_of_nat 90)
     = (if ((0 <? Z.of_nat 90) && (Z.of_nat 90 <? overflow_threshold))%Z
        then Some (Qred (round_double (inject_Z (Z.of_nat 90)))) else None)
  /\ ((Z.of_nat 90 <= 2 ^ 53)%Z ->
      Qred (round_double (inject_Z (Z.of_nat 90))) = inject_Z (Z.of_nat 90)).
Proof.
  apply (X16_duration_sign_and_space None None " " "s" 90); reflexivity.
Defined.

(** ** What a frame shows *)

Lemma Forall2_compose {A B C : Type} (P : A -> B -> Prop) (Q : B -> C -> Prop)
    (l1 : list A) (l2 : list B) (l3 : list C) :
  Forall2 P l1 l2 -> Forall2 Q l2 l3 ->
  Forall2 (fun a c => exists b, P a b /\ Q b c) l1 l3.
Proof.
  intros H. revert l3. induction H as [| a b l1 l2 Hab _ IH]; intros l3 HQ.
  - inversion HQ. constructor.
  - inversion HQ as [| ? c ? l3' Hbc Hrest]; subst.
    constructor; [exists b; split; assumption | apply IH; exact Hrest].
Qed.

Section DrawnDots.

Variable rnd : nat -> R.
Variable noise : R -> R -> R -> R.
Variable rasterize : string -> nat -> nat -> list Z.
Hypothesis rnd_range : forall k, 0 <= rnd k < 1.
Hypothesis noise_range : forall x y z, 0 <= noise x y z <= 1.

Lemma buildTextParticles_on_text (s : Sketch) :
  (1 # 2 < BREATH_SECONDS (config s))%Q ->
  on_text rasterize (buildTextParticles rnd rasterize s).
Proof.
  intros Hb.
  pose proof (buildTextParticles_fields rnd rasterize s) as Hf.
  pose proof (buildTextParticles_homes rnd rasterize s) as Hhomes.
  pose proof (buildTextParticles_within rnd rasterize rnd_range s) as Hwithin.
  pose proof (buildTextParticles_sample rnd rasterize s) as Hs.
  cbv zeta in Hf, Hhomes, Hwithin, Hs.
  destruct Hf as (Hc & Hw & Hh & _). destruct Hs as [Hp _].
  split; [apply buildTextParticles_ready |]. split; [rewrite Hc; exact Hb |].
  assert (Hsize : Forall (fun p => 16 / 10 <= size p < 24 / 10)
                         (particles (buildTextParticles rnd rasterize s))).
  { rewrite Hp, sampleParticles_build. destruct (world s) as [h sd].
    pose proof (build_from_shape rnd
      (sample_points (rasterize (DISPLAY_TEXT (config s)) (width s) (height s))
                     (width s) (height s)) h sd) as H.
    cbv zeta in H. destruct H as [H _].
    eapply Forall2_Forall_r; [exact H |].
    intros pt p _ (_ & k & _ & Hsz & _). rewrite Hsz.
    pose proof (rnd_range (S k)). lra. }
  rewrite Forall_forall in Hwithin, Hsize.
  eapply Forall2_impl_In_both; [exact Hhomes |].
  intros pt p _ Hin Hhome. split; [exact Hhome |].
  split; [apply Hwithin | apply Hsize]; exact Hin.
Qed.

Lemma draw_on_text (ms ms' : R) (s : Sketch) :
  0 <= ms -> on_text rasterize s ->
  on_text rasterize (fst (draw rnd noise rasterize ms ms' s)).
Proof.
  intros Hms (Hs & Hb & Hall).
  destruct (draw_frame rnd noise rasterize ms ms' s Hs)
    as (Hs' & Hp & _ & _ & Hframe).
  assert (Hreach : Forall (within_reach (heap (world s))) (particles s)).
  { eapply Forall2_Forall_r; [exact Hall |]. intros pt p _ (_ & H & _). exact H. }
  pose proof (draw_within rnd noise rasterize noise_range ms ms' s Hs
                (breath_positive _ Hb) Hms Hreach) as Hreach'.
  cbv zeta in Hreach'. rewrite Hp in Hreach'. rewrite Forall_forall in Hreach'.
  pose proof (draw_ready_eq rnd noise rasterize ms ms' s Hs) as E.
  cbv zeta in E.
  split; [exact Hs' |]. split; [rewrite E; cbn [fst config]; exact Hb |].
  assert (Ec : config (fst (draw rnd noise rasterize ms ms' s)) = config s)
    by (rewrite E; reflexivity).
  assert (Ew : width (fst (draw rnd noise rasterize ms ms' s)) = width s)
    by (rewrite E; reflexivity).
  assert (Eh : height (fst (draw rnd noise rasterize ms ms' s)) = height s)
    by (rewrite E; reflexivity).
  rewrite Ec, Ew, Eh, Hp.
  destruct Hs as [[Hnd Hfa] Hkey]. rewrite Forall_forall in Hfa.
  eapply Forall2_impl_In_both; [exact Hall |].
  intros pt p _ Hin (Hhome & _ & Hsz).
  split; [| split; [apply Hreach'; exact Hin | exact Hsz]].
  rewrite Hframe; [exact Hhome | |].
  - apply Hfa. apply (particle_refs_home_pos _ p Hin).
  - apply home_not_pos; assumption.
Qed.

Lemma run_on_text (n d b : option string) (w h : nat) (ms0 : R)
    (steps : list Step) :
  Forall clock_ok steps ->
  on_text rasterize
    (run rnd noise rasterize steps (setup rnd rasterize n d b w h ms0)).
Proof.
  intros Hclock.
  apply (run_invariant rnd noise rasterize (on_text rasterize) clock_ok).
  - intros s ms ms' Hms Hs. apply draw_on_text; assumption.
  - intros s e Hs.
    destruct (handle_cases rnd noise rasterize e s) as [E | (s0 & E & _ & Eb & _)];
      rewrite E; [exact Hs |].
    apply buildTextParticles_on_text. rewrite Eb. apply Hs.
  - apply buildTextParticles_on_text. cbn [config].
    apply getParams_breath_min.
  - exact Hclock.
Qed.

(** What a frame shows on a state whose particles are on the text. *)
Lemma frame_on_text (ms ms' : R) (s : Sketch) :
  0 <= ms -> on_text rasterize s ->
  Forall2 (fun pt c =>
             dist (mkVec (cx c) (cy c)) (mkVec (INR (fst pt)) (INR (snd pt)))
             <= 373 / 10
             /\ 16 / 10 <= diameter c < 24 / 10
             /\ gray c = 255 /\ 200 <= opacity c <= 255)
          (sample_points
             (rasterize (DISPLAY_TEXT (config s)) (width s) (height s))
             (width s) (height s))
          (circles (snd (draw rnd noise rasterize ms ms' s))).
Proof.
  intros Hms (Hs & Hb & Hall).
  rewrite (draw_ready_eq rnd noise rasterize ms ms' s Hs).
  cbn [snd circles].
  set (t := ms / 1000). set (br := Q2R (BREATH_SECONDS (config s))).
  assert (Hbr : 0 < br) by (apply breath_positive; exact Hb).
  assert (Ht : 0 <= t) by (unfold t; lra).
  pose proof (tri_range br t Hbr Ht) as Htri.
  assert (He : 0 <= Breath.exhale br t <= 1) by (unfold Breath.exhale; lra).
  pose proof (update_all_positions noise t (Breath.tri br t)
                (Breath.exhale br t) (particles s) (world s) (proj1 Hs))
    as Hpos.
  cbv zeta in Hpos.
  pose proof (Forall2_compose _ _ _ _ _ Hall Hpos) as Hcomp.
  eapply Forall2_impl_In; [exact Hcomp |].
  intros pt c _ (p & (Hhome & [Hrand Hd] & Hsz) & Hc & _).
  rewrite Hc. cbn [cx cy diameter gray opacity].
  pose proof (integrate_within noise noise_range _ _ (theta p) _ t _ Hrand He
                Hd) as Hin.
  rewrite DRIFT_REACH_value in Hin.
  split.
  - rewrite <- Hhome. unfold dist in Hin |- *. cbn [vx vy]. exact Hin.
  - split; [exact Hsz |]. split; [reflexivity |].
    apply alpha_range. exact Htri.
Qed.

(** A frame on a state with a stale key is the frame on the rebuilt state. *)
Lemma draw_stale (ms ms' : R) (s : Sketch) :
  currentKey s <> lastBuildKey s ->
  draw rnd noise rasterize ms ms' s
  = draw rnd noise rasterize ms ms' (buildTextParticles rnd rasterize s).
Proof.
  intros Hne.
  pose proof (buildTextParticles_synced rnd rasterize s) as Hk.
  cbv zeta in Hk. destruct Hk as (Hk & _).
  unfold draw at 2. fold (currentKey (buildTextParticles rnd rasterize s)).
  rewrite <- Hk, String.eqb_refl.
  unfold draw. fold (currentKey s).
  destruct (String.eqb_spec (currentKey s) (lastBuildKey s));
    [contradiction | reflexivity].
Qed.

(** The frame [resizeCanvas] draws shows the text at the new size. *)
Lemma resize_frame_on_text (w h : nat) (ms ms' : R) (s : Sketch) :
  0 <= ms -> on_text rasterize s ->
  Forall2 (fun pt c =>
             dist (mkVec (cx c) (cy c)) (mkVec (INR (fst pt)) (INR (snd pt)))
             <= 373 / 10
             /\ 16 / 10 <= diameter c < 24 / 10
             /\ gray c = 255 /\ 200 <= opacity c <= 255)
          (sample_points (rasterize (DISPLAY_TEXT (config s)) w h) w h)
          (circles (snd (resizeCanvas rnd noise rasterize w h ms ms' s))).
Proof.
  intros Hms Hon. unfold resizeCanvas.
  set (s1 := mkSketch (config s) w h (particles s) (lastBuildKey s)
                      (startMillis s) (world s) (builds s)).
  destruct (String.eqb_spec (currentKey s1) (lastBuildKey s1)) as [E | E].
  - assert (Es : s1 = s).
    { unfold s1, currentKey in E. cbn [config width height lastBuildKey] in E.
      destruct Hon as ((_ & Hk) & _). rewrite Hk in E. unfold currentKey in E.
      apply buildKey_inj in E as (_ & -> & ->). destruct s; reflexivity. }
    rewrite Es.
    assert (Ew : w = width s) by (rewrite <- Es; reflexivity).
    assert (Eh : h = height s) by (rewrite <- Es; reflexivity).
    rewrite Ew, Eh. apply frame_on_text; assumption.
  - rewrite (draw_stale ms ms' s1 E).
    pose proof (buildTextParticles_fields rnd rasterize s1) as Hf.
    cbv zeta in Hf. destruct Hf as (Hc & Hw & Hh & _).
    pose proof (frame_on_text ms ms' (buildTextParticles rnd rasterize s1) Hms)
      as H.
    rewrite Hc, Hw, Hh in H. apply H.
    apply buildTextParticles_on_text. apply Hon.
Qed.

End DrawnDots.

(** X17: with random values in [[0,1)], noise values in [[0,1]] and clock
    readings that are not negative, every frame drawn after [setup] (frames
    of the loop and events in any order before it) shows one dot for each lit
    pixel of the sampling grid of the current text's raster, in row order,
    centred within 37.3 pixels of that pixel, with a diameter from 1.6 up to
    2.4, in white, at an opacity from 200 to 255; and so does the frame that
    [resizeCanvas] draws during a resize, for the raster at the new size. *)
Theorem X17_drawn_dots_follow_the_text
    (rnd : nat -> R) (noise : R -> R -> R -> R)
    (rasterize : string -> nat -> nat -> list Z)
    (n d b : option string) (w h : nat) (ms0 : R) (steps : list Step)
    (ms ms' : R)
    (Hrnd : forall k, 0 <= rnd k < 1)
    (Hnoise : forall x y z, 0 <= noise x y z <= 1)
    (Hclock : Forall clock_ok steps) (Hms : 0 <= ms) :
  let s := run rnd noise rasterize steps (setup rnd rasterize n d b w h ms0) in
  let shown := fun pt c =>
    dist (mkVec (cx c) (cy c)) (mkVec (INR (fst pt)) (INR (snd pt)))
    <= 373 / 10
    /\ 16 / 10 <= diameter c < 24 / 10
    /\ gray c = 255 /\ 200 <= opacity c <= 255 in
  Forall2 shown
          (sample_points
             (rasterize (DISPLAY_TEXT (config s)) (width s) (height s))
             (width s) (height s))
          (circles (snd (draw rnd noise rasterize ms ms' s)))
  /\ (forall w2 h2,
        Forall2 shown
                (sample_points (rasterize (DISPLAY_TEXT (config s)) w2 h2)
                               w2 h2)
                (circles
                   (snd (resizeCanvas rnd noise rasterize w2 h2 ms ms' s)))).
Proof.
  cbv zeta.
  pose proof (run_on_text rnd noise rasterize Hrnd Hnoise n d b w h ms0 steps
                Hclock) as Hon.
  split.
  - apply (frame_on_text rnd noise rasterize Hnoise); assumption.
  - intros w2 h2.
    apply (resize_frame_on_text rnd noise rasterize Hrnd Hnoise); assumption.
Qed.

(** ** Settings over a run *)

Section Settings.

Variable rnd : nat -> R.
Variable noise : R -> R -> R -> R.
Variable rasterize : string -> nat -> nat -> list Z.

Lemma step_settings (st : Step) (s : Sketch) :
  frame_ready s ->
  let s' := step rnd noise rasterize st s in
  frame_ready s'
  /\ RUN_SECONDS (config s') = RUN_SECONDS (config s)
  /\ BREATH_SECONDS (config s') = BREATH_SECONDS (config s)
  /\ startMillis s' = startMillis s
  /\ (width s', height s') = resize_of (width s, height s) st
  /\ (types_r st = false -> DISPLAY_TEXT (config s') = DISPLAY_TEXT (config s)).
Proof.
  intros Hs. cbv zeta.
  destruct st as [ms ms' | [key | w h ms ms']]; cbn [step handle].
  - split; [apply (draw_frame rnd noise rasterize ms ms' s Hs) |].
    rewrite (draw_ready_eq rnd noise rasterize ms ms' s Hs).
    cbn [fst config width height startMillis resize_of].
    repeat split; reflexivity.
  - split; [apply (handle_ready rnd noise rasterize (KeyTyped key) s Hs) |].
    unfold keyTyped. cbn [types_r resize_of].
    destruct (String.eqb key "r"); [| repeat split; reflexivity].
    destruct (random_range rnd 1 9999 (world s)) as [v w'].
    match goal with
    | |- context [buildTextParticles rnd rasterize ?s0] =>
        pose proof (buildTextParticles_fields rnd rasterize s0) as H
    end.
    cbv zeta in H. destruct H as (Hc & Hw & Hh & Hm & _).
    rewrite Hc, Hw, Hh, Hm.
    cbn [config width height startMillis RUN_SECONDS BREATH_SECONDS].
    repeat split; try reflexivity. discriminate.
  - split;
      [apply (handle_ready rnd noise rasterize (WindowResized w h ms ms') s Hs)
      |].
    cbn [types_r resize_of].
    pose proof (windowResized_synced rnd noise rasterize w h ms ms' s) as H.
    cbv zeta in H. destruct H as (_ & _ & _ & Hc & Hw & Hh & Hm).
    rewrite Hc, Hw, Hh, Hm. repeat split; reflexivity.
Qed.

Lemma run_settings (steps : list Step) :
  forall s : Sketch,
  frame_ready s ->
  let s' := run rnd noise rasterize steps s in
  RUN_SECONDS (config s') = RUN_SECONDS (config s)
  /\ BREATH_SECONDS (config s') = BREATH_SECONDS (config s)
  /\ startMillis s' = startMillis s
  /\ (width s', height s') = fold_left resize_of steps (width s, height s)
  /\ (existsb types_r steps = false ->
      DISPLAY_TEXT (config s') = DISPLAY_TEXT (config s)).
Proof.
  induction steps as [| st steps IH]; intros s Hs; cbv zeta.
  - cbn [run fold_left]. repeat split; reflexivity.
  - destruct (step_settings st s Hs) as (Hs' & Hr & Hb & Hm & Hsz & Ht).
    destruct (IH _ Hs') as (Hr' & Hb' & Hm' & Hsz' & Ht').
    unfold run in *. cbn [fold_left existsb].
    rewrite Hr', Hb', Hm', Hsz', Hsz, Hr, Hb, Hm.
    repeat split; try reflexivity.
    intros Hno. apply orb_false_elim in Hno as [H1 H2].
    rewrite (Ht' H2). apply Ht, H1.
Qed.

End Settings.

(** X18: in every state the sketch reaches after [setup], the run duration
    and the breath half-period are the ones [getParams] read, the start time
    is the one [setup] recorded, the canvas has the size of the latest resize
    (or the initial one), the display text is the one [getParams] read as
    long as 'r' was not typed, and so the countdown of every frame counts
    from the start time with the configured duration. *)
Theorem X18_settings_over_a_run :
  forall (rnd : nat -> R) (noise : R -> R -> R -> R)
         (rasterize : string -> nat -> nat -> list Z)
         (n d b : option string) (w h : nat) (ms0 : R) (steps : list Step),
  let c0 := getParams n d b default_config in
  let s := run rnd noise rasterize steps (setup rnd rasterize n d b w h ms0) in
  RUN_SECONDS (config s) = RUN_SECONDS c0
  /\ BREATH_SECONDS (config s) = BREATH_SECONDS c0
  /\ startMillis s = ms0
  /\ (width s, height s) = canvas_after steps w h
  /\ (existsb types_r steps = false -> DISPLAY_TEXT (config s) = DISPLAY_TEXT c0)
  /\ (forall ms ms',
        hud (snd (draw rnd noise rasterize ms ms' s))
        = countdown (RUN_SECONDS c0) ((ms' - ms0) / 1000) (width s) (height s)).
Proof.
  intros rnd noise rasterize n d b w h ms0 steps. cbv zeta.
  pose proof (run_settings rnd noise rasterize steps
                (setup rnd rasterize n d b w h ms0)
                (setup_ready rnd rasterize n d b w h ms0)) as H.
  cbv zeta in H. destruct H as (Hr & Hb & Hm & Hsz & Ht).
  pose proof (setup_fields rnd rasterize n d b w h ms0) as Hf.
  cbv zeta in Hf. destruct Hf as (Hc & Hw & Hh & _).
  assert (Hm0 : startMillis (setup rnd rasterize n d b w h ms0) = ms0).
  { unfold setup.
    match goal with
    | |- context [buildTextParticles rnd rasterize ?s0] =>
        pose proof (buildTextParticles_fields rnd rasterize s0) as H
    end.
    cbv zeta in H. destruct H as (_ & _ & _ & H & _). rewrite H. reflexivity. }
  rewrite Hc, ?Hw, ?Hh, ?Hm0 in *.
  split; [exact Hr |]. split; [exact Hb |]. split; [exact Hm |].
  split; [exact Hsz |]. split; [exact Ht |].
  intros ms ms'. rewrite draw_hud. rewrite Hr, Hm. reflexivity.
Qed.

(** ** Runs on a canvas with lit pixels

    The witnesses below run the sketch on a raster that is white all over, so
    that every pixel of the sampling grid is lit: four particles on a 12 by 12
    canvas, six on an 18 by 12 one. *)

Lemma white_sample_12 :
  sample_points (white_pixels 12 12) 12 12
  = [(0, 0); (6, 0); (0, 6); (6, 6)]%nat.
Proof. vm_compute. reflexivity. Qed.

Lemma white_sample_18 :
  sample_points (white_pixels 18 12) 18 12
  = [(0, 0); (6, 0); (12, 0); (0, 6); (6, 6); (12, 6)]%nat.
Proof. vm_compute. reflexivity. Qed.

(** The canvas of a run on the white raster that ends 18 by 12 holds six
    particles. *)
Lemma white_run_count (rnd : nat -> R) (noise : R -> R -> R -> R)
    (n d b : option string) (w h : nat) (ms0 : R) (steps : list Step) :
  canvas_after steps w h = (18, 12)%nat ->
  let rasterize := fun (_ : string) (w h : nat) => white_pixels w h in
  let s := run rnd noise rasterize steps (setup rnd rasterize n d b w h ms0) in
  width s = 18%nat /\ height s = 12%nat /\ length (particles s) = 6%nat.
Proof.
  intros Hcanvas. cbv zeta.
  pose proof (run_particle_count rnd noise
                (fun (_ : string) (w h : nat) => white_pixels w h)
                n d b w h ms0 steps) as Hcount.
  pose proof (run_settings rnd noise
                (fun (_ : string) (w h : nat) => white_pixels w h) steps
                (setup rnd (fun (_ : string) (w h : nat) => white_pixels w h)
                       n d b w h ms0)
                (setup_ready _ _ n d b w h ms0)) as Hset.
  pose proof (setup_fields rnd
                (fun (_ : string) (w h : nat) => white_pixels w h)
                n d b w h ms0) as Hf.
  cbv zeta in Hcount, Hset, Hf.
  destruct Hf as (_ & Hw & Hh & _). destruct Hset as (_ & _ & _ & Hsz & _).
  rewrite Hw, Hh in Hsz. fold (canvas_after steps w h) in Hsz.
  rewrite Hcanvas in Hsz. injection Hsz as Hw' Hh'.
  split; [exact Hw' |]. split; [exact Hh' |].
  rewrite Hcount. cbv beta. rewrite Hw', Hh', white_sample_18. reflexivity.
Qed.

(** A frame three seconds in, on the four particles of a 12 by 12 canvas. *)
Lemma C10_particle_opacity_witness :
  let rnd := fun _ : nat => 1 / 2 in
  let noise := fun _ _ _ : R => 1 / 2 in
  let rasterize := fun (_ : string) (w h : nat) => white_pixels w h in
  let s := setup rnd rasterize None None None 12 12 0 in
  let ms := 3000 in
  let tri := Breath.tri (Q2R (BREATH_SECONDS (config s))) (ms / 1000) in
  let s' := fst (draw rnd noise rasterize ms ms s) in
  let fr := snd (draw rnd noise rasterize ms ms s) in
  length (circles fr) = 4%nat
  /\ Forall2 (fun p c =>
                diameter c = size p /\ gray c = 255
                /\ opacity c = 200 + 55 * tri /\ 200 <= opacity c <= 255)
             (particles s') (circles fr)
  /\ length (circles fr) = length (particles s')
  /\ (buildKey (DISPLAY_TEXT (config s)) (width s) (height s) = lastBuildKey s ->
      particles s' = particles s)
  /\ (forall tr, 0 <= tr <= 1 -> 200 <= 200 + 55 * tr <= 255)
  /\ 200 + 55 * 0 = 200.
Proof.
  cbv zeta.
  pose proof (setup_fields (fun _ => 1 / 2)
                (fun (_ : string) (w h : nat) => white_pixels w h)
                None None None 12 12 0) as Hf.
  pose proof (buildTextParticles_count (fun _ => 1 / 2)
                (fun (_ : string) (w h : nat) => white_pixels w h)
                (mkSketch (getParams None None None default_config) 12 12 []
                          "" 0 (mkWorld [] 0) 0)) as Hcount.
  cbv zeta in Hf, Hcount. fold (setup (fun _ : nat => 1 / 2)
    (fun (_ : string) (w h : nat) => white_pixels w h) None None None 12 12 0)
    in Hcount.
  cbn [config width height] in Hcount. cbv beta in Hcount.
  rewrite white_sample_12 in Hcount. cbn [length] in Hcount.
  set (s := setup (fun _ : nat => 1 / 2)
                  (fun (_ : string) (w h : nat) => white_pixels w h)
                  None None None 12 12 0) in *.
  clearbody s. destruct Hf as (Hc & _ & _ & Hk & _).
  assert (Hb : 0 < Q2R (BREATH_SECONDS (config s))).
  { rewrite Hc.
    change (BREATH_SECONDS (getParams None None None default_config))
      with (inject_Z 8).
    rewrite Q2R_inject_Z. lra. }
  pose proof (C10_particle_opacity (fun _ => 1 / 2) (fun _ _ _ => 1 / 2)
                (fun (_ : string) (w h : nat) => white_pixels w h)
                3000 3000 s ltac:(lra) Hb) as H.
  cbv zeta in H. split; [| exact H].
  destruct H as (_ & Hlen & Hkeep & _).
  rewrite Hlen, Hkeep; [exact Hcount |]. symmetry. exact Hk.
Defined.

(** Two frames around an 'r' key and a resize from 12 by 12 to 18 by 12: six
    particles at the end. *)
Lemma X4_particles_stay_near_home_witness :
  let rnd := fun _ : nat => 1 / 2 in
  let noise := fun _ _ _ : R => 1 / 2 in
  let rasterize := fun (_ : string) (w h : nat) => white_pixels w h in
  let steps := [Frame_at 16 16; Event_of (KeyTyped "r");
                Event_of (WindowResized 18 12 20 20); Frame_at 33 33] in
  let s := run rnd noise rasterize steps
               (setup rnd rasterize (Some "131"%string) None None 12 12 0) in
  length (particles s) = 6%nat
  /\ Forall (fun p =>
               dist (deref (heap (world s)) (pos p))
                    (deref (heap (world s)) (home p)) <= 373 / 10)
            (particles s).
Proof.
  cbv zeta. split.
  - apply (white_run_count (fun _ => 1 / 2) (fun _ _ _ => 1 / 2)
             (Some "131"%string) None None 12 12 0). reflexivity.
  - apply (X4_particles_stay_near_home (fun _ => 1 / 2) (fun _ _ _ => 1 / 2)
             (fun (_ : string) (w h : nat) => white_pixels w h)).
    + intros _. lra.
    + intros _ _ _. lra.
    + repeat constructor; cbn [clock_ok]; lra.
Defined.

(** A frame after a frame, an 'r' key and a resize from 12 by 12 to 18 by
    12: six dots; and the frame a further resize to 12 by 12 draws. *)
Lemma X17_drawn_dots_follow_the_text_witness :
  let rnd := fun _ : nat => 1 / 2 in
  let noise := fun _ _ _ : R => 1 / 2 in
  let rasterize := fun (_ : string) (w h : nat) => white_pixels w h in
  let steps := [Frame_at 16 16; Event_of (KeyTyped "r");
                Event_of (WindowResized 18 12 20 20)] in
  let s := run rnd noise rasterize steps
               (setup rnd rasterize None (Some "60"%string) None 12 12 0) in
  let shown := fun pt c =>
    dist (mkVec (cx c) (cy c)) (mkVec (INR (fst pt)) (INR (snd pt)))
    <= 373 / 10
    /\ 16 / 10 <= diameter c < 24 / 10
    /\ gray c = 255 /\ 200 <= opacity c <= 255 in
  length (circles (snd (draw rnd noise rasterize 50 50 s))) = 6%nat
  /\ Forall2 shown
             (sample_points
                (rasterize (DISPLAY_TEXT (config s)) (width s) (height s))
                (width s) (height s))
             (circles (snd (draw rnd noise rasterize 50 50 s)))
  /\ (forall w2 h2,
        Forall2 shown
                (sample_points (rasterize (DISPLAY_TEXT (config s)) w2 h2)
                               w2 h2)
                (circles
                   (snd (resizeCanvas rnd noise rasterize w2 h2 50 50 s)))).
Proof.
  cbv zeta.
  pose proof (X17_drawn_dots_follow_the_text (fun _ => 1 / 2)
                (fun _ _ _ => 1 / 2)
                (fun (_ : string) (w h : nat) => white_pixels w h)
                None (Some "60"%string) None 12 12 0
                [Frame_at 16 16; Event_of (KeyTyped "r");
                 Event_of (WindowResized 18 12 20 20)] 50 50) as H.
  cbv zeta in H.
  assert (H' := H ltac:(intros ?; lra) ltac:(intros ? ? ?; lra)
                  ltac:(repeat constructor; cbn [clock_ok]; lra) ltac:(lra)).
  clear H. split; [| exact H'].
  destruct H' as [Hall _]. apply Forall2_length in Hall. rewrite <- Hall.
  destruct (white_run_count (fun _ => 1 / 2) (fun _ _ _ => 1 / 2)
              None (Some "60"%string) None 12 12 0
              [Frame_at 16 16; Event_of (KeyTyped "r");
               Event_of (WindowResized 18 12 20 20)] eq_refl)
    as (Hw & Hh & _).
  cbv beta. rewrite Hw, Hh, white_sample_18. reflexivity.
Defined.
